(** * Perma-Recall Link: visited-URL store, TSV import/export, query cache

    A shallow embedding of the extension's background script (IndexedDB
    store, bulk import, TSV export/import, message handlers) and of its
    content script (URL cache, pending-check map, batched checks, link
    scan), with the properties of the specification stated over it.

    JavaScript strings are sequences of UTF-16 code units; a code unit is
    modelled as an [N].  Maps ([Map], the IndexedDB object store keyed by
    [url]) are [gmap]s; arrays are lists. *)

From Stdlib Require Import NArith ZArith Lia List Bool Ascii String.
From stdpp Require Import base option list gmap fin_maps.

Local Open Scope N_scope.

(** ** JavaScript string primitives *)
Module JS.

Abbreviation jsstring := (list N).

(** The code units of an ASCII literal. Rocq literals have no escape
    sequences: a backslash in a literal is the backslash character. *)
Definition lit (s : string) : jsstring :=
  map (fun a => N_of_ascii a) (list_ascii_of_string s).

Definition TAB : N := 9.
Definition LF : N := 10.
Definition CR : N := 13.
Definition BACKSLASH : N := 92.
Definition LETTER_t : N := 116.
Definition LETTER_n : N := 110.
Definition LETTER_r : N := 114.
Definition MINUS : N := 45.
Definition PLUS : N := 43.
Definition DIGIT_0 : N := 48.

(** WhiteSpace and LineTerminator code units of ECMAScript: what
    [String.prototype.trim] strips and [parseInt] skips. *)
Definition is_white_space (c : N) : bool :=
  (c =? 9) || (c =? 10) || (c =? 11) || (c =? 12) || (c =? 13) || (c =? 32)
  || (c =? 160) || (c =? 5760) || ((8192 <=? c) && (c <=? 8202))
  || (c =? 8232) || (c =? 8233) || (c =? 8239) || (c =? 8287)
  || (c =? 12288) || (c =? 65279).

Fixpoint trimStart (s : jsstring) : jsstring :=
  match s with
  | c :: r => if is_white_space c then trimStart r else s
  | [] => []
  end.

Definition trimEnd (s : jsstring) : jsstring := rev (trimStart (rev s)).

(** [s.trim()] *)
Definition trim (s : jsstring) : jsstring := trimEnd (trimStart s).

(** [s.split(sep)] for a one-code-unit separator: never the empty array. *)
Fixpoint split (sep : N) (s : jsstring) : list jsstring :=
  match s with
  | [] => [[]]
  | c :: r =>
      if c =? sep then [] :: split sep r
      else match split sep r with
           | h :: t => (c :: h) :: t
           | [] => [[c]]
           end
  end.

(** [s.replace(/c/g, by)] for a one-code-unit pattern. *)
Fixpoint replace_char (c : N) (by_ : jsstring) (s : jsstring) : jsstring :=
  match s with
  | [] => []
  | x :: r => if x =? c then by_ ++ replace_char c by_ r
              else x :: replace_char c by_ r
  end.

(** [s.replace(/ab/g, by)] for a two-code-unit pattern: matches are taken
    left to right and do not overlap. *)
Fixpoint replace_pair (a b : N) (by_ : N) (s : jsstring) : jsstring :=
  match s with
  | [] => []
  | x :: r =>
      match r with
      | y :: r' =>
          if (x =? a) && (y =? b) then by_ :: replace_pair a b by_ r'
          else x :: replace_pair a b by_ r
      | [] => [x]
      end
  end.

Definition is_digit (c : N) : bool := (48 <=? c) && (c <=? 57).

Fixpoint take_digits (s : jsstring) : jsstring :=
  match s with
  | c :: r => if is_digit c then c :: take_digits r else []
  | [] => []
  end.

Definition digits_value (ds : jsstring) : N :=
  fold_left (fun acc d => 10 * acc + (d - DIGIT_0)) ds 0.

(** The integers a JavaScript number holds exactly, next to neighbours
    it holds exactly too: [Number.isSafeInteger]. *)
Definition safe_integer (z : Z) : Prop := (Z.abs z < 2 ^ 53)%Z.

(** [parseInt(s, 10)]: leading white space skipped, an optional sign, then
    the longest run of decimal digits; [None] is NaN. The value is the
    integer the digits denote. The code's number is that integer when
    it is a safe integer; above, the code has its rounding to a double,
    so what is said of the value below is said for safe integers. *)
Definition parseInt (s : jsstring) : option Z :=
  let s1 := trimStart s in
  let '(neg, s2) :=
    match s1 with
    | c :: r => if c =? MINUS then (true, r)
                else if c =? PLUS then (false, r) else (false, s1)
    | [] => (false, s1)
    end in
  match take_digits s2 with
  | [] => None
  | ds => Some (if neg then - Z.of_N (digits_value ds)
                else Z.of_N (digits_value ds))%Z
  end.

(** Decimal digits of a natural number, most significant first. The fuel
    is the binary size of the number, which bounds the decimal size. *)
Fixpoint digits_fuel (fuel : nat) (n : N) : jsstring :=
  match fuel with
  | O => [DIGIT_0 + n mod 10]
  | S f => if n <? 10 then [DIGIT_0 + n]
           else digits_fuel f (n / 10) ++ [DIGIT_0 + n mod 10]
  end.

Definition digits (n : N) : jsstring := digits_fuel (N.to_nat (N.size n)) n.

(** Number-to-string conversion of an integer: all its decimal digits.
    A template literal prints a safe integer so; above, the code prints
    the shortest digits that read back as the same double, and from
    10^21 on the exponent form. Reading the printed digits back gives
    the number again in the code as here. *)
Definition number_to_string (z : Z) : jsstring :=
  if (z <? 0)%Z then MINUS :: digits (Z.to_N (- z)) else digits (Z.to_N z).

End JS.

(** ** Background script: the object store and its connection *)
Module Store.
Import JS.

(** A record of the [VisitedLinks] object store, [keyPath: 'url']. *)
Record VisitRecord := { url : jsstring; timestamp : Z }.

(** The object store: at most one record per [url]. *)
Abbreviation Store := (gmap jsstring Z).

(** [store.put({url, timestamp})] when the request succeeds. *)
Definition store_put (st : Store) (r : VisitRecord) : Store :=
  <[url r := timestamp r]> st.

(** The state of a promise. *)
Inductive promise_state (A E : Type) :=
| Pending
| Fulfilled (a : A)
| Rejected (e : E).
Arguments Pending {A E}.
Arguments Fulfilled {A E} a.
Arguments Rejected {A E} e.

Section InitDB.
(** Database handles ([request.result]) and errors ([request.error]). *)
Context {Handle Err : Type}.

(** The globals [db] and [dbInitPromise], the promises [initDB] made,
    and the [indexedDB.open] requests that have not completed yet, each
    named by the promise its handlers settle. *)
Record Conn := {
  db : option Handle;
  dbInitPromise : option nat;
  promises : gmap nat (promise_state Handle Err);
  open_requests : list nat;
  next_promise : nat
}.

Definition conn0 : Conn :=
  {| db := None; dbInitPromise := None; promises := ∅;
     open_requests := []; next_promise := 0 |}.

(** [initDB()]: the executor opens the database at once; the promise is
    stored in [dbInitPromise] and returned. *)
Definition initDB (c : Conn) : Conn * nat :=
  match dbInitPromise c with
  | Some p => (c, p)
  | None =>
      let p := next_promise c in
      ({| db := db c;
          dbInitPromise := Some p;
          promises := <[p := Pending]> (promises c);
          open_requests := open_requests c ++ [p];
          next_promise := S p |}, p)
  end.

Definition remove_request (p : nat) (l : list nat) : list nat :=
  filter (fun q => q ≠ p) l.

(** [request.onsuccess] of the request behind promise [p]. *)
Definition open_onsuccess (p : nat) (h : Handle) (c : Conn) : Conn :=
  {| db := Some h;
     dbInitPromise := dbInitPromise c;
     promises := <[p := Fulfilled h]> (promises c);
     open_requests := remove_request p (open_requests c);
     next_promise := next_promise c |}.

(** [request.onerror] of the request behind promise [p]. *)
Definition open_onerror (p : nat) (e : Err) (c : Conn) : Conn :=
  {| db := db c;
     dbInitPromise := None;
     promises := <[p := Rejected e]> (promises c);
     open_requests := remove_request p (open_requests c);
     next_promise := next_promise c |}.

(** [n] calls of [initDB] in a row: the final state and the promises
    the callers got, in call order. *)
Fixpoint initDB_calls (n : nat) (c : Conn) : Conn * list nat :=
  match n with
  | O => (c, [])
  | S k => let '(c1, p) := initDB c in
           let '(c2, ps) := initDB_calls k c1 in
           (c2, p :: ps)
  end.
End InitDB.
Arguments Conn : clear implicits.

End Store.

(** ** Background script: TSV export and import *)
Module Tsv.
Import JS Store.

(** *** TSV export *)

(** [item.url.replace(/\t/g, '\\t').replace(/\n/g, '\\n').replace(/\r/g, '\\r')] *)
Definition escape_url (u : jsstring) : jsstring :=
  replace_char CR [BACKSLASH; LETTER_r]
    (replace_char LF [BACKSLASH; LETTER_n]
       (replace_char TAB [BACKSLASH; LETTER_t] u)).

Definition TSV_HEADER : jsstring := lit "url" ++ [TAB] ++ lit "timestamp" ++ [LF].

(** [exportHistoryToTSV], on the array [allUrls] that [getAllUrls] gave. *)
Definition exportHistoryToTSV (allUrls : list VisitRecord) : jsstring :=
  fold_left
    (fun tsvContent item =>
       tsvContent ++ escape_url (url item) ++ [TAB]
                  ++ number_to_string (timestamp item) ++ [LF])
    allUrls TSV_HEADER.

(** *** TSV import *)

(** [parts[0].replace(/\\t/g, '\t').replace(/\\n/g, '\n').replace(/\\r/g, '\r')] *)
Definition unescape_url (s : jsstring) : jsstring :=
  replace_pair BACKSLASH LETTER_r CR
    (replace_pair BACKSLASH LETTER_n LF
       (replace_pair BACKSLASH LETTER_t TAB s)).

(** [!s] on a string. *)
Definition is_empty (s : jsstring) : bool :=
  match s with [] => true | _ => false end.

(** [parts[i]]; out of range is [undefined], which no path below reads. *)
Definition part (parts : list jsstring) (i : nat) : jsstring := nth i parts [].

Section ImportLoop.
(** The write of one record, [None] when opening the database or the
    [put] request fails (the [catch] of the loop body). *)
Context {DB : Type} (put : DB -> VisitRecord -> option DB).

Record ImportState := { store : DB; imported : nat; errors : nat }.

(** The body of the [for] loop of [importHistoryFromTSV] on [lines[i]]. *)
Definition import_line (s : ImportState) (raw : jsstring) : ImportState :=
  let line := trim raw in
  if is_empty line then s
  else
    let parts := split TAB line in
    if (length parts <? 2)%nat then
      {| store := store s; imported := imported s; errors := S (errors s) |}
    else
      let u := unescape_url (part parts 0) in
      match is_empty u, parseInt (part parts 1) with
      | false, Some ts =>
          match put (store s) {| url := u; timestamp := ts |} with
          | Some d => {| store := d; imported := S (imported s); errors := errors s |}
          | None => {| store := store s; imported := imported s; errors := S (errors s) |}
          end
      | _, _ => {| store := store s; imported := imported s; errors := S (errors s) |}
      end.

(** [importHistoryFromTSV]: the loop starts at index 1. *)
Definition importHistoryFromTSV (d : DB) (tsvData : jsstring) : ImportState :=
  fold_left import_line (drop 1 (split LF tsvData))
    {| store := d; imported := 0; errors := 0 |}.

(** What the loop body makes of a line: it passes over it, counts an
    error, or has a record to write. *)
Inductive line_class :=
| Blank
| Malformed
| Valid (r : VisitRecord).

Definition fewer_than_two_fields (line : jsstring) : bool :=
  (length (split TAB line) <? 2)%nat.

Definition timestamp_unparseable (line : jsstring) : bool :=
  match parseInt (part (split TAB line) 1) with None => true | Some _ => false end.

Definition url_empty (line : jsstring) : bool :=
  is_empty (unescape_url (part (split TAB line) 0)).

(** The tests of the loop body on [lines[i]], in one value. *)
Definition classify (raw : jsstring) : line_class :=
  let line := trim raw in
  if is_empty line then Blank
  else if fewer_than_two_fields line || timestamp_unparseable line || url_empty line
  then Malformed
  else Valid {| url := unescape_url (part (split TAB line) 0);
                timestamp := default 0%Z (parseInt (part (split TAB line) 1)) |}.

Definition apply_class (s : ImportState) (c : line_class) : ImportState :=
  match c with
  | Blank => s
  | Malformed => {| store := store s; imported := imported s; errors := S (errors s) |}
  | Valid r =>
      match put (store s) r with
      | Some d => {| store := d; imported := S (imported s); errors := errors s |}
      | None => {| store := store s; imported := imported s; errors := S (errors s) |}
      end
  end.
End ImportLoop.

(** The in-memory store never fails. *)
Definition mem_put (st : Store) (r : VisitRecord) : option Store :=
  Some (store_put st r).

(** *** The records the round trip preserves *)

(** No occurrence of [a] immediately followed by [b]. *)
Fixpoint no_pair (a b : N) (s : jsstring) : bool :=
  match s with
  | [] => true
  | c :: r =>
      match r with
      | d :: _ => negb ((c =? a) && (d =? b)) && no_pair a b r
      | [] => true
      end
  end.

(** No backslash immediately followed by the letter t, n or r. *)
Definition no_escape_sequence (u : jsstring) : bool :=
  no_pair BACKSLASH LETTER_t u && no_pair BACKSLASH LETTER_n u
  && no_pair BACKSLASH LETTER_r u.

(** Not empty, and the first code unit is a tab, a line feed, a carriage
    return or no white space at all. *)
Definition leading_ok (u : jsstring) : bool :=
  match u with
  | [] => false
  | c :: _ => (c =? TAB) || (c =? LF) || (c =? CR) || negb (is_white_space c)
  end.

Definition exportable (r : VisitRecord) : Prop :=
  leading_ok (url r) = true ∧ no_escape_sequence (url r) = true
  ∧ (Z.abs (timestamp r) < 10 ^ 21)%Z.

(** The escaping of [escape_url] in one pass, one code unit at a time,
    for a table of escaped code units. *)
Fixpoint escape_char (table : list (N * N)) (c : N) : jsstring :=
  match table with
  | [] => [c]
  | (k, e) :: t => if c =? k then [BACKSLASH; e] else escape_char t c
  end.

Fixpoint escape_with (table : list (N * N)) (u : jsstring) : jsstring :=
  match u with
  | [] => []
  | c :: r => escape_char table c ++ escape_with table r
  end.

Definition escapes : list (N * N) :=
  [(TAB, LETTER_t); (LF, LETTER_n); (CR, LETTER_r)].

(** The line [exportHistoryToTSV] writes for a record, without its line
    feed. *)
Definition record_line (r : VisitRecord) : jsstring :=
  escape_url (url r) ++ [TAB] ++ number_to_string (timestamp r).

Definition record_pair (r : VisitRecord) : jsstring * Z := (url r, timestamp r).

(** Export followed by import into the empty store. *)
Definition export_then_import (allUrls : list VisitRecord) : ImportState :=
  importHistoryFromTSV mem_put ∅ (exportHistoryToTSV allUrls).

(** *** The lines of a text and the records they hold *)

(** The lines the loop reads: all but the first. *)
Definition data_lines (tsvData : jsstring) : list jsstring :=
  drop 1 (split LF tsvData).

(** A line the loop does not pass over. *)
Definition non_blank (raw : jsstring) : bool := negb (is_empty (trim raw)).

(** The records of the lines that pass the checks, in line order. *)
Definition valid_records (tsvData : jsstring) : list VisitRecord :=
  omap (fun raw => match classify raw with Valid r => Some r | _ => None end)
       (data_lines tsvData).

(** The timestamp of the last record for [u] in a list. *)
Definition last_for (u : jsstring) (rs : list VisitRecord) : option Z :=
  timestamp <$> last (filter (fun r => url r = u) rs).

(** The text of the import scenario: a header, a good line, a line
    without a tab, a good line. *)
Definition scenario_text : jsstring :=
  lit "url" ++ [TAB] ++ lit "timestamp" ++ [LF]
  ++ lit "https://x/" ++ [TAB] ++ lit "5" ++ [LF]
  ++ lit "badline" ++ [LF]
  ++ lit "https://y/" ++ [TAB] ++ lit "7" ++ [LF].

(** A record whose URL holds a tab, a line feed and a carriage return. *)
Definition control_chars_record : VisitRecord :=
  {| url := lit "https://x/?q=" ++ [TAB; LF; CR] ++ lit "z";
     timestamp := 1700000000000 |}.

(** A record whose URL has a backslash followed by the letter t in its
    query (the literal below is 15 characters long). *)
Definition backslash_t_record : VisitRecord :=
  {| url := lit "https://x/?q=\t"; timestamp := 5 |}.

End Tsv.

(** ** Background script: bulk import, progress and message handlers *)
Module Bulk.
Import JS Store.

(** The global [importProgress]. *)
Record ImportProgress := { inProgress : bool; total : nat; imported : nat }.

(** The object store, the two keys of [chrome.storage.local] the script
    uses ([None]: absent or [null]) and the progress singleton. *)
Record Background := {
  store : Store;
  historyImported : option bool;
  lastImportTime : option Z;
  importProgress : ImportProgress
}.

Definition background0 : Background :=
  {| store := ∅; historyImported := None; lastImportTime := None;
     importProgress := {| inProgress := false; total := 0; imported := 0 |} |}.

Definition set_progress (p : ImportProgress) (bg : Background) : Background :=
  {| store := store bg; historyImported := historyImported bg;
     lastImportTime := lastImportTime bg; importProgress := p |}.

Definition set_store (st : Store) (bg : Background) : Background :=
  {| store := st; historyImported := historyImported bg;
     lastImportTime := lastImportTime bg; importProgress := importProgress bg |}.

(** An item of [chrome.history.search] together with what its
    [addUrlToDB] does: [Some now] writes the record with [Date.now()]
    read as [now], [None] is a write that fails (logged and skipped). *)
Record HistoryItem := { item_url : jsstring; written_at : option Z }.

(** *** [importHistoryToDB], one synchronous segment per definition *)

(** Lines 108-110, up to the [await] of [chrome.history.search]. *)
Definition import_begin (bg : Background) : Background :=
  set_progress {| inProgress := true;
                  total := total (importProgress bg);
                  imported := 0 |} bg.

(** Line 121, when the search has returned [historyItems]. *)
Definition import_found (historyItems : list HistoryItem) (bg : Background)
  : Background :=
  set_progress {| inProgress := inProgress (importProgress bg);
                  total := length historyItems;
                  imported := imported (importProgress bg) |} bg.

Definition batchSize : nat := 100.

Definition addUrlToDB (st : Store) (item : HistoryItem) : Store :=
  match written_at item with
  | Some now => store_put st {| url := item_url item; timestamp := now |}
  | None => st
  end.

(** Lines 127-134: the batch at index [i] is written, then [imported]
    is set. *)
Definition import_batch (historyItems : list HistoryItem) (i : nat)
    (bg : Background) : Background :=
  let batch := take batchSize (drop i historyItems) in
  let bg1 := set_store (fold_left addUrlToDB batch (store bg)) bg in
  set_progress {| inProgress := inProgress (importProgress bg1);
                  total := total (importProgress bg1);
                  imported := Nat.min (i + batchSize) (length historyItems) |} bg1.

(** The [for] loop: the states after each batch. The number of items
    bounds the number of batches. *)
Fixpoint import_batches (fuel : nat) (historyItems : list HistoryItem)
    (i : nat) (bg : Background) : list Background :=
  match fuel with
  | O => []
  | S f =>
      if (i <? length historyItems)%nat then
        let bg1 := import_batch historyItems i bg in
        bg1 :: import_batches f historyItems (i + batchSize) bg1
      else []
  end.

(** Lines 144-149: the marker is stored with [Date.now()] read as [now],
    then the run is over. *)
Definition import_finish (now : Z) (bg : Background) : Background :=
  {| store := store bg; historyImported := Some true;
     lastImportTime := Some now;
     importProgress := {| inProgress := false;
                          total := total (importProgress bg);
                          imported := imported (importProgress bg) |} |}.

(** The [catch]: line 152. *)
Definition import_fail (bg : Background) : Background :=
  set_progress {| inProgress := false;
                  total := total (importProgress bg);
                  imported := imported (importProgress bg) |} bg.

(** The states of a run that meets no error, one per suspension point:
    while the search is outstanding, when it has returned, after each
    batch, and at the end. A [getImportProgress] request served during
    the run reads [importProgress] of one of them. *)
Definition import_run (historyItems : list HistoryItem) (now : Z)
    (bg : Background) : list Background :=
  let bg1 := import_begin bg in
  let bg2 := import_found historyItems bg1 in
  let after := import_batches (length historyItems) historyItems 0 bg2 in
  bg1 :: bg2 :: after ++ [import_finish now (List.last after bg2)].

(** *** Message handlers *)

Inductive Response :=
| RSuccess
| RError (message : string)
| RStats (count : nat) (lastImport : option Z).

(** What the synchronous part of a handler leaves: the state, the
    response if it was sent already, and whether an import run was
    started. *)
Record Handled := {
  state : Background;
  response : option Response;
  run_started : bool
}.

(** [request.action === 'importHistory'] *)
Definition onMessage_importHistory (bg : Background) : Handled :=
  if inProgress (importProgress bg) then
    {| state := bg;
       response := Some (RError "Import already in progress");
       run_started := false |}
  else
    {| state := import_begin bg; response := None; run_started := true |}.

(** [request.action === 'getImportProgress'] *)
Definition onMessage_getImportProgress (bg : Background) : ImportProgress :=
  importProgress bg.

(** [request.action === 'clearHistory']: [clear_ok] and [set_ok] tell
    whether [clearAllUrls] and [chrome.storage.local.set] succeed. *)
Definition onMessage_clearHistory (clear_ok set_ok : bool) (bg : Background)
  : Background * Response :=
  if clear_ok then
    let bg1 := set_store ∅ bg in
    if set_ok then
      ({| store := store bg1; historyImported := Some false;
          lastImportTime := None; importProgress := importProgress bg1 |},
       RSuccess)
    else (bg1, RError "storage")
  else (bg, RError "store").

(** [storage.lastImportTime || null] *)
Definition or_null (t : option Z) : option Z :=
  match t with
  | Some z => if (z =? 0)%Z then None else Some z
  | None => None
  end.

(** [request.action === 'getStats']: [count_ok] tells whether
    [getUrlCount] succeeds. *)
Definition onMessage_getStats (count_ok : bool) (bg : Background) : Response :=
  if count_ok then RStats (size (store bg)) (or_null (lastImportTime bg))
  else RError "store".

(** [initialize()]: [init_ok] tells whether [initDB] succeeds. The result
    is the state when the function first suspends or returns, and whether
    it called [importHistoryToDB]. *)
Definition initialize (init_ok : bool) (bg : Background) : Background * bool :=
  if init_ok then
    match historyImported bg with
    | Some true => (bg, false)
    | _ => (import_begin bg, true)
    end
  else (bg, false).

(** *** The lookups the content script asks for *)

(** [checkUrlInDB(url)]: [!!request.result], or [None] when opening the
    database or the request fails. *)
Definition checkUrlInDB (ok : bool) (st : Store) (url : jsstring) : option bool :=
  if ok then Some (bool_decide (is_Some (st !! url))) else None.

(** [request.action === 'checkUrl']: the [isVisited] of the response;
    a lookup that fails is answered [false]. *)
Definition onMessage_checkUrl (ok : bool) (st : Store) (url : jsstring) : bool :=
  default false (checkUrlInDB ok st url).

(** [request.action === 'checkUrls']: the [results] of the response,
    one per requested URL; [ok u] tells whether the lookup of [u]
    succeeds. *)
Definition onMessage_checkUrls (ok : jsstring -> bool) (st : Store)
    (urls : list jsstring) : list (jsstring * bool) :=
  map (fun u => (u, default false (checkUrlInDB (ok u) st u))) urls.

(** The records a list of history items writes, in order: one for each
    item whose write succeeds. *)
Definition written_records (historyItems : list HistoryItem) : list VisitRecord :=
  omap (fun it => (fun now => {| url := item_url it; timestamp := now |})
                    <$> written_at it)
       historyItems.

(** The persistent part of the state at the next start of the service
    worker: the globals are initialised again. *)
Definition restart (bg : Background) : Background :=
  set_progress {| inProgress := false; total := 0; imported := 0 |} bg.

(** A history item whose write succeeds at time [now]. *)
Definition item (u : string) (now : Z) : HistoryItem :=
  {| item_url := lit u; written_at := Some now |}.

(** The state a finished run of three items leaves. *)
Definition after_first_run : Background :=
  List.last (import_run [item "https://a/" 1; item "https://b/" 2;
                         item "https://c/" 3] 4 background0) background0.

End Bulk.

(** ** Content script: URL cache, pending checks, batched checks, link scan *)
Module Content.
Import JS.

(** [new Set(array)] read back as an array: values are added in order,
    a value already present is not added again. *)
Definition set_add (x : jsstring) (set : list jsstring) : list jsstring :=
  if decide (x ∈ set) then set else set ++ [x].

Definition array_to_set (l : list jsstring) : list jsstring :=
  fold_left (fun set x => set_add x set) l [].

(** What a promise of the query layer resolves to. *)
Inductive Value :=
| VBool (isVisited : bool)
| VResults (results : list (jsstring * bool)).

(** A message sent to the background script whose callback has not run
    yet, with the promise the callback resolves. *)
Inductive Query :=
| CheckUrl (u : jsstring) (p : nat)
| CheckUrls (uncachedUrls uniqueUrls : list jsstring) (p : nat).

(** The maps [urlCache] and [pendingChecks], the promises that are
    settled, the messages awaiting their callback. *)
Record Session := {
  urlCache : gmap jsstring bool;
  pendingChecks : gmap jsstring nat;
  settled : gmap nat Value;
  outstanding : list Query;
  next_promise : nat
}.

Definition session0 : Session :=
  {| urlCache := ∅; pendingChecks := ∅; settled := ∅; outstanding := [];
     next_promise := 0 |}.

(** What a call finds in its environment: [chrome.runtime?.id] is set,
    [chrome.runtime.sendMessage] throws. *)
Record Env := { context_valid : bool; send_throws : bool }.

(** What an [async] function hands back: a value, or the outcome of a
    promise. *)
Inductive Returned :=
| Now (v : Value)
| Later (p : nat).

Definition cache_set (u : jsstring) (b : bool) (s : Session) : Session :=
  {| urlCache := <[u := b]> (urlCache s); pendingChecks := pendingChecks s;
     settled := settled s; outstanding := outstanding s;
     next_promise := next_promise s |}.

Definition pending_set (u : jsstring) (p : nat) (s : Session) : Session :=
  {| urlCache := urlCache s; pendingChecks := <[u := p]> (pendingChecks s);
     settled := settled s; outstanding := outstanding s;
     next_promise := next_promise s |}.

Definition pending_delete (u : jsstring) (s : Session) : Session :=
  {| urlCache := urlCache s; pendingChecks := delete u (pendingChecks s);
     settled := settled s; outstanding := outstanding s;
     next_promise := next_promise s |}.

Definition resolve (p : nat) (v : Value) (s : Session) : Session :=
  {| urlCache := urlCache s; pendingChecks := pendingChecks s;
     settled := <[p := v]> (settled s); outstanding := outstanding s;
     next_promise := next_promise s |}.

Definition sendMessage (q : Query) (s : Session) : Session :=
  {| urlCache := urlCache s; pendingChecks := pendingChecks s;
     settled := settled s; outstanding := outstanding s ++ [q];
     next_promise := next_promise s |}.

Definition new_promise (s : Session) : Session :=
  {| urlCache := urlCache s; pendingChecks := pendingChecks s;
     settled := settled s; outstanding := outstanding s;
     next_promise := S (next_promise s) |}.

Definition callback_runs (i : nat) (s : Session) : Session :=
  {| urlCache := urlCache s; pendingChecks := pendingChecks s;
     settled := settled s; outstanding := delete i (outstanding s);
     next_promise := next_promise s |}.

(** The number of messages of a kind among the outstanding ones. *)
Definition count (P : Query -> bool) (l : list Query) : nat :=
  length (filter (fun q => P q = true) l).

Section Session.
(** [new URL(url).href], [None] when the constructor throws. *)
Variable url_parse : jsstring -> option jsstring.

Definition normalizeUrl (url : jsstring) : jsstring :=
  match url_parse url with
  | Some href => href
  | None => url
  end.

(** [checkUrlVisited(url)]. The executor of [new Promise] runs inside
    the constructor, so its branches come before line 107, where the
    promise is stored in [pendingChecks]. *)
Definition checkUrlVisited (env : Env) (url : jsstring) (s : Session)
  : Session * Returned :=
  let normalizedUrl := normalizeUrl url in
  match urlCache s !! normalizedUrl with
  | Some isVisited => (s, Now (VBool isVisited))
  | None =>
      match pendingChecks s !! normalizedUrl with
      | Some p => (s, Later p)
      | None =>
          let checkPromise := next_promise s in
          let s1 :=
            if negb (context_valid env) then
              resolve checkPromise (VBool false) (pending_delete normalizedUrl s)
            else if send_throws env then
              resolve checkPromise (VBool false) (pending_delete normalizedUrl s)
            else sendMessage (CheckUrl normalizedUrl checkPromise) s in
          (pending_set normalizedUrl checkPromise (new_promise s1),
           Later checkPromise)
      end
  end.

(** The callback of a [checkUrl] message: [response] is
    [response?.isVisited]. *)
Definition checkUrl_callback (normalizedUrl : jsstring) (p : nat)
    (lastError : bool) (response : option bool) (s : Session) : Session :=
  if lastError then
    resolve p (VBool false) (pending_delete normalizedUrl s)
  else
    let isVisited := default false response in
    resolve p (VBool isVisited)
      (pending_delete normalizedUrl (cache_set normalizedUrl isVisited s)).

Definition all_false (uniqueUrls : list jsstring) : Value :=
  VResults (map (fun u => (u, false)) uniqueUrls).

(** [checkUrlsBatch(urls)]. In the first branch every URL of
    [uniqueUrls] is cached, so [urlCache.get] finds it. *)
Definition checkUrlsBatch (env : Env) (urls : list jsstring) (s : Session)
  : Session * Returned :=
  let uniqueUrls := array_to_set (map normalizeUrl urls) in
  let uncachedUrls :=
    filter (fun u => urlCache s !! u = None) uniqueUrls in
  match uncachedUrls with
  | [] =>
      (s, Now (VResults
                 (map (fun u => (u, default false (urlCache s !! u)))
                      uniqueUrls)))
  | _ :: _ =>
      let p := next_promise s in
      let s1 :=
        if negb (context_valid env) then resolve p (all_false uniqueUrls) s
        else if send_throws env then resolve p (all_false uniqueUrls) s
        else sendMessage (CheckUrls uncachedUrls uniqueUrls p) s in
      (new_promise s1, Later p)
  end.

(** The callback of a [checkUrls] message: [response] is
    [response?.results]. *)
Definition checkUrls_callback (uniqueUrls : list jsstring) (p : nat)
    (lastError : bool) (response : option (list (jsstring * bool)))
    (s : Session) : Session :=
  if lastError then resolve p (all_false uniqueUrls) s
  else
    let s1 :=
      match response with
      | Some results =>
          fold_left (fun acc r => cache_set (fst r) (snd r) acc) results s
      | None => s
      end in
    resolve p
      (VResults (map (fun u => (u, default false (urlCache s1 !! u)))
                     uniqueUrls))
      s1.

(** [markUrlAsVisited(url)], its effect on the cache. *)
Definition markUrlAsVisited (url : jsstring) (s : Session) : Session :=
  cache_set (normalizeUrl url) true s.

(** What happens in a document session: calls of the two check
    functions, visited notifications, and the callback of the [i]-th
    outstanding message being run with what the transport gave. *)
Inductive Event :=
| CheckOne (env : Env) (url : jsstring)
| CheckMany (env : Env) (urls : list jsstring)
| MarkVisited (url : jsstring)
| Reply (i : nat) (lastError : bool) (isVisited : option bool)
        (results : option (list (jsstring * bool))).

Definition step (s : Session) (ev : Event) : Session :=
  match ev with
  | CheckOne env url => fst (checkUrlVisited env url s)
  | CheckMany env urls => fst (checkUrlsBatch env urls s)
  | MarkVisited url => markUrlAsVisited url s
  | Reply i lastError isVisited results =>
      match outstanding s !! i with
      | Some (CheckUrl u p) =>
          checkUrl_callback u p lastError isVisited (callback_runs i s)
      | Some (CheckUrls _ uniqueUrls p) =>
          checkUrls_callback uniqueUrls p lastError results (callback_runs i s)
      | None => s
      end
  end.

Definition run (evs : list Event) : Session := fold_left step evs session0.

(** The outstanding store queries that ask about [u]. *)
Definition asks_about (u : jsstring) (q : Query) : bool :=
  match q with
  | CheckUrl v _ => bool_decide (v = u)
  | CheckUrls uncachedUrls _ _ => bool_decide (u ∈ uncachedUrls)
  end.

Definition queries_about (u : jsstring) (s : Session) : nat :=
  count (asks_about u) (outstanding s).

(** Those among them that [checkUrlVisited] sent. *)
Definition is_checkUrl (u : jsstring) (q : Query) : bool :=
  match q with
  | CheckUrl v _ => bool_decide (v = u)
  | CheckUrls _ _ _ => false
  end.

Definition checkUrl_queries (u : jsstring) (s : Session) : nat :=
  count (is_checkUrl u) (outstanding s).

(** *** The scan of [processLinks] *)

(** An [a[href]] element: its identity and its [href] property. *)
Record Link := { element : nat; href : jsstring }.

Fixpoint startsWith (prefix s : jsstring) : bool :=
  match prefix, s with
  | [], _ => true
  | a :: prefix', b :: s' => (a =? b) && startsWith prefix' s'
  | _ :: _, [] => false
  end.

(** [!href || href.startsWith('javascript:') || href.startsWith('#')] *)
Definition skipped (link : Link) : bool :=
  match href link with [] => true | _ => false end
  || startsWith (lit "javascript:") (href link)
  || startsWith (lit "#") (href link).

(** The [Map] [urlToLinks] and the array [urls]. *)
Record Scan := {
  urlToLinks : gmap jsstring (list Link);
  urls : list jsstring
}.

(** The body of [links.forEach]. *)
Definition scan_link (sc : Scan) (link : Link) : Scan :=
  if skipped link then sc
  else
    let normalizedUrl := normalizeUrl (href link) in
    let sc1 :=
      match urlToLinks sc !! normalizedUrl with
      | Some _ => sc
      | None => {| urlToLinks := <[normalizedUrl := []]> (urlToLinks sc);
                   urls := urls sc ++ [normalizedUrl] |}
      end in
    {| urlToLinks :=
         <[normalizedUrl :=
             default [] (urlToLinks sc1 !! normalizedUrl) ++ [link]]>
           (urlToLinks sc1);
       urls := urls sc1 |}.

(** The scan over [document.querySelectorAll('a[href]')]. *)
Definition scan (links : list Link) : Scan :=
  fold_left scan_link links {| urlToLinks := ∅; urls := [] |}.

(** The elements the scan does not skip, in document order. *)
Definition kept (links : list Link) : list Link :=
  filter (fun l => skipped l = false) links.

(** The distinct values of a list, in the order of their first
    occurrence. *)
Fixpoint first_occurrences (l : list jsstring) : list jsstring :=
  match l with
  | [] => []
  | x :: r => x :: filter (fun y => y ≠ x) (first_occurrences r)
  end.
End Session.

(** *** The anchors of a document *)

(** An [a] element with an [href] attribute, as the document has it:
    its identity and the value of the attribute. *)
Record Anchor := { anchor_element : nat; href_attribute : jsstring }.



Definition script_target (a : Anchor) : Prop :=
  ∃ rest, href_attribute a = lit "javascript:" ++ rest.






(** *** The invariant of the pending map *)

(** At most one outstanding [checkUrl] message per URL, and the promise
    of each is the one [pendingChecks] holds for its URL. *)
Definition pending_inv (s : Session) : Prop :=
  (∀ u, count (is_checkUrl u) (outstanding s) ≤ 1)%nat
  ∧ (∀ u p, CheckUrl u p ∈ outstanding s → pendingChecks s !! u = Some p).

(** The status of a URL for a session whose cache misses are answered
    by [answer]: the cached value if there is one. *)
Definition visited_status (s : Session) (answer : jsstring -> bool)
    (u : jsstring) : bool :=
  match urlCache s !! u with
  | Some b => b
  | None => answer u
  end.

(** *** Concrete sessions *)

(** URLs that are already in normal form: the parser gives them back. *)
Definition parse_normalized (u : jsstring) : option jsstring := Some u.

Definition env_ok : Env := {| context_valid := true; send_throws := false |}.
Definition env_invalidated : Env :=
  {| context_valid := false; send_throws := false |}.
Definition env_throwing : Env := {| context_valid := true; send_throws := true |}.

Definition url_a : jsstring := lit "https://a.test/".
Definition url_b : jsstring := lit "https://b.test/".

End Content.

(** ** A visit, from the background script to the tabs *)
Module Visit.
Import JS Store Content.

Section Visit.
(** [new URL(url).href] in the tabs, [None] when the constructor throws. *)
Variable url_parse : jsstring -> option jsstring.

(** [processVisitedUrl(url)]. [written] is what [addUrlToDB] does:
    [Some now] writes the record with [Date.now()] read as [now], [None]
    is a failure (the [catch]: no tab is told). A tab is [None] when it
    has no content script: its [sendMessage] is rejected and ignored. *)
Definition processVisitedUrl (written : option Z) (url : jsstring)
    (st : Store) (tabs : list (option Session))
  : Store * list (option Session) :=
  match url with
  | [] => (st, tabs)
  | _ :: _ =>
      match written with
      | Some now =>
          (store_put st {| Store.url := url; timestamp := now |},
           map (fmap (markUrlAsVisited url_parse url)) tabs)
      | None => (st, tabs)
      end
  end.

(** [chrome.history.onVisited]: the listener passes a URL that is set. *)
Definition onVisited (written : option Z) (url : option jsstring)
    (st : Store) (tabs : list (option Session))
  : Store * list (option Session) :=
  match url with
  | Some u => processVisitedUrl written u st tabs
  | None => (st, tabs)
  end.

(** [chrome.tabs.onUpdated]: [changeInfo.status] and [changeInfo.url]. *)
Definition onUpdated (written : option Z) (status : jsstring)
    (url : option jsstring) (st : Store) (tabs : list (option Session))
  : Store * list (option Session) :=
  match url with
  | Some u =>
      if bool_decide (status = lit "complete")
         && negb (startsWith (lit "chrome://") u)
         && negb (startsWith (lit "chrome-extension://") u)
         && negb (startsWith (lit "about:") u)
      then processVisitedUrl written u st tabs
      else (st, tabs)
  | None => (st, tabs)
  end.
End Visit.

End Visit.

(** ** Content script: marking the links *)
Module Annotate.
Import JS Content.

(** [markLink(link, isVisited)], on the set of the elements whose class
    list holds [VISITED_CLASS]. *)
Definition markLink (link : Link) (isVisited : bool) (marked : gset nat)
  : gset nat :=
  if isVisited && negb (bool_decide (element link ∈ marked))
  then {[ element link ]} ∪ marked
  else marked.

(** The body of [results.forEach]: every element of
    [urlToLinks.get(url) || []] goes through [markLink]. *)
Definition mark_result (sc : Scan) (marked : gset nat) (r : jsstring * bool)
  : gset nat :=
  fold_left (fun m link => markLink link (snd r) m)
            (default [] (urlToLinks sc !! fst r)) marked.

Definition mark_results (sc : Scan) (results : list (jsstring * bool))
    (marked : gset nat) : gset nat :=
  fold_left (mark_result sc) results marked.

(** What a run of [processLinks] meets: the environment at its start
    and at the batch that starts at index [i], and what the transport
    hands to the callback of a [checkUrls] message about given URLs
    ([chrome.runtime.lastError] set or not, and [response?.results]). *)
Record World := {
  env_start : Env;
  env_at : nat -> Env;
  reply_to : list jsstring -> bool * option (list (jsstring * bool))
}.

Definition batchSize : nat := 50.

Section Pipeline.
(** [new URL(url).href], [None] when the constructor throws. *)
Variable url_parse : jsstring -> option jsstring.

(** What [await checkUrlsBatch(batch)] gives when the message the call
    sent, if it sent one, is answered before anything else happens: the
    message is the one past those that were outstanding before. *)
Definition awaited_checkUrlsBatch (w : World) (env : Env)
    (batch : list jsstring) (s : Session)
  : Session * list (jsstring * bool) :=
  let s1 := fst (checkUrlsBatch url_parse env batch s) in
  match snd (checkUrlsBatch url_parse env batch s) with
  | Now (VResults results) => (s1, results)
  | Now (VBool _) => (s1, [])
  | Later p =>
      let s2 :=
        match outstanding s1 !! length (outstanding s) with
        | Some (CheckUrls uncachedUrls _ _) =>
            step url_parse s1
              (Reply (length (outstanding s)) (fst (reply_to w uncachedUrls))
                     None (snd (reply_to w uncachedUrls)))
        | _ => s1
        end in
      match settled s2 !! p with
      | Some (VResults results) => (s2, results)
      | _ => (s2, [])
      end
  end.

(** The [for] loop of [processLinks] from index [i]: the context is
    checked before each batch. The number of URLs bounds the number of
    batches. *)
Fixpoint annotate (fuel : nat) (w : World) (sc : Scan) (i : nat)
    (s : Session) (marked : gset nat) : Session * gset nat :=
  match fuel with
  | O => (s, marked)
  | S f =>
      if (i <? length (urls sc))%nat then
        if negb (context_valid (env_at w i)) then (s, marked)
        else
          let batch := take batchSize (drop i (urls sc)) in
          let r := awaited_checkUrlsBatch w (env_at w i) batch s in
          annotate f w sc (i + batchSize) (fst r)
                   (mark_results sc (snd r) marked)
      else (s, marked)
  end.

(** [processLinks()], on the elements [document.querySelectorAll('a[href]')]
    gave, run on its own: no other call or callback in between. *)
Definition processLinks (w : World) (links : list Link) (s : Session)
    (marked : gset nat) : Session * gset nat :=
  if negb (context_valid (env_start w)) then (s, marked)
  else
    match links with
    | [] => (s, marked)
    | _ :: _ =>
        let sc := scan url_parse links in
        annotate (length (urls sc)) w sc 0 s marked
    end.
(** [markUrlAsVisited(url)], on the elements
    [document.querySelectorAll('a[href]')] gave: the cache entry is
    set, and every element whose normalized [href] is the normalized
    URL gets the class. *)
Definition mark_if_same (normalizedUrl : jsstring) (marked : gset nat)
    (link : Link) : gset nat :=
  if bool_decide (normalizeUrl url_parse (href link) = normalizedUrl)
     && negb (bool_decide (element link ∈ marked))
  then {[ element link ]} ∪ marked
  else marked.

Definition markUrlAsVisited (url : jsstring) (links : list Link)
    (s : Session) (marked : gset nat) : Session * gset nat :=
  (Content.markUrlAsVisited url_parse url s,
   fold_left (mark_if_same (normalizeUrl url_parse url)) links marked).
End Pipeline.

(** A world where the context stays valid and the background script
    answers every message from the store [st]. *)
Definition answered_by (st : Store.Store) : World :=
  {| env_start := env_ok;
     env_at := fun _ => env_ok;
     reply_to := fun urls =>
       (false, Some (Bulk.onMessage_checkUrls (fun _ => true) st urls)) |}.

End Annotate.

(** ** Content script: the mutation observer *)
Module Observe.
Import JS Content.

Inductive MutationType := childList | attributes | characterData.

(** An added node: its [nodeType], its [tagName], and whether
    [node.querySelector('a')] finds an element. *)
Record Node := { nodeType : N; tagName : jsstring; querySelector_a : bool }.

Record MutationRecord := { type : MutationType; addedNodes : list Node }.

Definition ELEMENT_NODE : N := 1.

Definition brings_link (node : Node) : bool :=
  (nodeType node =? ELEMENT_NODE)
  && (bool_decide (tagName node = lit "A") || querySelector_a node).

(** The loop over [mutation.addedNodes]; [break] leaves it. *)
Fixpoint added_loop (nodes : list Node) (hasNewLinks : bool) : bool :=
  match nodes with
  | [] => hasNewLinks
  | node :: rest =>
      if brings_link node then true else added_loop rest hasNewLinks
  end.

(** The loop over [mutations], from [hasNewLinks = false]. *)
Definition hasNewLinks (mutations : list MutationRecord) : bool :=
  fold_left (fun has mutation =>
               match type mutation with
               | childList => added_loop (addedNodes mutation) has
               | _ => has
               end)
            mutations false.

(** The observer: whether it is connected, [observer.timeoutId], the
    timers that were set and have neither been cleared nor run, the id
    the next [setTimeout] gives, and the number of calls of
    [processLinks] made from a timer. *)
Record Observer := {
  connected : bool;
  timeoutId : option nat;
  timers : list nat;
  next_timer : nat;
  processed : nat
}.

(** After [observer.observe(document.body, ...)]. *)
Definition observer0 : Observer :=
  {| connected := true; timeoutId := None; timers := []; next_timer := 0;
     processed := 0 |}.

(** [clearTimeout(id)]: nothing happens for [undefined] and for a timer
    that is not waiting. *)
Definition clearTimeout (id : option nat) (o : Observer) : Observer :=
  match id with
  | None => o
  | Some i =>
      {| connected := connected o; timeoutId := timeoutId o;
         timers := filter (fun j => j ≠ i) (timers o);
         next_timer := next_timer o; processed := processed o |}
  end.

(** [observer.timeoutId = setTimeout(..., 300)]. *)
Definition setTimeout (o : Observer) : Observer :=
  {| connected := connected o; timeoutId := Some (next_timer o);
     timers := timers o ++ [next_timer o];
     next_timer := S (next_timer o); processed := processed o |}.

Definition disconnect (o : Observer) : Observer :=
  {| connected := false; timeoutId := timeoutId o; timers := timers o;
     next_timer := next_timer o; processed := processed o |}.

(** The callback of the [MutationObserver]. *)
Definition callback (env : Env) (mutations : list MutationRecord)
    (o : Observer) : Observer :=
  if negb (context_valid env) then disconnect o
  else if hasNewLinks mutations then setTimeout (clearTimeout (timeoutId o) o)
  else o.

(** The function given to [setTimeout]. *)
Definition on_timeout (env : Env) (o : Observer) : Observer :=
  if negb (context_valid env) then o
  else
    {| connected := connected o; timeoutId := timeoutId o; timers := timers o;
       next_timer := next_timer o; processed := S (processed o) |}.

(** What the page does to the observer: a batch of mutation records is
    delivered, to a connected observer only, or a waiting timer runs. *)
Inductive Event :=
| Mutations (env : Env) (mutations : list MutationRecord)
| Timer (env : Env) (id : nat).

Definition step (o : Observer) (ev : Event) : Observer :=
  match ev with
  | Mutations env mutations =>
      if connected o then callback env mutations o else o
  | Timer env id =>
      if bool_decide (id ∈ timers o)
      then on_timeout env (clearTimeout (Some id) o)
      else o
  end.

Definition run (evs : list Event) (o : Observer) : Observer :=
  fold_left step evs o.

(** The deliveries that ask for a rescan. *)
Definition asks_rescan (ev : Event) : bool :=
  match ev with
  | Mutations env mutations => context_valid env && hasNewLinks mutations
  | Timer _ _ => false
  end.

(** At most one timer waits, and it is the one [observer.timeoutId]
    names. *)
Definition one_timer (o : Observer) : Prop :=
  timers o = [] ∨ ∃ id, timers o = [id] ∧ timeoutId o = Some id.

(** An added [a] element, and a text node. *)
Definition anchor_node : Node :=
  {| nodeType := 1; tagName := lit "A"; querySelector_a := false |}.
Definition text_node : Node :=
  {| nodeType := 3; tagName := []; querySelector_a := false |}.
Definition link_added : list MutationRecord :=
  [ {| type := childList; addedNodes := [text_node; anchor_node] |} ].

End Observe.

(** ** The custom style: popup and content script *)
Module Style.
Import JS Content.

(** A string as a condition: the empty string counts as false. *)
Definition truthy (s : jsstring) : bool :=
  match s with [] => false | _ => true end.

(** The style element a document holds under the id the function
    uses, [None] when there is none, and its [textContent] otherwise.
    [injectCustomCss(css)] and [applyPreviewCss(css)]: the existing
    element is removed, and a new one is added for a CSS that is not
    blank. *)
Definition injectCustomCss (css : jsstring) (style : option jsstring)
  : option jsstring :=
  let removed : option jsstring :=
    match style with Some _ => None | None => None end in
  if truthy css && truthy (trim css) then Some css else removed.

Definition applyPreviewCss (css : jsstring) (style : option jsstring)
  : option jsstring :=
  let removed : option jsstring :=
    match style with Some _ => None | None => None end in
  if truthy css && truthy (trim css) then Some css else removed.

(** [loadAndApplyCustomCss()] of the content script, for the value
    [chrome.storage.local] holds under [customCss]. *)
Definition loadAndApplyCustomCss (env : Env) (customCss : option jsstring)
    (style : option jsstring) : option jsstring :=
  if negb (context_valid env) then style
  else
    match customCss with
    | Some css => if truthy css then injectCustomCss css style else style
    | None => style
    end.

(** The stored CSS and the open tabs: [None] for a tab without the
    content script, where [chrome.tabs.sendMessage] is rejected and the
    rejection ignored, and the style element of the page otherwise. *)
Record Browser := {
  customCss : option jsstring;
  tabs : list (option (option jsstring))
}.

(** The [updateCss] message in a tab. *)
Definition updateCss (css : jsstring) (tab : option (option jsstring))
  : option (option jsstring) :=
  match tab with
  | Some style => Some (injectCustomCss css style)
  | None => None
  end.

(** [saveCustomCss()] of the popup for the value of the text area, with
    a storage that takes the write. *)
Definition saveCustomCss (value : jsstring) (b : Browser) : Browser :=
  let css := trim value in
  {| customCss := Some css; tabs := map (updateCss css) (tabs b) |}.

(** [resetCustomCss()], for the answer to [confirm]. *)
Definition resetCustomCss (confirmed : bool) (b : Browser) : Browser :=
  if negb confirmed then b
  else {| customCss := None; tabs := map (updateCss []) (tabs b) |}.

Definition DEFAULT_CSS : jsstring :=
  lit "a.extension-perma-recalled {
  border: 2px solid #0088AA !important;
  border-radius: 3px !important;
  padding: 2px 4px !important;
  background-color: rgba(0, 136, 170, 0.05) !important;
}".

(** [loadCustomCss()] of the popup: the value the text area gets. *)
Definition loadCustomCss (customCss : option jsstring) : jsstring :=
  match customCss with
  | Some css => css
  | None => DEFAULT_CSS
  end.

End Style.

(** ** The TSV import as the specification words it *)
Module TsvSpec.
Import JS Store Tsv.

Definition white (c : N) : Prop := is_white_space c = true.

(** A decimal digit, [0] to [9]. *)
Definition digit (c : N) : Prop := 48 <= c ∧ c <= 57.

(** The text that the pieces [fs] make when [sep] is put between them. *)
Fixpoint join (sep : N) (fs : list jsstring) : jsstring :=
  match fs with
  | [] => []
  | f :: rest =>
      match rest with
      | [] => f
      | _ :: _ => f ++ sep :: join sep rest
      end
  end.

(** [s] is made of the pieces [fs], none of which holds [sep]. *)
Definition pieces (sep : N) (s : jsstring) (fs : list jsstring) : Prop :=
  fs ≠ [] ∧ Forall (fun f => sep ∉ f) fs ∧ s = join sep fs.

(** The lines of a text, the first of them the header. *)
Definition lines_of (text header : jsstring) (ls : list jsstring) : Prop :=
  pieces LF text (header :: ls).

(** [core] is [raw] without the white space at its two ends. *)
Definition stripped (raw core : jsstring) : Prop :=
  ∃ l r, raw = l ++ core ++ r ∧ Forall white l ∧ Forall white r
         ∧ (∀ c, head core = Some c → ¬ white c)
         ∧ (∀ c, last core = Some c → ¬ white c).

(** The line taken as it is. *)
Definition unchanged (raw line : jsstring) : Prop := line = raw.

(** The number a run of decimal digits denotes. *)
Fixpoint decimal (ds : jsstring) : Z :=
  match ds with
  | [] => 0
  | d :: rest =>
      (Z.of_N d - 48) * 10 ^ Z.of_nat (length rest) + decimal rest
  end%Z.

Inductive sign : jsstring -> Z -> Prop :=
| sign_none : sign [] 1
| sign_minus : sign [MINUS] (-1)
| sign_plus : sign [PLUS] 1.

(** The field parses as an integer: after white space it starts with
    an optional sign and a run of decimal digits, which ends where the
    field ends or at a code unit that is no digit; [z] is the integer
    so written. *)
Definition integer_prefix (f : jsstring) (z : Z) : Prop :=
  ∃ l sg σ ds rest,
    f = l ++ sg ++ ds ++ rest ∧ Forall white l ∧ sign sg σ
    ∧ ds ≠ [] ∧ Forall digit ds
    ∧ (∀ c, head rest = Some c → ¬ digit c)
    ∧ z = (σ * decimal ds)%Z.

(** The unescaping, the inverse of the escaping of export: read from
    left to right, a backslash followed by t, n or r stands for a tab,
    a line feed or a carriage return, and every other code unit for
    itself. *)
Fixpoint unescaped (s : jsstring) : jsstring :=
  match s with
  | [] => []
  | c :: r =>
      match r with
      | [] => [c]
      | d :: r' =>
          if decide (c = BACKSLASH ∧ d = LETTER_t) then TAB :: unescaped r'
          else if decide (c = BACKSLASH ∧ d = LETTER_n) then LF :: unescaped r'
          else if decide (c = BACKSLASH ∧ d = LETTER_r) then CR :: unescaped r'
          else c :: unescaped r
      end
  end.

(** How a line is read, for a given way of preparing it: a blank line
    is passed over; a line with fewer than two tab-separated fields,
    with a timestamp field that does not parse as an integer, or with
    a URL field that is empty after unescaping is an error; any other
    line gives a record, from its first two fields. *)
Inductive reads (prepared : jsstring -> jsstring -> Prop)
  : jsstring -> line_class -> Prop :=
| reads_blank raw :
    Forall white raw → reads prepared raw Blank
| reads_one_field raw line f :
    ¬ Forall white raw → prepared raw line → pieces TAB line [f] →
    reads prepared raw Malformed
| reads_no_timestamp raw line f0 f1 more :
    ¬ Forall white raw → prepared raw line →
    pieces TAB line (f0 :: f1 :: more) →
    (∀ z, ¬ integer_prefix f1 z) →
    reads prepared raw Malformed
| reads_empty_url raw line f0 f1 more :
    ¬ Forall white raw → prepared raw line →
    pieces TAB line (f0 :: f1 :: more) →
    unescaped f0 = [] →
    reads prepared raw Malformed
| reads_record raw line f0 f1 more z :
    ¬ Forall white raw → prepared raw line →
    pieces TAB line (f0 :: f1 :: more) →
    integer_prefix f1 z → unescaped f0 ≠ [] →
    reads prepared raw (Valid {| url := unescaped f0; timestamp := z |}).

(** What a line read so does to the store and the two counters. *)
Definition tally (st : @ImportState Store) (c : line_class)
  : @ImportState Store :=
  match c with
  | Blank => st
  | Malformed =>
      {| store := store st; imported := imported st; errors := S (errors st) |}
  | Valid r =>
      {| store := <[url r := timestamp r]> (store st);
         imported := S (imported st); errors := errors st |}
  end.

Definition safe_class (c : line_class) : Prop :=
  match c with
  | Valid r => safe_integer (timestamp r)
  | _ => True
  end.

(** A text whose second line starts with a tab. *)
Definition leading_tab_line : jsstring :=
  [TAB] ++ lit "https://x/" ++ [TAB] ++ lit "5".
Definition leading_tab_text : jsstring :=
  TSV_HEADER ++ leading_tab_line ++ [LF].

(** A text whose lines need the white space removed, the URL unescaped
    and the timestamp read from the start of its field: a record with
    spaces around it, an escaped tab in its URL, a timestamp followed
    by letters and a third field; a line of spaces; a line that is a
    tab and a number; a line whose timestamp does not start with a
    digit; a last line without a line feed, with a negative
    timestamp. *)
Definition messy_text : jsstring :=
  TSV_HEADER
  ++ lit "  https://x/a\tb" ++ [TAB] ++ lit " 12abc" ++ [TAB] ++ lit "more  " ++ [LF]
  ++ lit "   " ++ [LF]
  ++ [TAB] ++ lit "7" ++ [LF]
  ++ lit "https://y/" ++ [TAB] ++ lit "x7" ++ [LF]
  ++ lit "https://z/" ++ [TAB] ++ lit "-3".

End TsvSpec.

(** * Properties *)

(** ** The database connection *)
Section InitDBFacts.
Import Store.
Context {Handle Err : Type}.
Implicit Types (c : Conn Handle Err) (h : Handle) (e : Err).

Lemma initDB_pending c p :
  dbInitPromise c = Some p → initDB c = (c, p).
Proof. intros H. unfold initDB. by rewrite H. Qed.

Lemma initDB_calls_pending n c p :
  dbInitPromise c = Some p → initDB_calls n c = (c, replicate n p).
Proof.
  intros H. induction n as [|n IH]; simpl; [done|].
  by rewrite (initDB_pending _ _ H), IH.
Qed.

Lemma initDB_fresh c :
  dbInitPromise c = None →
  ∃ c1, initDB c = (c1, next_promise c)
        ∧ dbInitPromise c1 = Some (next_promise c)
        ∧ promises c1 !! next_promise c = Some Pending
        ∧ open_requests c1 = open_requests c ++ [next_promise c]
        ∧ next_promise c1 = S (next_promise c).
Proof.
  intros H. unfold initDB. rewrite H. eexists. split; [done|]. simpl.
  by rewrite lookup_insert_eq.
Qed.

(** C7. A first [initDB] call starts one attempt: one [indexedDB.open]
    request and one promise [p]. Every call made before the request
    completes returns that same promise and opens nothing more. If the
    request succeeds with handle [h], [p] is fulfilled with [h], [db]
    is [h], and later calls still return [p] without a new request. If
    the request fails with [e], [p] is rejected with [e], the stored
    promise is dropped, and the next call opens a new request with a
    new pending promise. *)
Theorem initDB_single_shared_attempt c :
  dbInitPromise c = None →
  ∃ c1 p,
    initDB c = (c1, p)
    ∧ open_requests c1 = open_requests c ++ [p]
    ∧ promises c1 !! p = Some Pending
    ∧ (∀ n, initDB_calls n c1 = (c1, replicate n p))
    ∧ (∀ h, let c2 := open_onsuccess p h c1 in
            promises c2 !! p = Some (Fulfilled h)
            ∧ db c2 = Some h
            ∧ ∀ n, initDB_calls n c2 = (c2, replicate n p))
    ∧ (∀ e, let c3 := open_onerror p e c1 in
            promises c3 !! p = Some (Rejected e)
            ∧ dbInitPromise c3 = None
            ∧ ∃ c4 p', initDB c3 = (c4, p')
                       ∧ p' ≠ p
                       ∧ promises c4 !! p' = Some Pending
                       ∧ promises c4 !! p = Some (Rejected e)
                       ∧ open_requests c4 = open_requests c3 ++ [p']).
Proof.
  intros Hnone.
  destruct (initDB_fresh c Hnone) as (c1 & Hcall & Hp & Hpend & Hreq & Hnext).
  exists c1, (next_promise c). repeat split; try done.
  - intros n. by apply initDB_calls_pending.
  - simpl. by rewrite lookup_insert_eq.
  - intros n. by apply initDB_calls_pending.
  - simpl. by rewrite lookup_insert_eq.
  - set (c3 := open_onerror (next_promise c) e c1).
    destruct (initDB_fresh c3 eq_refl) as (c4 & Hcall4 & _ & Hpend4 & Hreq4 & _).
    exists c4, (next_promise c3). repeat split; try done.
    + simpl. rewrite Hnext. lia.
    + unfold initDB in Hcall4. simpl in Hcall4. injection Hcall4 as <-.
      simpl. rewrite lookup_insert_ne by (rewrite Hnext; lia).
      by rewrite lookup_insert_eq.
Qed.

End InitDBFacts.

Lemma initDB_single_shared_attempt_witness :
  Store.dbInitPromise (@Store.conn0 nat nat) = None
  ∧ ∃ s p, Store.initDB (@Store.conn0 nat nat) = (s, p)
           ∧ Store.promises s !! p = Some Store.Pending.
Proof.
  split; [reflexivity|].
  destruct (initDB_single_shared_attempt (@Store.conn0 nat nat) eq_refl)
    as (s & p & H1 & _ & H3 & _).
  exists s, p. split; assumption.
Defined.

(** ** Bulk import, progress and handlers *)
Section BulkFacts.
Import JS Store Bulk.

Lemma import_batch_total items i bg :
  total (importProgress (import_batch items i bg)) = total (importProgress bg).
Proof. reflexivity. Qed.

Lemma import_batch_inProgress items i bg :
  inProgress (importProgress (import_batch items i bg))
  = inProgress (importProgress bg).
Proof. reflexivity. Qed.

Lemma import_batches_progress fuel items i bg :
  Forall (fun b => total (importProgress b) = total (importProgress bg)
                   ∧ inProgress (importProgress b) = inProgress (importProgress bg))
         (import_batches fuel items i bg).
Proof.
  revert i bg. induction fuel as [|f IH]; intros i bg; simpl; [constructor|].
  destruct (i <? length items)%nat; [|constructor].
  constructor; [done|].
  eapply Forall_impl; [apply IH|]. intros b [Ht Hp]. simpl in *.
  by rewrite Ht, Hp.
Qed.

Lemma last_import_batches fuel items i bg :
  total (importProgress (List.last (import_batches fuel items i bg) bg))
  = total (importProgress bg).
Proof.
  destruct (import_batches fuel items i bg) as [|b l] eqn:E; [done|].
  pose proof (import_batches_progress fuel items i bg) as H. rewrite E in H.
  rewrite Forall_forall in H.
  assert (List.last (b :: l) bg ∈ b :: l) as Hin.
  { clear. revert b. induction l as [|x l IH]; intros b.
    - simpl. left.
    - change (List.last (b :: x :: l) bg) with (List.last (x :: l) bg).
      right. apply IH. }
  by destruct (H _ Hin).
Qed.

(** The loop runs to the end: with the number of items as fuel the last
    batch leaves [imported] at the number of items. *)
Lemma last_default_irrelevant {A} (x : A) l d d' :
  List.last (x :: l) d = List.last (x :: l) d'.
Proof.
  revert x. induction l as [|y l IH]; intros x; [done|].
  change (List.last (y :: l) d = List.last (y :: l) d'). apply IH.
Qed.

Lemma import_batches_complete fuel items i bg :
  (i < length items)%nat → (length items ≤ i + fuel * 100)%nat →
  imported (importProgress (List.last (import_batches fuel items i bg) bg))
  = length items.
Proof.
  revert i bg. induction fuel as [|f IH]; intros i bg Hi Hf; [lia|].
  cbn [import_batches].
  destruct (Nat.ltb_spec i (length items)) as [_|]; [|lia].
  set (bg1 := import_batch items i bg).
  destruct (Nat.lt_ge_cases (i + 100) (length items)) as [Hlt|Hge].
  - assert (length items ≤ i + 100 + f * 100)%nat as Hf' by lia.
    specialize (IH (i + 100)%nat bg1 Hlt Hf').
    change batchSize with 100%nat.
    destruct (import_batches f items (i + 100) bg1) as [|b l] eqn:E.
    + destruct f; [lia|]. cbn [import_batches] in E.
      destruct (Nat.ltb_spec (i + 100) (length items)); [done|lia].
    + change (List.last (bg1 :: b :: l) bg) with (List.last (b :: l) bg).
      by rewrite (last_default_irrelevant b l bg bg1).
  - assert (import_batches f items (i + batchSize) bg1 = []) as ->.
    { change batchSize with 100%nat. destruct f; [done|]. cbn [import_batches].
      destruct (Nat.ltb_spec (i + 100) (length items)); [lia|done]. }
    cbn. change batchSize with 100%nat. lia.
Qed.

(** A run that meets no error ends with the marker stored, the flag
    cleared and [imported] at the number of items. *)
Lemma import_run_completes items now bg :
  let final := List.last (import_run items now bg) bg in
  importProgress final
  = {| inProgress := false; total := length items; imported := length items |}
  ∧ historyImported final = Some true
  ∧ lastImportTime final = Some now.
Proof.
  unfold import_run.
  set (bg2 := import_found items (import_begin bg)).
  set (after := import_batches (length items) items 0 bg2).
  cbv zeta.
  change (import_begin bg :: bg2 :: after ++ [import_finish now (List.last after bg2)])
    with ([import_begin bg; bg2] ++ after ++ [import_finish now (List.last after bg2)]).
  rewrite !app_assoc, List.last_last. simpl. repeat split.
  f_equal.
  - unfold after. by rewrite last_import_batches.
  - destruct items as [|x items']; [done|].
    unfold after. apply import_batches_complete; simpl; lia.
Qed.

(** C5, as the code has it. A run sets [inProgress] and zeroes
    [imported] at once, and keeps the [total] it found until the
    history search has returned; then, before any batch is written, it
    sets [total] to the number of items. Every later state of the run
    reports that [total]. *)
Theorem import_run_progress items now bg :
  ∃ bg1 bg2 rest,
    import_run items now bg = bg1 :: bg2 :: rest
    ∧ importProgress bg1
      = {| inProgress := true; total := total (importProgress bg); imported := 0 |}
    ∧ importProgress bg2
      = {| inProgress := true; total := length items; imported := 0 |}
    ∧ store bg2 = store bg
    ∧ Forall (fun b => total (importProgress b) = length items) rest.
Proof.
  unfold import_run. do 3 eexists. split; [reflexivity|].
  repeat split. apply Forall_app. split.
  - eapply Forall_impl; [apply import_batches_progress|].
    by intros b [Ht _].
  - constructor; [|constructor]. simpl. by rewrite last_import_batches.
Qed.

(** C5, as stated, fails: the progress read while the second run waits
    for its history search reports [total = 3], the first run's, though
    the second run has one item. *)
Lemma import_run_stale_total :
  importProgress after_first_run
  = {| inProgress := false; total := 3; imported := 3 |}
  ∧ ∃ snapshot,
      import_run [item "https://d/" 5] 6 after_first_run !! 0%nat = Some snapshot
      ∧ onMessage_getImportProgress snapshot
        = {| inProgress := true; total := 3; imported := 0 |}.
Proof. split; [reflexivity|]. eexists. split; reflexivity. Qed.

(** C6. While [importProgress.inProgress] is set, an [importHistory]
    request is answered at once with the error, starts no run and
    leaves the state, so [imported] and [total], as it was. *)
Theorem importHistory_rejected_while_running bg :
  inProgress (importProgress bg) = true →
  response (onMessage_importHistory bg)
    = Some (RError "Import already in progress")
  ∧ run_started (onMessage_importHistory bg) = false
  ∧ state (onMessage_importHistory bg) = bg
  ∧ imported (importProgress (state (onMessage_importHistory bg)))
    = imported (importProgress bg)
  ∧ total (importProgress (state (onMessage_importHistory bg)))
    = total (importProgress bg).
Proof. intros H. unfold onMessage_importHistory. by rewrite H. Qed.

(** C10. When [clearHistory] answers success, the store is empty, the
    marker [historyImported] is [false] and [lastImportTime] is null;
    a [getStats] served next reports count 0 and no import time; and
    the initialisation of the next start calls [importHistoryToDB]. *)
Theorem clearHistory_resets_import_marker clear_ok set_ok bg bg' :
  onMessage_clearHistory clear_ok set_ok bg = (bg', RSuccess) →
  store bg' = ∅
  ∧ historyImported bg' = Some false
  ∧ lastImportTime bg' = None
  ∧ onMessage_getStats true bg' = RStats 0 None
  ∧ (∀ count_ok, onMessage_getStats count_ok bg' = RStats 0 None
                 ∨ onMessage_getStats count_ok bg' = RError "store")
  ∧ initialize true (restart bg') = (import_begin (restart bg'), true)
  ∧ inProgress (importProgress (fst (initialize true (restart bg')))) = true.
Proof.
  unfold onMessage_clearHistory.
  destruct clear_ok; [|intros [=]]. destruct set_ok; [|intros [=]].
  intros [= <-]. repeat split.
  intros []; [by left|by right].
Qed.
End BulkFacts.

Lemma importHistory_rejected_while_running_witness :
  let bg := Bulk.import_begin Bulk.background0 in
  Bulk.inProgress (Bulk.importProgress bg) = true
  ∧ Bulk.response (Bulk.onMessage_importHistory bg)
    = Some (Bulk.RError "Import already in progress").
Proof.
  split; [reflexivity|].
  exact (proj1 (importHistory_rejected_while_running
                  (Bulk.import_begin Bulk.background0) eq_refl)).
Defined.

Lemma clearHistory_resets_import_marker_witness :
  let bg := Bulk.import_finish 9
              (Bulk.set_store {[ JS.lit "https://a/" := 1%Z ]} Bulk.background0) in
  ∃ bg', Bulk.onMessage_clearHistory true true bg = (bg', Bulk.RSuccess)
         ∧ Bulk.onMessage_getStats true bg' = Bulk.RStats 0 None.
Proof.
  eexists. split; [reflexivity|].
  exact (proj1 (proj2 (proj2 (proj2
    (clearHistory_resets_import_marker true true
       (Bulk.import_finish 9
          (Bulk.set_store {[ JS.lit "https://a/" := 1%Z ]} Bulk.background0))
       _ eq_refl))))).
Defined.

(** ** String primitives *)
Section JSFacts.
Import JS.
Implicit Types (s r : jsstring) (c sep : N).

Lemma split_app_sep sep s r :
  sep ∉ s → split sep (s ++ sep :: r) = s :: split sep r.
Proof.
  induction s as [|c s IH]; intros Hs; simpl.
  - by rewrite N.eqb_refl.
  - apply not_elem_of_cons in Hs as [Hc Hs].
    destruct (N.eqb_spec c sep) as [->|_]; [done|]. by rewrite IH.
Qed.

Lemma split_no_sep sep s : sep ∉ s → split sep s = [s].
Proof.
  induction s as [|c s IH]; intros Hs; simpl; [done|].
  apply not_elem_of_cons in Hs as [Hc Hs].
  destruct (N.eqb_spec c sep) as [->|_]; [done|]. by rewrite IH.
Qed.

Lemma trimStart_id c s : is_white_space c = false → trimStart (c :: s) = c :: s.
Proof. intros H. simpl. by rewrite H. Qed.

Lemma trim_id c s d :
  is_white_space c = false → is_white_space d = false →
  trim (c :: s ++ [d]) = c :: s ++ [d].
Proof.
  intros Hc Hd. unfold trim, trimEnd. rewrite (trimStart_id c _ Hc).
  change (c :: s ++ [d]) with ((c :: s) ++ [d]).
  rewrite rev_unit, (trimStart_id d _ Hd).
  change (d :: rev (c :: s)) with ([d] ++ rev (c :: s)).
  by rewrite rev_app_distr, rev_involutive.
Qed.

Lemma trim_nil : trim [] = [].
Proof. reflexivity. Qed.

Lemma trimStart_snoc s d :
  is_white_space d = false → ∃ s', trimStart (s ++ [d]) = s' ++ [d].
Proof.
  intros Hd. induction s as [|c s IH]; cbn [app trimStart].
  - rewrite Hd. by exists [].
  - destruct (is_white_space c); [done|]. by exists (c :: s).
Qed.

Lemma trimStart_idem s : trimStart (trimStart s) = trimStart s.
Proof.
  induction s as [|c r IH]; [done|]. cbn [trimStart].
  destruct (is_white_space c) eqn:E; [done|]. cbn [trimStart]. by rewrite E.
Qed.

Lemma trimStart_head s :
  trimStart s = [] ∨ ∃ c r, trimStart s = c :: r ∧ is_white_space c = false.
Proof.
  induction s as [|c r IH]; [by left|]. cbn [trimStart].
  destruct (is_white_space c) eqn:E; [done|]. right. by exists c, r.
Qed.

Lemma trimEnd_idem s : trimEnd (trimEnd s) = trimEnd s.
Proof. unfold trimEnd. by rewrite rev_involutive, trimStart_idem. Qed.

Lemma trimEnd_head c r :
  is_white_space c = false → ∃ r', trimEnd (c :: r) = c :: r'.
Proof.
  intros Hc. unfold trimEnd. cbn [rev].
  destruct (trimStart_snoc (rev r) c Hc) as [s' ->].
  rewrite rev_unit. by exists (rev s').
Qed.

Lemma trim_idem s : trim (trim s) = trim s.
Proof.
  unfold trim. destruct (trimStart_head s) as [->|(c & r & -> & Hc)]; [done|].
  destruct (trimEnd_head c r Hc) as [r' E]. rewrite E.
  rewrite trimStart_id by done. rewrite <- E. apply trimEnd_idem.
Qed.

Lemma list_pair_ind (P : jsstring → Prop) :
  P [] → (∀ c, P [c]) → (∀ c d u, P u → P (d :: u) → P (c :: d :: u)) →
  ∀ u, P u.
Proof.
  intros Hnil Hone Hstep u.
  assert (P u ∧ ∀ c, P (c :: u)) as [H _]; [|done].
  induction u as [|d u [IH1 IH2]]; [by split|].
  split; [apply IH2|]. intros c. apply Hstep; [done|apply IH2].
Qed.

Lemma replace_pair_cons2 a b X c d s :
  replace_pair a b X (c :: d :: s)
  = if (c =? a) && (d =? b) then X :: replace_pair a b X s
    else c :: replace_pair a b X (d :: s).
Proof. reflexivity. Qed.

Lemma replace_char_app c by_ s r :
  replace_char c by_ (s ++ r) = replace_char c by_ s ++ replace_char c by_ r.
Proof.
  induction s as [|x s IH]; simpl; [done|].
  destruct (x =? c); rewrite IH; [by rewrite app_assoc|done].
Qed.

(** *** Decimal digits *)

Lemma digits_value_snoc ds d :
  digits_value (ds ++ [d]) = 10 * digits_value ds + (d - DIGIT_0).
Proof. unfold digits_value. by rewrite fold_left_app. Qed.

Lemma digits_fuel_value f n :
  n < 2 ^ N.of_nat f → digits_value (digits_fuel f n) = n.
Proof.
  revert n. induction f as [|f IH]; intros n Hn.
  - simpl in *. assert (n = 0) as -> by lia. reflexivity.
  - cbn [digits_fuel]. destruct (N.ltb_spec n 10) as [Hlt|Hge].
    + unfold digits_value, DIGIT_0. simpl. lia.
    + rewrite digits_value_snoc, IH.
      * unfold DIGIT_0. rewrite (N.add_comm 48), N.add_sub.
        symmetry. apply N.Div0.div_mod.
      * rewrite Nat2N.inj_succ, N.pow_succ_r' in Hn.
        apply N.Div0.div_lt_upper_bound. lia.
Qed.

Lemma digits_value_digits n : digits_value (digits n) = n.
Proof.
  unfold digits. apply digits_fuel_value. rewrite N2Nat.id. apply N.size_gt.
Qed.

Lemma digits_fuel_Forall f n : Forall (fun d => is_digit d = true) (digits_fuel f n).
Proof.
  assert (∀ k, k < 10 → is_digit (DIGIT_0 + k) = true) as Hk.
  { intros k Hk. unfold is_digit, DIGIT_0.
    apply andb_true_iff. split; apply N.leb_le; lia. }
  revert n. induction f as [|f IH]; intros n; cbn [digits_fuel].
  - repeat constructor. apply Hk. by apply N.mod_lt.
  - destruct (N.ltb_spec n 10).
    + repeat constructor. by apply Hk.
    + apply Forall_app. split; [apply IH|].
      repeat constructor. apply Hk. by apply N.mod_lt.
Qed.

Lemma digits_fuel_snoc f n : ∃ ds d, digits_fuel f n = ds ++ [d].
Proof.
  destruct f; cbn [digits_fuel].
  - by exists [], (DIGIT_0 + n mod 10).
  - destruct (n <? 10); [by exists [], (DIGIT_0 + n)|]. eauto.
Qed.

Lemma take_digits_all ds :
  Forall (fun d => is_digit d = true) ds → take_digits ds = ds.
Proof.
  induction 1 as [|d ds Hd _ IH]; simpl; [done|]. by rewrite Hd, IH.
Qed.

Lemma is_digit_facts d :
  is_digit d = true →
  is_white_space d = false ∧ d ≠ TAB ∧ d ≠ LF ∧ d ≠ MINUS ∧ d ≠ PLUS.
Proof.
  unfold is_digit, TAB, LF, MINUS, PLUS. intros [H1 H2]%andb_true_iff.
  apply N.leb_le in H1. apply N.leb_le in H2.
  repeat split; try lia.
  unfold is_white_space.
  repeat (apply orb_false_iff; split); try (apply N.eqb_neq; lia).
  apply andb_false_iff. left. apply N.leb_gt. lia.
Qed.

Lemma parseInt_digits n : parseInt (digits n) = Some (Z.of_N n).
Proof.
  pose proof (digits_fuel_Forall (N.to_nat (N.size n)) n) as Hall.
  pose proof (digits_value_digits n) as Hval.
  unfold digits in *.
  destruct (digits_fuel (N.to_nat (N.size n)) n) as [|d ds] eqn:E.
  { destruct (digits_fuel_snoc (N.to_nat (N.size n)) n) as (a & b & Hab).
    rewrite E in Hab. by destruct a. }
  pose proof (Forall_inv Hall) as Hd.
  destruct (is_digit_facts d Hd) as (Hws & _ & _ & Hm & Hp).
  unfold parseInt. rewrite (trimStart_id d ds Hws).
  destruct (N.eqb_spec d MINUS); [done|]. destruct (N.eqb_spec d PLUS); [done|].
  rewrite (take_digits_all _ Hall), Hval. reflexivity.
Qed.

Lemma parseInt_number_to_string z : parseInt (number_to_string z) = Some z.
Proof.
  unfold number_to_string. destruct (Z.ltb_spec z 0) as [Hneg|Hpos].
  - pose proof (digits_fuel_Forall (N.to_nat (N.size (Z.to_N (- z)))) (Z.to_N (- z))) as Hall.
    pose proof (digits_value_digits (Z.to_N (- z))) as Hval.
    unfold digits in *.
    destruct (digits_fuel _ (Z.to_N (- z))) as [|d ds] eqn:E.
    { destruct (digits_fuel_snoc (N.to_nat (N.size (Z.to_N (- z)))) (Z.to_N (- z)))
        as (a & b & Hab).
      rewrite E in Hab. by destruct a. }
    unfold parseInt. rewrite trimStart_id by reflexivity.
    rewrite N.eqb_refl, (take_digits_all _ Hall), Hval.
    f_equal. lia.
  - rewrite parseInt_digits. f_equal. lia.
Qed.

Lemma number_to_string_chars z :
  Forall (fun c => c = MINUS ∨ is_digit c = true) (number_to_string z).
Proof.
  unfold number_to_string, digits.
  destruct (z <? 0)%Z; [constructor; [by left|]|];
    (eapply Forall_impl; [apply digits_fuel_Forall|]); by right.
Qed.

Lemma number_to_string_no_sep z :
  (TAB ∉ number_to_string z) ∧ (LF ∉ number_to_string z).
Proof.
  pose proof (number_to_string_chars z) as H. rewrite Forall_forall in H.
  split; intros Hin; destruct (H _ Hin) as [?|Hd]; try done;
    by destruct (is_digit_facts _ Hd) as (_ & ? & ? & _).
Qed.

Lemma number_to_string_snoc z :
  ∃ pre d, number_to_string z = pre ++ [d] ∧ is_white_space d = false.
Proof.
  assert (∀ n, ∃ pre d, digits n = pre ++ [d] ∧ is_white_space d = false) as Hn.
  { intros n. unfold digits.
    destruct (digits_fuel_snoc (N.to_nat (N.size n)) n) as (pre & d & E).
    exists pre, d. split; [done|].
    pose proof (digits_fuel_Forall (N.to_nat (N.size n)) n) as Hall.
    rewrite E, Forall_app, Forall_singleton in Hall.
    by destruct (is_digit_facts d (proj2 Hall)). }
  unfold number_to_string. destruct (z <? 0)%Z; [|apply Hn].
  destruct (Hn (Z.to_N (- z))) as (pre & d & -> & Hd).
  by exists (MINUS :: pre), d.
Qed.
End JSFacts.

(** ** TSV export and import *)
Section TsvFacts.
Import JS Store Tsv.
Implicit Types (u s : jsstring) (r : VisitRecord).

(** *** Escaping and unescaping *)

Ltac notin :=
  cbn; repeat (apply not_elem_of_cons; split; [by intros [=]|]);
  apply not_elem_of_nil.

Lemma escape_url_cons c u :
  escape_url (c :: u) = escape_char escapes c ++ escape_url u.
Proof.
  unfold escape_url, escapes, TAB, LF, CR, BACKSLASH, LETTER_t, LETTER_n, LETTER_r.
  cbn [replace_char escape_char].
  destruct (N.eqb_spec c 9) as [->|H9]; [reflexivity|].
  cbn [replace_char].
  destruct (N.eqb_spec c 10) as [->|H10]; [reflexivity|].
  cbn [replace_char].
  destruct (N.eqb_spec c 13) as [->|H13]; reflexivity.
Qed.

Lemma escape_url_one_pass u : escape_url u = escape_with escapes u.
Proof.
  induction u as [|c u IH]; [done|]. by rewrite escape_url_cons, IH.
Qed.

Lemma escape_char_shape table c :
  escape_char table c = [c]
  ∨ ∃ e, e ∈ table.*2 ∧ escape_char table c = [BACKSLASH; e].
Proof.
  induction table as [|[k e] t IH]; simpl; [by left|].
  destruct (c =? k).
  - right. exists e. split; [left|done].
  - destruct IH as [?|(e' & ? & ?)]; [by left|].
    right. exists e'. split; [by right|done].
Qed.

Lemma escape_char_not_key table c :
  c ∉ table.*1 → escape_char table c = [c].
Proof.
  induction table as [|[k e] t IH]; simpl; [done|].
  intros [Hk Ht]%not_elem_of_cons.
  destruct (N.eqb_spec c k); [done|]. by apply IH.
Qed.

Lemma escape_with_nil_table u : escape_with [] u = u.
Proof. induction u as [|c u IH]; simpl; by rewrite ?IH. Qed.

Lemma replace_pair_match a b x s :
  replace_pair a b x (a :: b :: s) = x :: replace_pair a b x s.
Proof. simpl. by rewrite !N.eqb_refl. Qed.

Lemma replace_pair_skip a b x c s :
  c ≠ a ∨ head s ≠ Some b →
  replace_pair a b x (c :: s) = c :: replace_pair a b x s.
Proof.
  intros H. destruct s as [|d s]; [done|]. cbn [replace_pair].
  destruct (N.eqb_spec c a) as [->|]; [|done].
  destruct (N.eqb_spec d b) as [->|]; [|done].
  by destruct H.
Qed.

Lemma no_pair_tail a b c s : no_pair a b (c :: s) = true → no_pair a b s = true.
Proof.
  destruct s as [|d s]; [done|]. cbn [no_pair].
  by intros [_ ?]%andb_true_iff.
Qed.

(** One pass of the unescaping undoes the escape of its own character
    and leaves the other escapes alone. *)
Lemma replace_pair_escape_with X x table u :
  x ≠ BACKSLASH → X ∉ table.*1 →
  Forall (fun e => e ≠ x ∧ e ≠ BACKSLASH) table.*2 →
  no_pair BACKSLASH x u = true →
  replace_pair BACKSLASH x X (escape_with ((X, x) :: table) u)
  = escape_with table u.
Proof.
  intros Hx HX Htable. rewrite Forall_forall in Htable.
  induction u as [|c u IH]; intros Hu; [done|].
  specialize (IH (no_pair_tail _ _ _ _ Hu)).
  cbn [escape_with escape_char].
  destruct (N.eqb_spec c X) as [->|HcX].
  - cbn [app]. by rewrite replace_pair_match, IH, (escape_char_not_key _ _ HX).
  - destruct (escape_char_shape table c) as [E|(e & He & E)]; rewrite E.
    + cbn [app]. rewrite replace_pair_skip, IH; [done|].
      destruct (decide (c = BACKSLASH)) as [->|]; [right|by left].
      destruct u as [|d u]; [done|].
      cbn [escape_with escape_char].
      assert (d ≠ x) as Hd.
      { cbn [no_pair] in Hu. apply andb_true_iff in Hu as [Hu _].
        rewrite N.eqb_refl in Hu. simpl in Hu.
        by destruct (N.eqb_spec d x). }
      destruct (d =? X); [simpl; congruence|].
      destruct (escape_char_shape table d) as [E'|(e' & _ & E')]; rewrite E';
        simpl; congruence.
    + destruct (Htable _ He) as [Hex HeB]. cbn [app].
      rewrite replace_pair_skip.
      * rewrite replace_pair_skip, IH; [done|by left].
      * right. simpl. congruence.
Qed.

Lemma unescape_escape u :
  no_escape_sequence u = true → unescape_url (escape_url u) = u.
Proof.
  unfold no_escape_sequence. intros [[Ht Hn]%andb_true_iff Hr]%andb_true_iff.
  unfold unescape_url. rewrite escape_url_one_pass. unfold escapes.
  rewrite replace_pair_escape_with; [|done|notin|repeat constructor; done|done].
  rewrite replace_pair_escape_with; [|done|notin|repeat constructor; done|done].
  rewrite replace_pair_escape_with; [|done|notin|repeat constructor; done|done].
  apply escape_with_nil_table.
Qed.

Lemma escape_url_no_sep u : (TAB ∉ escape_url u) ∧ (LF ∉ escape_url u).
Proof.
  induction u as [|c u [IHt IHl]]; [split; apply not_elem_of_nil|].
  rewrite escape_url_cons. unfold escapes. cbn [escape_char].
  rewrite !not_elem_of_app.
  destruct (N.eqb_spec c TAB); [repeat split; (notin || done)|].
  destruct (N.eqb_spec c LF); [repeat split; (notin || done)|].
  destruct (N.eqb_spec c CR); [repeat split; (notin || done)|].
  repeat split; try done;
    (apply not_elem_of_cons; split; [congruence|apply not_elem_of_nil]).
Qed.

Lemma escape_url_head u :
  leading_ok u = true →
  ∃ c rest, escape_url u = c :: rest ∧ is_white_space c = false.
Proof.
  destruct u as [|c u]; [done|]. cbn [leading_ok]. intros H.
  rewrite escape_url_cons. unfold escapes. cbn [escape_char].
  destruct (N.eqb_spec c TAB); [by eexists _, _|].
  destruct (N.eqb_spec c LF); [by eexists _, _|].
  destruct (N.eqb_spec c CR); [by eexists _, _|].
  simpl in H. eexists _, _. split; [reflexivity|]. by destruct (is_white_space c).
Qed.

(** *** One exported line *)

Lemma record_line_no_LF r : LF ∉ record_line r.
Proof.
  unfold record_line. rewrite !not_elem_of_app. repeat split.
  - apply escape_url_no_sep.
  - notin.
  - apply number_to_string_no_sep.
Qed.

Lemma record_line_split r :
  split TAB (record_line r)
  = [escape_url (url r); number_to_string (timestamp r)].
Proof.
  unfold record_line. cbn [app].
  rewrite split_app_sep by apply escape_url_no_sep.
  by rewrite split_no_sep by apply number_to_string_no_sep.
Qed.

Lemma record_line_trim r :
  leading_ok (url r) = true →
  trim (record_line r) = record_line r ∧ is_empty (record_line r) = false.
Proof.
  intros H. unfold record_line.
  destruct (escape_url_head _ H) as (c & rest & -> & Hc).
  destruct (number_to_string_snoc (timestamp r)) as (pre & d & -> & Hd).
  split; [|done].
  replace ((c :: rest) ++ [TAB] ++ pre ++ [d])
    with (c :: (rest ++ [TAB] ++ pre) ++ [d])
    by (cbn [app]; by rewrite <- !app_assoc).
  by apply trim_id.
Qed.

Lemma import_line_record_line {DB} (put : DB → VisitRecord → option DB) st r :
  exportable r →
  import_line put st (record_line r) = apply_class put st (Valid r).
Proof.
  intros (Hlead & Hesc & _). unfold import_line.
  destruct (record_line_trim r Hlead) as [-> ->].
  rewrite record_line_split. cbn [length Nat.ltb Nat.leb part nth].
  rewrite (unescape_escape _ Hesc), parseInt_number_to_string.
  destruct r as [u ts]. cbn [url timestamp] in *.
  destruct u; [done|]. reflexivity.
Qed.

(** *** The exported text *)

Lemma exportHistoryToTSV_lines allUrls :
  exportHistoryToTSV allUrls
  = TSV_HEADER ++ concat (map (fun r => record_line r ++ [LF]) allUrls).
Proof.
  unfold exportHistoryToTSV. generalize TSV_HEADER as acc.
  induction allUrls as [|r l IH]; intros acc; cbn [fold_left map concat].
  - by rewrite app_nil_r.
  - rewrite IH. unfold record_line. by rewrite <- !app_assoc.
Qed.

Lemma split_record_lines l :
  split LF (concat (map (fun r => record_line r ++ [LF]) l))
  = map record_line l ++ [[]].
Proof.
  induction l as [|r l IH]; [done|]. cbn [map concat app].
  rewrite <- app_assoc. cbn [app].
  by rewrite split_app_sep, IH by apply record_line_no_LF.
Qed.

Lemma split_export allUrls :
  drop 1 (split LF (exportHistoryToTSV allUrls)) = map record_line allUrls ++ [[]].
Proof.
  rewrite exportHistoryToTSV_lines.
  change TSV_HEADER with ((lit "url" ++ [TAB] ++ lit "timestamp") ++ [LF]).
  rewrite <- app_assoc. cbn [app].
  rewrite split_app_sep by (vm_compute; notin).
  by rewrite split_record_lines.
Qed.

(** *** The import loop over exported lines *)

Lemma import_exported_lines {DB} (put : DB → VisitRecord → option DB) l st :
  Forall exportable l →
  fold_left (import_line put) (map record_line l ++ [[]]) st
  = fold_left (fun acc x => apply_class put acc (Valid x)) l st.
Proof.
  intros H. revert st.
  induction H as [|r l Hr _ IH]; intros st; [done|].
  cbn [map app fold_left]. by rewrite import_line_record_line, IH.
Qed.

Lemma import_valid_mem l (st : ImportState) :
  fold_left (fun acc x => apply_class mem_put acc (Valid x)) l st
  = {| store := fold_left store_put l (store st);
       imported := imported st + length l;
       errors := errors st |}.
Proof.
  revert st. induction l as [|r l IH]; intros st; cbn [fold_left length].
  - destruct st. cbn. f_equal. lia.
  - rewrite IH. cbn. f_equal. lia.
Qed.

Lemma fold_store_put l :
  fold_left store_put l (∅ : Store) = list_to_map (rev (record_pair <$> l)).
Proof.
  induction l as [|r l IH] using rev_ind; [done|].
  rewrite fold_left_app, fmap_app, rev_app_distr. cbn. by rewrite IH.
Qed.

(** X2. Export and import back into the empty store give the store
    itself, with every record counted as imported and no error, when
    each URL is not empty, starts with no white space other than a tab,
    a line feed or a carriage return, and holds no backslash followed
    by t, n or r. Tabs, line feeds and carriage returns in URLs are
    allowed; the order in which the records are listed is free. *)
Lemma export_import_roundtrip (m : Store) allUrls :
  record_pair <$> allUrls ≡ₚ map_to_list m →
  Forall exportable allUrls →
  export_then_import allUrls
  = {| store := m; imported := length allUrls; errors := 0 |}.
Proof.
  intros Hm Hall. unfold export_then_import, importHistoryFromTSV.
  rewrite split_export, (import_exported_lines _ _ _ Hall), import_valid_mem.
  cbn. f_equal. rewrite fold_store_put. symmetry. apply list_to_map_flip.
  rewrite <- Hm. apply Permutation_rev.
Qed.

(** The round trip at a URL with a tab, a line feed and a carriage
    return. *)
Lemma export_import_roundtrip_witness :
  export_then_import [control_chars_record]
  = {| store := {[ url control_chars_record := timestamp control_chars_record ]};
       imported := 1; errors := 0 |}.
Proof.
  apply (export_import_roundtrip
           {[ url control_chars_record := timestamp control_chars_record ]}
           [control_chars_record]).
  - by rewrite map_to_list_singleton.
  - repeat constructor.
Defined.
End TsvFacts.

(** ** The import loop and the escaping *)
Section TsvClaims.
Import JS Store Tsv.

Lemma import_line_classify {DB} (put : DB → VisitRecord → option DB) st raw :
  import_line put st raw = apply_class put st (classify raw).
Proof.
  unfold import_line, classify, fewer_than_two_fields, timestamp_unparseable,
    url_empty.
  destruct (is_empty (trim raw)); [done|].
  destruct (length (split TAB (trim raw)) <? 2)%nat; [done|].
  cbn [orb].
  destruct (parseInt (part (split TAB (trim raw)) 1)) as [ts|];
    destruct (is_empty (unescape_url (part (split TAB (trim raw)) 0))); done.
Qed.

(** A write that fails is counted as an error, whatever the line. *)
Lemma import_line_put_fails {DB} (put : DB → VisitRecord → option DB) st raw r :
  classify raw = Valid r → put (store st) r = None →
  import_line put st raw
  = {| store := store st; imported := imported st; errors := S (errors st) |}.
Proof. intros Hc Hp. rewrite import_line_classify, Hc. cbn. by rewrite Hp. Qed.

(** C3 at a URL with a backslash followed by t: export writes the two
    characters as they are, import reads them as an escaped tab, and
    the store that comes back holds another URL. *)
Theorem export_import_backslash_t :
  exportHistoryToTSV [backslash_t_record]
  = TSV_HEADER ++ lit "https://x/?q=\t" ++ [TAB] ++ lit "5" ++ [LF]
  ∧ export_then_import [backslash_t_record]
    = {| store := {[ lit "https://x/?q=" ++ [TAB] := 5%Z ]};
         imported := 1; errors := 0 |}
  ∧ store (export_then_import [backslash_t_record]) !! url backslash_t_record
    = None
  ∧ store (export_then_import [backslash_t_record])
    ≠ {[ url backslash_t_record := timestamp backslash_t_record ]}.
Proof.
  split; [reflexivity|]. split; [vm_compute; reflexivity|].
  split; [vm_compute; reflexivity|].
  intros H. apply (f_equal (fun m => m !! url backslash_t_record)) in H.
  vm_compute in H. discriminate.
Qed.
End TsvClaims.

(** ** The query cache *)
Section ContentFacts.
Import JS Content.
Variable url_parse : jsstring → option jsstring.

Local Abbreviation normalizeUrl := (normalizeUrl url_parse).
Local Abbreviation checkUrlVisited := (checkUrlVisited url_parse).
Local Abbreviation checkUrlsBatch := (checkUrlsBatch url_parse).
Local Abbreviation step := (step url_parse).
Local Abbreviation run := (run url_parse).

Implicit Types (s : Session) (u url : jsstring) (q : Query) (env : Env).

(** *** Counting outstanding queries *)

Lemma count_nil P : count P [] = 0%nat.
Proof. reflexivity. Qed.

Lemma count_app P l1 l2 : count P (l1 ++ l2) = (count P l1 + count P l2)%nat.
Proof. unfold count. by rewrite filter_app, length_app. Qed.

Lemma count_cons P q l :
  count P (q :: l) = ((if P q then 1 else 0) + count P l)%nat.
Proof.
  unfold count. destruct (P q) eqn:E.
  - by rewrite filter_cons_True.
  - rewrite filter_cons_False; [done|]. by rewrite E.
Qed.

Lemma count_delete P l i q :
  l !! i = Some q →
  count P l = ((if P q then 1 else 0) + count P (delete i l))%nat.
Proof.
  intros H. rewrite <- (take_drop_middle l i q H) at 1.
  rewrite delete_take_drop, !count_app, count_cons. lia.
Qed.

Lemma count_pos P l q : q ∈ l → P q = true → (0 < count P l)%nat.
Proof.
  intros [i Hi]%list_elem_of_lookup HP.
  rewrite (count_delete P l i q Hi), HP. lia.
Qed.

Lemma count_pos_inv P l : (0 < count P l)%nat → ∃ q, q ∈ l ∧ P q = true.
Proof.
  induction l as [|q l IH]; [by cbn; lia|].
  rewrite count_cons. destruct (P q) eqn:E.
  - intros _. exists q. split; [left|done].
  - intros H. destruct IH as (q' & ? & ?); [lia|].
    exists q'. split; [by right|done].
Qed.

Lemma is_checkUrl_true u q : is_checkUrl u q = true ↔ ∃ p, q = CheckUrl u p.
Proof.
  destruct q as [v p|]; simpl.
  - rewrite bool_decide_eq_true. split; [intros ->; eauto|by intros [? [= ->]]].
  - split; [done|by intros [? ?]].
Qed.

(** *** The invariant of the pending map *)

Lemma pending_inv_none s u :
  pending_inv s → pendingChecks s !! u = None →
  count (is_checkUrl u) (outstanding s) = 0%nat.
Proof.
  intros [_ Hp] Hnone.
  destruct (count (is_checkUrl u) (outstanding s)) eqn:E; [done|].
  destruct (count_pos_inv (is_checkUrl u) (outstanding s)) as (q & Hq & HP); [lia|].
  apply is_checkUrl_true in HP as [p ->]. apply Hp in Hq. congruence.
Qed.

Lemma pending_inv_init : pending_inv session0.
Proof. split; [intros u; cbn; lia|]. intros u p H. by apply elem_of_nil in H. Qed.

Lemma pending_inv_checkUrlVisited env url s :
  pending_inv s → pending_inv (fst (checkUrlVisited env url s)).
Proof.
  intros Hinv. unfold Content.checkUrlVisited.
  destruct (urlCache s !! normalizeUrl url); [done|].
  destruct (pendingChecks s !! normalizeUrl url) eqn:Hpend; [done|].
  pose proof (pending_inv_none _ _ Hinv Hpend) as H0.
  destruct Hinv as [Hc Hp]. cbn [fst].
  assert (∀ u p, CheckUrl u p ∈ outstanding s → u ≠ normalizeUrl url) as Hne.
  { intros u p Hin ->. apply Hp in Hin. congruence. }
  destruct (negb (context_valid env) || send_throws env) eqn:Hfail.
  - assert ((if negb (context_valid env)
             then resolve (next_promise s) (VBool false)
                    (pending_delete (normalizeUrl url) s)
             else if send_throws env
                  then resolve (next_promise s) (VBool false)
                         (pending_delete (normalizeUrl url) s)
                  else sendMessage (CheckUrl (normalizeUrl url) (next_promise s)) s)
            = resolve (next_promise s) (VBool false)
                (pending_delete (normalizeUrl url) s)) as ->.
    { destruct (context_valid env), (send_throws env); done. }
    split; [done|]. cbn [outstanding pendingChecks pending_set new_promise resolve pending_delete].
    intros u p Hin.
    rewrite lookup_insert_ne by (intros <-; by eapply Hne).
    rewrite lookup_delete_ne by (intros <-; by eapply Hne). by apply Hp.
  - apply orb_false_iff in Hfail as [Hv Ht]. rewrite Hv, Ht.
    split; cbn [outstanding pendingChecks pending_set new_promise sendMessage].
    + intros u. rewrite count_app, count_cons, count_nil. cbn [is_checkUrl].
      destruct (decide (normalizeUrl url = u)) as [<-|Hu].
      * rewrite H0. rewrite bool_decide_true by done. cbn. lia.
      * rewrite bool_decide_false by done. specialize (Hc u). cbn. lia.
    + intros u p [Hin|Hin%list_elem_of_singleton]%elem_of_app.
      * rewrite lookup_insert_ne by (intros <-; by eapply Hne). by apply Hp.
      * injection Hin as -> ->. by rewrite lookup_insert_eq.
Qed.

Lemma checkUrlsBatch_effect env urls s :
  let uniqueUrls := array_to_set (map normalizeUrl urls) in
  let uncachedUrls := filter (fun u => urlCache s !! u = None) uniqueUrls in
  let s' := fst (checkUrlsBatch env urls s) in
  urlCache s' = urlCache s ∧ pendingChecks s' = pendingChecks s
  ∧ (outstanding s' = outstanding s
     ∨ outstanding s'
       = outstanding s ++ [CheckUrls uncachedUrls uniqueUrls (next_promise s)]).
Proof.
  cbv zeta. unfold Content.checkUrlsBatch.
  destruct (filter _ (array_to_set _)); [by auto|].
  destruct (context_valid env), (send_throws env); cbn; auto.
Qed.

Lemma pending_inv_checkUrlsBatch env urls s :
  pending_inv s → pending_inv (fst (checkUrlsBatch env urls s)).
Proof.
  intros [Hc Hp].
  destruct (checkUrlsBatch_effect env urls s) as (_ & Hpend & [Ho|Ho]);
    unfold pending_inv; rewrite Hpend, Ho; [done|]. split.
  - intros u. rewrite count_app, count_cons, count_nil. cbn [is_checkUrl].
    specialize (Hc u). lia.
  - intros u p [Hin|Hin%list_elem_of_singleton]%elem_of_app; [by apply Hp|done].
Qed.

Lemma cache_fold_outstanding results s :
  outstanding (fold_left (fun acc r => cache_set r.1 r.2 acc) results s)
  = outstanding s
  ∧ pendingChecks (fold_left (fun acc r => cache_set r.1 r.2 acc) results s)
    = pendingChecks s.
Proof.
  revert s. induction results as [|r l IH]; intros s; [done|].
  cbn [fold_left]. by destruct (IH (cache_set r.1 r.2 s)) as [-> ->].
Qed.

Lemma pending_inv_step s ev : pending_inv s → pending_inv (step s ev).
Proof.
  intros Hinv. destruct ev as [env url|env urls|url|i lastError r1 r2]; cbn [Content.step].
  - by apply pending_inv_checkUrlVisited.
  - by apply pending_inv_checkUrlsBatch.
  - done.
  - destruct (outstanding s !! i) as [[u p|unc uniq p]|] eqn:Hi; [| |done].
    + destruct Hinv as [Hc Hp].
      assert (count (is_checkUrl u) (delete i (outstanding s)) = 0%nat) as H0.
      { pose proof (count_delete (is_checkUrl u) _ _ _ Hi) as H.
        cbn [is_checkUrl] in H. rewrite bool_decide_true in H by done.
        specialize (Hc u). lia. }
      assert (outstanding (checkUrl_callback u p lastError r1 (callback_runs i s))
              = delete i (outstanding s)) as Ho.
      { unfold checkUrl_callback. by destruct lastError. }
      assert (pendingChecks (checkUrl_callback u p lastError r1 (callback_runs i s))
              = delete u (pendingChecks s)) as Hpe.
      { unfold checkUrl_callback. by destruct lastError. }
      split; rewrite Ho.
      * intros v. pose proof (count_delete (is_checkUrl v) _ _ _ Hi). specialize (Hc v). lia.
      * intros v p' Hin. rewrite Hpe.
        assert (v ≠ u) as Hne.
        { intros ->. pose proof (count_pos (is_checkUrl u) _ _ Hin) as Hpos.
          cbn [is_checkUrl] in Hpos. rewrite bool_decide_true in Hpos by done.
          specialize (Hpos eq_refl). lia. }
        rewrite lookup_delete_ne by done. apply Hp.
        by eapply list_elem_of_delete_inv.
    + destruct Hinv as [Hc Hp].
      assert (outstanding (checkUrls_callback uniq p lastError r2 (callback_runs i s))
              = delete i (outstanding s)
              ∧ pendingChecks (checkUrls_callback uniq p lastError r2 (callback_runs i s))
                = pendingChecks s) as [Ho Hpe].
      { unfold checkUrls_callback. destruct lastError; [done|].
        destruct r2 as [results|]; [|done]. cbn.
        apply (cache_fold_outstanding results (callback_runs i s)). }
      split; rewrite Ho.
      * intros v. pose proof (count_delete (is_checkUrl v) _ _ _ Hi). specialize (Hc v). lia.
      * intros v p' Hin. rewrite Hpe. apply Hp.
        by eapply list_elem_of_delete_inv.
Qed.

Lemma pending_inv_run evs : pending_inv (run evs).
Proof.
  unfold Content.run. generalize pending_inv_init. generalize session0 as s.
  induction evs as [|ev evs IH]; intros s Hs; [done|].
  cbn [fold_left]. apply IH. by apply pending_inv_step.
Qed.
Lemma lookup_sent (qs : list Query) q : (qs ++ [q]) !! length qs = Some q.
Proof. by apply list_lookup_middle. Qed.

Lemma delete_sent (qs : list Query) q : delete (length qs) (qs ++ [q]) = qs.
Proof. by rewrite delete_middle, app_nil_r. Qed.

End ContentFacts.

(** ** The claims about the query cache *)
Section ContentClaims.
Import JS Content.
Variable url_parse : jsstring → option jsstring.

Local Abbreviation normalizeUrl := (normalizeUrl url_parse).
Local Abbreviation checkUrlVisited := (checkUrlVisited url_parse).
Local Abbreviation checkUrlsBatch := (checkUrlsBatch url_parse).
Local Abbreviation run := (run url_parse).

Implicit Types (s : Session) (u url : jsstring) (q : Query) (env : Env).

(** A [checkUrlVisited] call on a URL whose [checkUrl] message is
    outstanding sends nothing and follows that message's promise, or
    returns the value the cache has got in the meantime. *)
Lemma checkUrlVisited_attaches s env url p :
  pending_inv s →
  CheckUrl (normalizeUrl url) p ∈ outstanding s →
  checkUrlVisited env url s = (s, Later p)
  ∨ ∃ b, urlCache s !! normalizeUrl url = Some b
         ∧ checkUrlVisited env url s = (s, Now (VBool b)).
Proof.
  intros [_ Hp] Hin. apply Hp in Hin. unfold Content.checkUrlVisited.
  destruct (urlCache s !! normalizeUrl url) as [b|]; [right; eauto|].
  rewrite Hin. by left.
Qed.

(** A [checkUrlsBatch] call with an uncached URL, in a valid context,
    sends its own message, whatever [pendingChecks] holds. *)
Lemma checkUrlsBatch_sends env urls s :
  let uniqueUrls := array_to_set (map normalizeUrl urls) in
  let uncachedUrls := filter (fun u => urlCache s !! u = None) uniqueUrls in
  uncachedUrls ≠ [] → context_valid env = true → send_throws env = false →
  checkUrlsBatch env urls s
  = (new_promise (sendMessage (CheckUrls uncachedUrls uniqueUrls (next_promise s)) s),
     Later (next_promise s)).
Proof.
  cbv zeta. intros Hne Hv Ht. unfold Content.checkUrlsBatch.
  destruct (filter _ (array_to_set _)); [done|]. by rewrite Hv, Ht.
Qed.

(** C1, as the code has it. In every state a session reaches, each URL
    has at most one outstanding [checkUrl] message; a
    [checkUrlVisited] call for a URL whose message is outstanding
    leaves the state as it is and follows the promise of that message
    (or returns the cached value, if the cache has one by then). A
    [checkUrlsBatch] call does not look at [pendingChecks]: when one
    of its URLs is not cached and the context is valid, it sends a
    [checkUrls] message of its own. *)
Theorem checkUrl_single_outstanding evs :
  (∀ u, checkUrl_queries u (run evs) ≤ 1)%nat
  ∧ (∀ env url p,
        CheckUrl (normalizeUrl url) p ∈ outstanding (run evs) →
        checkUrlVisited env url (run evs) = (run evs, Later p)
        ∨ ∃ b, urlCache (run evs) !! normalizeUrl url = Some b
               ∧ checkUrlVisited env url (run evs) = (run evs, Now (VBool b)))
  ∧ (∀ env urls,
        let uniqueUrls := array_to_set (map normalizeUrl urls) in
        let uncachedUrls :=
          filter (fun u => urlCache (run evs) !! u = None) uniqueUrls in
        uncachedUrls ≠ [] → context_valid env = true → send_throws env = false →
        outstanding (fst (checkUrlsBatch env urls (run evs)))
        = outstanding (run evs)
          ++ [CheckUrls uncachedUrls uniqueUrls (next_promise (run evs))]).
Proof.
  pose proof (pending_inv_run url_parse evs) as Hinv. split; [|split].
  - apply Hinv.
  - intros env url p. by apply checkUrlVisited_attaches.
  - intros env urls uniqueUrls uncachedUrls Hne Hv Ht.
    by rewrite (checkUrlsBatch_sends env urls _ Hne Hv Ht).
Qed.

(** *** Failures of [checkUrlVisited] *)

(** A failure inside the executor: the promise is settled with
    [false], the cache gets no entry, nothing is sent, and the promise
    stays in [pendingChecks], because line 107 stores it after the
    executor deleted the key. Every later call for the URL follows
    that settled promise and sends nothing. *)
Lemma checkUrlVisited_executor_failure env url s :
  urlCache s !! normalizeUrl url = None →
  pendingChecks s !! normalizeUrl url = None →
  context_valid env = false ∨ send_throws env = true →
  ∃ s1, checkUrlVisited env url s = (s1, Later (next_promise s))
        ∧ settled s1 !! next_promise s = Some (VBool false)
        ∧ urlCache s1 = urlCache s
        ∧ outstanding s1 = outstanding s
        ∧ pendingChecks s1 !! normalizeUrl url = Some (next_promise s)
        ∧ ∀ env', checkUrlVisited env' url s1 = (s1, Later (next_promise s)).
Proof.
  intros Hc Hp Hfail. unfold Content.checkUrlVisited at 1. rewrite Hc, Hp.
  eexists. split; [reflexivity|].
  assert (∀ s1, s1 = pending_set (normalizeUrl url) (next_promise s)
                       (new_promise (resolve (next_promise s) (VBool false)
                                       (pending_delete (normalizeUrl url) s))) →
                settled s1 !! next_promise s = Some (VBool false)
                ∧ urlCache s1 = urlCache s ∧ outstanding s1 = outstanding s
                ∧ pendingChecks s1 !! normalizeUrl url = Some (next_promise s)
                ∧ ∀ env', checkUrlVisited env' url s1 = (s1, Later (next_promise s)))
    as H.
  { intros s1 ->. cbn. rewrite !lookup_insert_eq. repeat split.
    intros env'. unfold Content.checkUrlVisited. cbn.
    by rewrite Hc, lookup_insert_eq. }
  apply H. destruct Hfail as [Hv|Ht].
  - by rewrite Hv.
  - rewrite Ht. by destruct (context_valid env).
Qed.

(** A failure the transport reports to the callback: the promise is
    settled with [false], the cache gets no entry and the pending
    entry goes, so the next call in a valid context sends a new
    message. *)
Lemma checkUrlVisited_transport_error url s i p response :
  outstanding s !! i = Some (CheckUrl (normalizeUrl url) p) →
  urlCache s !! normalizeUrl url = None →
  let s1 := Content.step url_parse s (Reply i true response None) in
  settled s1 !! p = Some (VBool false)
  ∧ urlCache s1 = urlCache s
  ∧ pendingChecks s1 !! normalizeUrl url = None
  ∧ outstanding (fst (checkUrlVisited env_ok url s1))
    = outstanding s1 ++ [CheckUrl (normalizeUrl url) (next_promise s1)].
Proof.
  intros Hi Hc. cbv zeta. cbn [Content.step]. rewrite Hi.
  unfold checkUrl_callback. cbn [settled urlCache pendingChecks resolve
    pending_delete callback_runs].
  rewrite lookup_insert_eq, lookup_delete_eq. repeat split.
  unfold Content.checkUrlVisited.
  cbn [settled urlCache pendingChecks resolve pending_delete callback_runs
       context_valid send_throws env_ok negb outstanding next_promise].
  rewrite Hc, lookup_delete_eq. reflexivity.
Qed.

(** C9, as the code has it. A check of a URL with no cache entry and
    no pending entry, whose query fails. Whichever way it fails, the
    promise is settled with [false] and the cache map is left as it
    was. After a transport error the pending entry is gone too, and the
    next check in a working context sends a new [checkUrl] message with
    a promise of its own. After a failure inside the call (context
    invalidated, or [sendMessage] throwing), a later check made while
    the context is still invalidated or still throwing sends nothing
    and its promise is settled with [false], again without a cache
    entry. A cache entry is written by the callback of a reply that
    reports no error, with that reply's value. *)
Theorem checkUrlVisited_failure_not_cached env env' url s response :
  let u := normalizeUrl url in
  let p := next_promise s in
  let s1 := fst (checkUrlVisited env url s) in
  let reply lastError :=
    Content.step url_parse s1
      (Reply (length (outstanding s)) lastError response None) in
  urlCache s !! u = None → pendingChecks s !! u = None →
  snd (checkUrlVisited env url s) = Later p
  ∧ urlCache s1 = urlCache s
  ∧ (context_valid env = false ∨ send_throws env = true →
     settled s1 !! p = Some (VBool false)
     ∧ outstanding s1 = outstanding s
     ∧ (context_valid env' = false ∨ send_throws env' = true →
        ∃ p', snd (checkUrlVisited env' url s1) = Later p'
              ∧ settled (fst (checkUrlVisited env' url s1)) !! p'
                = Some (VBool false)
              ∧ urlCache (fst (checkUrlVisited env' url s1)) = urlCache s
              ∧ outstanding (fst (checkUrlVisited env' url s1))
                = outstanding s))
  ∧ (context_valid env = true → send_throws env = false →
     outstanding s1 = outstanding s ++ [CheckUrl u p]
     ∧ settled (reply true) !! p = Some (VBool false)
     ∧ urlCache (reply true) = urlCache s
     ∧ pendingChecks (reply true) !! u = None
     ∧ (context_valid env' = true → send_throws env' = false →
        snd (checkUrlVisited env' url (reply true))
        = Later (next_promise (reply true))
        ∧ next_promise (reply true) ≠ p
        ∧ outstanding (fst (checkUrlVisited env' url (reply true)))
          = outstanding s ++ [CheckUrl u (next_promise (reply true))])
     ∧ urlCache (reply false) = <[u := default false response]> (urlCache s)).
Proof.
  cbv zeta. intros Hc Hp.
  set (u := normalizeUrl url) in *. set (p := next_promise s).
  assert (checkUrlVisited env url s
          = (pending_set u p
               (new_promise
                  (if negb (context_valid env)
                   then resolve p (VBool false) (pending_delete u s)
                   else if send_throws env
                        then resolve p (VBool false) (pending_delete u s)
                        else sendMessage (CheckUrl u p) s)),
             Later p)) as E.
  { unfold Content.checkUrlVisited. fold u. by rewrite Hc, Hp. }
  rewrite E. cbn [fst snd]. split; [done|]. split.
  { by destruct (context_valid env), (send_throws env). }
  split.
  - intros Hfail.
    assert ((if negb (context_valid env)
             then resolve p (VBool false) (pending_delete u s)
             else if send_throws env
                  then resolve p (VBool false) (pending_delete u s)
                  else sendMessage (CheckUrl u p) s)
            = resolve p (VBool false) (pending_delete u s)) as ->.
    { destruct Hfail as [->| ->]; [done|]. by destruct (context_valid env). }
    cbn [settled outstanding pending_set new_promise resolve pending_delete].
    rewrite lookup_insert_eq. split; [done|]. split; [done|].
    intros _. exists p. unfold Content.checkUrlVisited. fold u.
    cbn [urlCache pendingChecks pending_set new_promise resolve pending_delete].
    rewrite Hc, lookup_insert_eq. cbn [fst snd].
    cbn [settled urlCache outstanding pending_set new_promise resolve
         pending_delete].
    by rewrite lookup_insert_eq.
  - intros Hv Ht. rewrite Hv, Ht. cbn [negb].
    cbn [outstanding pending_set new_promise sendMessage].
    split; [done|].
    assert (∀ lastError,
              Content.step url_parse
                (pending_set u p (new_promise (sendMessage (CheckUrl u p) s)))
                (Reply (length (outstanding s)) lastError response None)
              = checkUrl_callback u p lastError response
                  {| urlCache := urlCache s;
                     pendingChecks := <[u := p]> (pendingChecks s);
                     settled := settled s; outstanding := outstanding s;
                     next_promise := S p |}) as Hstep.
    { intros lastError.
      cbn [Content.step outstanding pending_set new_promise sendMessage].
      rewrite lookup_sent. unfold callback_runs. cbn. by rewrite delete_sent. }
    rewrite !Hstep. unfold checkUrl_callback.
    cbn [settled urlCache pendingChecks outstanding next_promise resolve
         pending_delete cache_set].
    rewrite lookup_insert_eq, lookup_delete_eq.
    split; [done|]. split; [done|]. split; [done|]. split; [|done].
    intros Hv' Ht'. unfold Content.checkUrlVisited. fold u.
    cbn [settled urlCache pendingChecks outstanding next_promise resolve
         pending_delete cache_set].
    rewrite Hc, lookup_delete_eq, Hv', Ht'. cbn [negb fst snd].
    cbn [outstanding pending_set new_promise sendMessage next_promise].
    repeat split. unfold p. lia.
Qed.

(** *** [checkUrlsBatch] *)

Lemma all_cached_lookup s (l : list jsstring) :
  filter (fun u => urlCache s !! u = None) l = [] →
  ∀ u, u ∈ l → is_Some (urlCache s !! u).
Proof.
  intros Hf u Hu. destruct (urlCache s !! u) eqn:E; [eauto|].
  assert (u ∈ filter (fun u => urlCache s !! u = None) l) as Hin.
  { by apply list_elem_of_filter. }
  rewrite Hf in Hin. by apply elem_of_nil in Hin.
Qed.

Lemma cache_fold_lookup results s u :
  u ∉ results.*1 →
  urlCache (fold_left (fun acc r => cache_set r.1 r.2 acc) results s) !! u
  = urlCache s !! u.
Proof.
  revert s. induction results as [|r l IH]; intros s Hu; [done|].
  cbn [fold_left]. apply not_elem_of_cons in Hu as [Hr Hl].
  rewrite IH by done. cbn. by rewrite lookup_insert_ne.
Qed.

(** C2, as the code has it. A cached URL is never part of the batched
    query. When every URL is cached the answer comes from the cache at
    once, and the session is left as it was: no message is sent. When the query fails, before it is sent or as reported to the
    callback, every requested distinct URL, cached or not, is reported
    [false], and the cache map is left as it was. When the query
    succeeds, a cached URL that the reply does not mention is reported
    with its cached value. *)
Theorem checkUrlsBatch_cache_and_failure env urls s :
  let uniqueUrls := array_to_set (map normalizeUrl urls) in
  let uncachedUrls := filter (fun u => urlCache s !! u = None) uniqueUrls in
  let p := next_promise s in
  let s' := fst (checkUrlsBatch env urls s) in
  (∀ u, u ∈ uncachedUrls ↔ u ∈ uniqueUrls ∧ urlCache s !! u = None)
  ∧ urlCache s' = urlCache s
  ∧ (outstanding s' = outstanding s
     ∨ outstanding s' = outstanding s ++ [CheckUrls uncachedUrls uniqueUrls p])
  ∧ (uncachedUrls = [] →
     snd (checkUrlsBatch env urls s)
     = Now (VResults (map (fun u => (u, default false (urlCache s !! u)))
                          uniqueUrls))
     ∧ (∀ u, u ∈ uniqueUrls → is_Some (urlCache s !! u))
     ∧ s' = s)
  ∧ (uncachedUrls ≠ [] →
     context_valid env = false ∨ send_throws env = true →
     snd (checkUrlsBatch env urls s) = Later p
     ∧ settled s' !! p = Some (all_false uniqueUrls)
     ∧ outstanding s' = outstanding s)
  ∧ (uncachedUrls ≠ [] →
     context_valid env = true → send_throws env = false →
     snd (checkUrlsBatch env urls s) = Later p
     ∧ outstanding s' = outstanding s ++ [CheckUrls uncachedUrls uniqueUrls p])
  ∧ (∀ s2 response,
        settled (checkUrls_callback uniqueUrls p true response s2) !! p
        = Some (all_false uniqueUrls)
        ∧ urlCache (checkUrls_callback uniqueUrls p true response s2)
          = urlCache s2)
  ∧ (∀ s2 response u b,
        u ∈ uniqueUrls → urlCache s2 !! u = Some b →
        u ∉ (default [] response).*1 →
        ∃ results,
          settled (checkUrls_callback uniqueUrls p false response s2) !! p
          = Some (VResults results)
          ∧ (u, b) ∈ results).
Proof.
  cbv zeta.
  set (uniqueUrls := array_to_set (map normalizeUrl urls)).
  set (uncachedUrls := filter (fun u => urlCache s !! u = None) uniqueUrls).
  destruct (checkUrlsBatch_effect url_parse env urls s) as (Hcache & _ & Hout).
  fold uniqueUrls uncachedUrls in Hout.
  split; [|split; [done|split; [done|]]].
  { intros u. unfold uncachedUrls. rewrite list_elem_of_filter. tauto. }
  split; [|split; [|split; [|split]]].
  - intros He. unfold Content.checkUrlsBatch. fold uniqueUrls uncachedUrls.
    rewrite He. split; [done|]. split; [by apply all_cached_lookup|done].
  - intros Hne Hfail. unfold Content.checkUrlsBatch. fold uniqueUrls uncachedUrls.
    destruct uncachedUrls; [done|].
    destruct Hfail as [Hv|Ht].
    + rewrite Hv. cbn. by rewrite lookup_insert_eq.
    + rewrite Ht. destruct (context_valid env); cbn; by rewrite lookup_insert_eq.
  - intros Hne Hv Ht.
    by rewrite (checkUrlsBatch_sends env urls s Hne Hv Ht).
  - intros s2 response. cbn. by rewrite lookup_insert_eq.
  - intros s2 response u b Hu Hb Hnot. unfold checkUrls_callback.
    eexists. split; [cbn [settled resolve]; by rewrite lookup_insert_eq|].
    apply list_elem_of_fmap. exists u. split; [|done]. f_equal.
    destruct response as [results|]; cbn in Hnot |- *.
    + by rewrite cache_fold_lookup, Hb.
    + by rewrite Hb.
Qed.
End ContentClaims.

Lemma checkUrl_single_outstanding_witness :
  let s := Content.run Content.parse_normalized
             [Content.CheckOne Content.env_ok Content.url_a] in
  Content.outstanding (fst (Content.checkUrlsBatch Content.parse_normalized
                              Content.env_ok [Content.url_a] s))
  = Content.outstanding s
    ++ [Content.CheckUrls [Content.url_a] [Content.url_a] 1].
Proof.
  exact (proj2 (proj2 (checkUrl_single_outstanding Content.parse_normalized
                         [Content.CheckOne Content.env_ok Content.url_a]))
           Content.env_ok [Content.url_a]
           ltac:(discriminate) eq_refl eq_refl).
Defined.

(** C1, as stated, fails on the batched path: while the [checkUrl]
    message for a URL is outstanding, a [checkUrlsBatch] call for the
    same URL sends a second store query about it; two batched calls in
    a row do the same. *)
Lemma checkUrlsBatch_second_query :
  Content.outstanding
    (Content.run Content.parse_normalized
       [Content.CheckOne Content.env_ok Content.url_a;
        Content.CheckMany Content.env_ok [Content.url_a]])
  = [Content.CheckUrl Content.url_a 0;
     Content.CheckUrls [Content.url_a] [Content.url_a] 1]
  ∧ Content.queries_about Content.url_a
      (Content.run Content.parse_normalized
         [Content.CheckOne Content.env_ok Content.url_a;
          Content.CheckMany Content.env_ok [Content.url_a]]) = 2%nat
  ∧ Content.queries_about Content.url_a
      (Content.run Content.parse_normalized
         [Content.CheckMany Content.env_ok [Content.url_a];
          Content.CheckMany Content.env_ok [Content.url_a]]) = 2%nat.
Proof. repeat split; vm_compute; reflexivity. Qed.

Lemma checkUrlsBatch_cache_and_failure_witness :
  let s := Content.run Content.parse_normalized
             [Content.MarkVisited Content.url_a] in
  Content.settled
    (fst (Content.checkUrlsBatch Content.parse_normalized
            Content.env_invalidated [Content.url_a; Content.url_b] s))
    !! Content.next_promise s
  = Some (Content.all_false [Content.url_a; Content.url_b]).
Proof.
  destruct (checkUrlsBatch_cache_and_failure Content.parse_normalized
              Content.env_invalidated [Content.url_a; Content.url_b]
              (Content.run Content.parse_normalized
                 [Content.MarkVisited Content.url_a]))
    as (_ & _ & _ & _ & H & _).
  refine (proj1 (proj2 (H _ _))).
  - vm_compute. discriminate.
  - left. reflexivity.
Defined.

(** C2, as stated, fails: with [url_a] cached as visited, a batched
    query for [url_a] and [url_b] that the transport fails reports
    [url_a] as not visited, though the cache still holds [true]. *)
Lemma checkUrlsBatch_failure_reports_cached_false :
  let s := Content.run Content.parse_normalized
             [Content.MarkVisited Content.url_a;
              Content.CheckMany Content.env_ok [Content.url_a; Content.url_b];
              Content.Reply 0 true None None] in
  Content.urlCache s !! Content.url_a = Some true
  ∧ Content.settled s !! 0%nat
    = Some (Content.VResults [(Content.url_a, false); (Content.url_b, false)]).
Proof. split; vm_compute; reflexivity. Qed.


Lemma checkUrlVisited_failure_not_cached_witness :
  Content.urlCache
    (fst (Content.checkUrlVisited Content.parse_normalized
            Content.env_invalidated Content.url_a Content.session0))
  = ∅.
Proof.
  exact (proj1 (proj2 (checkUrlVisited_failure_not_cached
                         Content.parse_normalized Content.env_invalidated
                         Content.env_invalidated Content.url_a Content.session0
                         None eq_refl eq_refl))).
Defined.

(** C9, as stated, fails while the context stays invalidated: the
    first check resolves to [false] without a cache entry, and the
    later check for the same URL sends no query either, since no
    message is sent from an invalidated context. *)
Lemma checkUrlVisited_no_query_when_invalidated :
  let s1 := Content.run Content.parse_normalized
              [Content.CheckOne Content.env_invalidated Content.url_a] in
  let later := Content.checkUrlVisited Content.parse_normalized
                 Content.env_invalidated Content.url_a s1 in
  Content.settled s1 !! 0%nat = Some (Content.VBool false)
  ∧ Content.urlCache s1 = ∅
  ∧ Content.outstanding (fst later) = []
  ∧ Content.queries_about Content.url_a (fst later) = 0%nat
  ∧ Content.urlCache (fst later) = ∅.
Proof. repeat split; vm_compute; reflexivity. Qed.

(** ** The scan of the links *)
Section ScanFacts.
Import JS Content.
Variable url_parse : jsstring → option jsstring.

Local Abbreviation normalizeUrl := (normalizeUrl url_parse).
Local Abbreviation scan := (scan url_parse).
Local Abbreviation scan_link := (scan_link url_parse).

Implicit Types (link : Link) (links : list Link) (u x y : jsstring).

Lemma startsWith_prefix (prefix s : jsstring) :
  startsWith prefix s = true ↔ ∃ rest, s = prefix ++ rest.
Proof.
  revert s. induction prefix as [|a p IH]; intros s; simpl.
  - split; [eauto|done].
  - destruct s as [|b s].
    + split; [done|by intros [? ?]].
    + rewrite andb_true_iff, N.eqb_eq, IH. split.
      * intros [-> [rest ->]]. eauto.
      * intros [rest [= -> ->]]. eauto.
Qed.

Lemma skipped_false link :
  skipped link = false
  ↔ href link ≠ []
    ∧ (∀ rest, href link ≠ lit "#" ++ rest)
    ∧ (∀ rest, href link ≠ lit "javascript:" ++ rest).
Proof.
  unfold skipped. rewrite !orb_false_iff.
  assert (∀ prefix, startsWith prefix (href link) = false
                    ↔ ∀ rest, href link ≠ prefix ++ rest) as Hp.
  { intros prefix. rewrite <- not_true_iff_false, startsWith_prefix. split.
    - intros H rest E. apply H. by exists rest.
    - intros H [rest E]. by apply (H rest). }
  rewrite !Hp. destruct (href link); split; intros [[? ?] ?] || intros [? [? ?]]; done.
Qed.

(** *** Distinct values in first-occurrence order *)

Lemma first_occurrences_elem x l : x ∈ first_occurrences l ↔ x ∈ l.
Proof.
  induction l as [|y l IH]; [done|]. cbn [first_occurrences].
  rewrite !elem_of_cons, list_elem_of_filter, IH.
  destruct (decide (x = y)); intuition congruence.
Qed.

Lemma first_occurrences_NoDup l : NoDup (first_occurrences l).
Proof.
  induction l as [|y l IH]; [constructor|]. cbn [first_occurrences].
  constructor; [|by apply NoDup_filter].
  rewrite list_elem_of_filter. by intros [? _].
Qed.

Lemma first_occurrences_snoc l x :
  first_occurrences (l ++ [x])
  = if decide (x ∈ l) then first_occurrences l else first_occurrences l ++ [x].
Proof.
  induction l as [|y l IH]; [done|].
  cbn [app first_occurrences]. rewrite IH.
  destruct (decide (x = y)) as [->|Hxy].
  - rewrite (decide_True (P := y ∈ y :: l)) by left.
    destruct (decide (y ∈ l)); [done|].
    rewrite filter_app, filter_cons_False by (by intros ?).
    by rewrite filter_nil, app_nil_r.
  - destruct (decide (x ∈ l)) as [Hin|Hnin].
    + by rewrite (decide_True (P := x ∈ y :: l)) by by right.
    + rewrite (decide_False (P := x ∈ y :: l)).
      * by rewrite filter_app, filter_cons_True by done.
      * rewrite elem_of_cons. intuition congruence.
Qed.

(** *** The loop *)

Lemma scan_snoc links link : scan (links ++ [link]) = scan_link (scan links) link.
Proof. unfold Content.scan. by rewrite fold_left_app. Qed.

Lemma kept_snoc links link :
  kept (links ++ [link])
  = if skipped link then kept links else kept links ++ [link].
Proof.
  unfold kept. rewrite filter_app. destruct (skipped link) eqn:E.
  - rewrite filter_cons_False by by rewrite E. by rewrite filter_nil, app_nil_r.
  - by rewrite filter_cons_True.
Qed.

Lemma scan_spec links :
  urls (scan links) = first_occurrences (map (fun l => normalizeUrl (href l)) (kept links))
  ∧ (∀ u, default [] (urlToLinks (scan links) !! u)
          = filter (fun l => normalizeUrl (href l) = u) (kept links))
  ∧ (∀ u, is_Some (urlToLinks (scan links) !! u) ↔ u ∈ urls (scan links)).
Proof.
  induction links as [|link links (IHu & IHg & IHs)] using rev_ind.
  - repeat split; try done.
    + intros [? H]. cbn in H. by rewrite lookup_empty in H.
    + intros H. by apply elem_of_nil in H.
  - rewrite scan_snoc, kept_snoc. unfold Content.scan_link.
    destruct (skipped link) eqn:Hskip; [done|].
    set (u0 := normalizeUrl (href link)).
    set (sc := scan links) in *.
    assert (default [] (urlToLinks
              (match urlToLinks sc !! u0 with
               | Some _ => sc
               | None => {| urlToLinks := <[u0 := []]> (urlToLinks sc);
                            urls := urls sc ++ [u0] |}
               end) !! u0) = default [] (urlToLinks sc !! u0)) as Hd.
    { destruct (urlToLinks sc !! u0) eqn:E; [by rewrite E|].
      cbn. by rewrite lookup_insert_eq. }
    assert (∀ u, u ≠ u0 →
              urlToLinks
                (match urlToLinks sc !! u0 with
                 | Some _ => sc
                 | None => {| urlToLinks := <[u0 := []]> (urlToLinks sc);
                              urls := urls sc ++ [u0] |}
                 end) !! u = urlToLinks sc !! u) as Hother.
    { intros u Hu. destruct (urlToLinks sc !! u0); [done|].
      cbn. by rewrite lookup_insert_ne. }
    assert (urls
              (match urlToLinks sc !! u0 with
               | Some _ => sc
               | None => {| urlToLinks := <[u0 := []]> (urlToLinks sc);
                            urls := urls sc ++ [u0] |}
               end)
            = if decide (u0 ∈ urls sc) then urls sc else urls sc ++ [u0]) as Hurls.
    { destruct (urlToLinks sc !! u0) eqn:E.
      - rewrite decide_True; [done|]. apply IHs. by rewrite E.
      - rewrite decide_False; [done|]. rewrite <- IHs, E. by intros [? ?]. }
    cbn [urlToLinks urls]. rewrite Hurls, Hd. repeat split.
    + rewrite map_app. cbn [map]. rewrite first_occurrences_snoc. fold u0.
      rewrite IHu.
      destruct (decide (u0 ∈ first_occurrences _)) as [Hin|Hnin].
      * rewrite decide_True; [done|]. by apply first_occurrences_elem.
      * rewrite decide_False; [done|]. by rewrite <- first_occurrences_elem.
    + intros u. rewrite filter_app. destruct (decide (u = u0)) as [->|Hu].
      * rewrite lookup_insert_eq. cbn [default]. rewrite IHg.
        by rewrite filter_cons_True.
      * rewrite lookup_insert_ne by done. rewrite Hother by done.
        rewrite IHg, filter_cons_False by (fold u0; congruence).
        by rewrite filter_nil, app_nil_r.
    + destruct (decide (u = u0)) as [->|Hu].
      * intros _. destruct (decide (u0 ∈ urls sc)); [done|].
        apply elem_of_app. right. left.
      * rewrite lookup_insert_ne by done. rewrite Hother by done.
        intros H%IHs. destruct (decide (u0 ∈ urls sc)); [done|].
        apply elem_of_app. by left.
    + destruct (decide (u = u0)) as [->|Hu].
      * intros _. rewrite lookup_insert_eq. eauto.
      * rewrite lookup_insert_ne by done. rewrite Hother by done.
        intros H. apply IHs. destruct (decide (u0 ∈ urls sc)); [done|].
        apply elem_of_app in H as [H|H%list_elem_of_singleton]; done.
Qed.

(** What the scan keeps and how it groups: an element is kept exactly
    when its [href] property is not empty and starts neither with [#]
    nor with [javascript:]; [urls] lists the normalized URLs of the
    kept elements, each once, in the order of first occurrence, and
    [urlToLinks] maps each of them to the kept elements with that
    normalized URL, in document order. *)
Lemma scan_groups_kept links :
  (∀ link, link ∈ kept links
           ↔ link ∈ links ∧ href link ≠ []
             ∧ (∀ rest, href link ≠ lit "#" ++ rest)
             ∧ (∀ rest, href link ≠ lit "javascript:" ++ rest))
  ∧ urls (scan links)
    = first_occurrences (map (fun l => normalizeUrl (href l)) (kept links))
  ∧ NoDup (urls (scan links))
  ∧ (∀ u, u ∈ urls (scan links)
          ↔ ∃ link, link ∈ kept links ∧ normalizeUrl (href link) = u)
  ∧ (∀ u, default [] (urlToLinks (scan links) !! u)
          = filter (fun l => normalizeUrl (href l) = u) (kept links))
  ∧ (∀ u, is_Some (urlToLinks (scan links) !! u) ↔ u ∈ urls (scan links))
  ∧ (∀ link, (∃ u, link ∈ default [] (urlToLinks (scan links) !! u))
             ↔ link ∈ kept links).
Proof.
  destruct (scan_spec links) as (Hu & Hg & Hs).
  split; [|split; [done|split; [|split; [|split; [done|split; [done|]]]]]].
  - intros link. unfold kept. rewrite list_elem_of_filter, skipped_false. tauto.
  - rewrite Hu. apply first_occurrences_NoDup.
  - intros u. rewrite Hu, first_occurrences_elem, list_elem_of_fmap.
    split; intros (link & ? & ?); eauto.
  - intros link. split.
    + intros (u & Hin). rewrite Hg in Hin.
      by apply list_elem_of_filter in Hin as [_ ?].
    + intros Hin. exists (normalizeUrl (href link)). rewrite Hg.
      by apply list_elem_of_filter.
Qed.

End ScanFacts.


(** ** The import, line by line, against the specification *)
Section TsvSpecFacts.
Import JS Store Tsv TsvSpec.
Implicit Types (s raw line core f : jsstring) (c d sep : N) (fs : list jsstring).

(** *** Removing the white space at the ends *)

Lemma trimStart_white l s : Forall white l → trimStart (l ++ s) = trimStart s.
Proof.
  induction 1 as [|c l Hc _ IH]; [done|]. cbn [app trimStart].
  unfold white in Hc. by rewrite Hc.
Qed.

Lemma trimStart_all_white l : Forall white l → trimStart l = [].
Proof.
  intros H. rewrite <- (app_nil_r l). by rewrite trimStart_white.
Qed.

Lemma trimStart_split s : ∃ l, s = l ++ trimStart s ∧ Forall white l.
Proof.
  induction s as [|c s (l & E & Hl)]; [by exists []|]. cbn [trimStart].
  destruct (is_white_space c) eqn:Hc.
  - exists (c :: l). cbn [app]. split; [by rewrite <- E|]. by constructor.
  - by exists [].
Qed.

Lemma trimStart_not_white c s :
  ¬ white c → trimStart (c :: s) = c :: s.
Proof.
  intros H. apply trimStart_id. unfold white in H.
  by destruct (is_white_space c).
Qed.

Lemma Forall_white_rev l : Forall white l → Forall white (rev l).
Proof.
  rewrite !Forall_forall. intros H c Hc. apply H.
  by rewrite list_elem_of_In, in_rev, <- list_elem_of_In.
Qed.

Lemma stripped_trim raw core : stripped raw core → trim raw = core.
Proof.
  intros (l & r & -> & Hl & Hr & Hhead & Hlast). unfold trim.
  rewrite trimStart_white by done.
  destruct core as [|c core'] using rev_ind.
  - cbn [app]. by rewrite trimStart_all_white.
  - clear IHcore'.
    assert (¬ white c) as Hc by (apply Hlast; by rewrite last_snoc).
    destruct core' as [|c0 core''].
    + cbn [app]. rewrite trimStart_not_white by done.
      unfold trimEnd. change (c :: r) with ([c] ++ r).
      rewrite rev_app_distr, trimStart_white by by apply Forall_white_rev.
      cbn [rev app]. by rewrite trimStart_not_white.
    + assert (¬ white c0) as Hc0 by by apply Hhead.
      cbn [app]. rewrite trimStart_not_white by done.
      unfold trimEnd.
      change (c0 :: (core'' ++ [c]) ++ r) with (((c0 :: core'') ++ [c]) ++ r).
      rewrite rev_app_distr, trimStart_white by by apply Forall_white_rev.
      rewrite rev_unit, trimStart_not_white by done.
      change (c :: rev (c0 :: core'')) with ([c] ++ rev (c0 :: core'')).
      by rewrite rev_app_distr, rev_involutive.
Qed.

Lemma trim_stripped raw : stripped raw (trim raw).
Proof.
  destruct (trimStart_split raw) as (l & E & Hl).
  destruct (trimStart_split (rev (trimStart raw))) as (l' & E' & Hl').
  exists l, (rev l'). split; [|split; [done|split; [by apply Forall_white_rev|]]].
  - rewrite E at 1. f_equal. unfold trim, trimEnd.
    rewrite <- rev_app_distr, <- E'. by rewrite rev_involutive.
  - split.
    + intros c Hc Hw. unfold trim in Hc.
      destruct (trimStart_head raw) as [E0|(c0 & r0 & E0 & Hc0)].
      * rewrite E0 in Hc. done.
      * rewrite E0 in Hc. destruct (trimEnd_head c0 r0 Hc0) as [r' Er].
        rewrite Er in Hc. cbn in Hc. injection Hc as ->.
        unfold white in Hw. congruence.
    + intros c Hc Hw. unfold trim, trimEnd in Hc.
      destruct (trimStart_head (rev (trimStart raw))) as [E0|(c0 & r0 & E0 & Hc0)].
      * rewrite E0 in Hc. done.
      * rewrite E0 in Hc. cbn [rev] in Hc. rewrite last_snoc in Hc.
        injection Hc as ->. unfold white in Hw. congruence.
Qed.

Lemma trim_nil_white raw : trim raw = [] ↔ Forall white raw.
Proof.
  split.
  - intros E. destruct (trim_stripped raw) as (l & r & Hraw & Hl & Hr & _).
    rewrite E in Hraw. rewrite Hraw. cbn [app]. by apply Forall_app.
  - intros H. unfold trim. by rewrite trimStart_all_white.
Qed.

(** *** Pieces *)

Lemma pieces_split sep s fs : pieces sep s fs → split sep s = fs.
Proof.
  intros (Hne & Hall & ->). induction Hall as [|f rest Hf Hall IH]; [done|].
  destruct rest as [|f' rest'].
  - cbn [join]. by apply split_no_sep.
  - change (join sep (f :: f' :: rest')) with (f ++ sep :: join sep (f' :: rest')).
    rewrite split_app_sep by done. f_equal. by apply IH.
Qed.

Lemma split_pieces sep s : pieces sep s (split sep s).
Proof.
  induction s as [|c s (Hne & Hall & E)].
  - split; [done|]. split; [|done]. constructor; [|done]. apply not_elem_of_nil.
  - cbn [split]. destruct (N.eqb_spec c sep) as [->|Hc].
    + split; [done|]. split.
      * constructor; [apply not_elem_of_nil|done].
      * destruct (split sep s) as [|f rest]; [done|].
        change (join sep ([] :: f :: rest)) with ([] ++ sep :: join sep (f :: rest)).
        cbn [app]. by rewrite <- E.
    + destruct (split sep s) as [|f rest]; [done|].
      split; [done|]. apply Forall_cons in Hall as [Hf Hall]. split.
      * constructor; [|done]. intros [?|?]%elem_of_cons; done.
      * rewrite E. by destruct rest.
Qed.

(** *** Reading an integer *)

Lemma digit_is_digit c : digit c ↔ is_digit c = true.
Proof.
  unfold digit, is_digit. rewrite andb_true_iff, !N.leb_le. done.
Qed.

Lemma take_digits_app ds rest :
  Forall digit ds → (∀ c, head rest = Some c → ¬ digit c) →
  take_digits (ds ++ rest) = ds.
Proof.
  intros Hds Hrest. induction Hds as [|d ds Hd _ IH]; cbn [app take_digits].
  - destruct rest as [|c rest]; [done|]. cbn [take_digits].
    destruct (is_digit c) eqn:E; [|done].
    by destruct (Hrest c eq_refl); apply digit_is_digit.
  - apply digit_is_digit in Hd. by rewrite Hd, IH.
Qed.

Lemma take_digits_split s :
  ∃ rest, s = take_digits s ++ rest ∧ Forall digit (take_digits s)
          ∧ (∀ c, head rest = Some c → ¬ digit c).
Proof.
  induction s as [|c s (rest & E & Hds & Hrest)].
  - exists []. by repeat split.
  - cbn [take_digits]. destruct (is_digit c) eqn:Hc.
    + exists rest. cbn [app]. split; [by rewrite <- E|]. split; [|done].
      constructor; [by apply digit_is_digit|done].
    + exists (c :: s). split; [done|]. split; [done|].
      intros c' [= <-] Hd%digit_is_digit. congruence.
Qed.

Lemma decimal_snoc ds d :
  decimal (ds ++ [d]) = (10 * decimal ds + (Z.of_N d - 48))%Z.
Proof.
  induction ds as [|x ds IH]; cbn [app decimal length].
  - lia.
  - rewrite IH, length_app. cbn [length].
    replace (Z.of_nat (length ds + 1)) with (Z.succ (Z.of_nat (length ds))) by lia.
    rewrite Z.pow_succ_r by lia. lia.
Qed.

Lemma decimal_digits_value ds :
  Forall digit ds → Z.of_N (digits_value ds) = decimal ds.
Proof.
  induction ds as [|d ds IH] using rev_ind; [done|].
  intros [Hds Hd]%Forall_app. apply Forall_inv in Hd.
  rewrite digits_value_snoc, decimal_snoc, <- IH by done.
  unfold digit in Hd. unfold DIGIT_0. lia.
Qed.

Lemma sign_not_white sg σ ds rest :
  sign sg σ → ds ≠ [] → Forall digit ds →
  trimStart (sg ++ ds ++ rest) = sg ++ ds ++ rest.
Proof.
  intros Hsg Hne Hds. destruct Hsg; cbn [app]; try by apply trimStart_id.
  destruct Hds as [|d ds Hd _]; [done|]. cbn [app]. apply trimStart_id.
  apply digit_is_digit in Hd. by destruct (is_digit_facts d Hd).
Qed.

Lemma integer_prefix_parseInt f z : integer_prefix f z → parseInt f = Some z.
Proof.
  intros (l & sg & σ & ds & rest & -> & Hl & Hsg & Hne & Hds & Hrest & ->).
  unfold parseInt. rewrite trimStart_white by done.
  rewrite (sign_not_white sg σ ds rest) by done.
  pose proof (decimal_digits_value ds Hds) as Hval.
  destruct Hsg; cbn [app].
  - destruct ds as [|d ds']; [done|]. cbn [app].
    pose proof (Forall_inv Hds) as Hd. apply digit_is_digit in Hd.
    destruct (is_digit_facts d Hd) as (_ & _ & _ & Hm & Hp).
    destruct (N.eqb_spec d MINUS); [done|]. destruct (N.eqb_spec d PLUS); [done|].
    change (d :: ds' ++ rest) with ((d :: ds') ++ rest).
    rewrite take_digits_app by done. rewrite Hval. f_equal; lia.
  - rewrite N.eqb_refl, take_digits_app by done.
    destruct ds; [done|]. rewrite Hval. f_equal; lia.
  - change (PLUS =? MINUS) with false. rewrite N.eqb_refl.
    rewrite take_digits_app by done.
    destruct ds; [done|]. rewrite Hval. f_equal; lia.
Qed.

Lemma parseInt_integer_prefix f z : parseInt f = Some z → integer_prefix f z.
Proof.
  unfold parseInt. destruct (trimStart_split f) as (l & E & Hl).
  intros H. unfold integer_prefix.
  assert (∀ sg σ s2,
            sign sg σ → trimStart f = sg ++ s2 →
            match take_digits s2 with
            | [] => None
            | _ :: _ => Some (σ * Z.of_N (digits_value (take_digits s2)))%Z
            end = Some z →
            ∃ l sg σ ds rest,
              f = l ++ sg ++ ds ++ rest ∧ Forall white l ∧ sign sg σ
              ∧ ds ≠ [] ∧ Forall digit ds
              ∧ (∀ c, head rest = Some c → ¬ digit c)
              ∧ z = (σ * decimal ds)%Z) as Hcase.
  { intros sg σ s2 Hsg Es Hz.
    destruct (take_digits_split s2) as (rest & E2 & Hds & Hrest).
    exists l, sg, σ, (take_digits s2), rest.
    split; [by rewrite E at 1; rewrite Es, E2 at 1|].
    split; [done|]. split; [done|].
    destruct (take_digits s2) as [|d ds] eqn:Et; [done|].
    split; [done|]. split; [done|]. split; [done|].
    injection Hz as <-. by rewrite (decimal_digits_value _ Hds). }
  destruct (trimStart f) as [|c r] eqn:Et.
  - done.
  - destruct (N.eqb_spec c MINUS) as [->|Hm].
    + apply (Hcase [MINUS] (-1)%Z r); [constructor|done|].
      destruct (take_digits r); [done|]. rewrite <- H. f_equal; lia.
    + destruct (N.eqb_spec c PLUS) as [->|Hp].
      * apply (Hcase [PLUS] 1%Z r); [constructor|done|].
        destruct (take_digits r); [done|]. rewrite <- H. f_equal; lia.
      * apply (Hcase [] 1%Z (c :: r)); [constructor|done|].
        destruct (take_digits (c :: r)); [done|]. rewrite <- H. f_equal; lia.
Qed.

(** *** Unescaping in one pass *)

Lemma replace_pair_other a b X x r :
  x ≠ a → replace_pair a b X (x :: r) = x :: replace_pair a b X r.
Proof. intros H. apply replace_pair_skip. by left. Qed.

Lemma replace_pair_head a b X x r :
  ∃ y r', replace_pair a b X (x :: r) = y :: r' ∧ (y = x ∨ y = X).
Proof.
  destruct r as [|d r]; [by exists x, []; split; [|left]|].
  rewrite replace_pair_cons2. destruct ((x =? a) && (d =? b)).
  - eexists _, _. split; [done|by right].
  - eexists _, _. split; [done|by left].
Qed.

Lemma unescaped_unescape_url s : unescaped s = unescape_url s.
Proof.
  induction s as [|c|c d s IH1 IH2] using list_pair_ind; [done..|].
  unfold unescape_url in *.
  change (unescaped (c :: d :: s))
    with (if decide (c = BACKSLASH ∧ d = LETTER_t) then TAB :: unescaped s
          else if decide (c = BACKSLASH ∧ d = LETTER_n) then LF :: unescaped s
          else if decide (c = BACKSLASH ∧ d = LETTER_r) then CR :: unescaped s
          else c :: unescaped (d :: s)).
  destruct (decide (c = BACKSLASH ∧ d = LETTER_t)) as [[-> ->]|Ht].
  { rewrite replace_pair_match, !replace_pair_other by done. by rewrite IH1. }
  destruct (decide (c = BACKSLASH ∧ d = LETTER_n)) as [[-> ->]|Hn].
  { rewrite (replace_pair_skip _ LETTER_t) by (by right).
    rewrite (replace_pair_other _ LETTER_t) by done.
    rewrite replace_pair_match, replace_pair_other by done. by rewrite IH1. }
  destruct (decide (c = BACKSLASH ∧ d = LETTER_r)) as [[-> ->]|Hr].
  { rewrite (replace_pair_skip _ LETTER_t) by (by right).
    rewrite (replace_pair_other _ LETTER_t) by done.
    rewrite (replace_pair_skip _ LETTER_n) by (by right).
    rewrite (replace_pair_other _ LETTER_n) by done.
    rewrite replace_pair_match. by rewrite IH1. }
  rewrite IH2.
  rewrite (replace_pair_skip _ LETTER_t _ c (d :: s)).
  2:{ destruct (decide (c = BACKSLASH)) as [->|]; [right|by left].
      cbn. intros [= ->]. by apply Ht. }
  destruct (replace_pair_head BACKSLASH LETTER_t TAB d s) as (y & r' & -> & Hy).
  rewrite (replace_pair_skip _ LETTER_n _ c (y :: r')).
  2:{ destruct (decide (c = BACKSLASH)) as [->|]; [right|by left].
      cbn. intros [= ->]. destruct Hy as [<-|?]; [by apply Hn|done]. }
  destruct (replace_pair_head BACKSLASH LETTER_n LF y r') as (y' & r'' & -> & Hy').
  rewrite (replace_pair_skip _ LETTER_r _ c (y' :: r'')); [done|].
  destruct (decide (c = BACKSLASH)) as [->|]; [right|by left].
  cbn. intros [= ->]. destruct Hy' as [<-|?]; [|done].
  destruct Hy as [<-|?]; [by apply Hr|done].
Qed.

(** *** The loop body against the reading of a line *)

Lemma import_line_reads (st : @ImportState Store) raw cl :
  reads stripped raw cl → import_line mem_put st raw = tally st cl.
Proof.
  intros H.
  assert (∀ line, ¬ Forall white raw → stripped raw line →
                  trim raw = line ∧ is_empty line = false) as Hline.
  { intros line Hnb Hs. apply stripped_trim in Hs. split; [done|].
    destruct line; [|done]. by apply trim_nil_white in Hs. }
  unfold import_line.
  destruct H as [raw Hb|raw line f Hnb Hs Hp|raw line f0 f1 more Hnb Hs Hp Hno
                |raw line f0 f1 more Hnb Hs Hp Hu|raw line f0 f1 more z Hnb Hs Hp Hz Hu].
  - apply trim_nil_white in Hb. by rewrite Hb.
  - destruct (Hline line Hnb Hs) as [-> ->]. by rewrite (pieces_split _ _ _ Hp).
  - destruct (Hline line Hnb Hs) as [-> ->]. rewrite (pieces_split _ _ _ Hp).
    cbn [length Nat.ltb Nat.leb part nth].
    destruct (parseInt f1) as [z|] eqn:Ez.
    + by destruct (Hno z); apply parseInt_integer_prefix.
    + by destruct (is_empty (unescape_url f0)).
  - destruct (Hline line Hnb Hs) as [-> ->]. rewrite (pieces_split _ _ _ Hp).
    cbn [length Nat.ltb Nat.leb part nth].
    by rewrite <- unescaped_unescape_url, Hu.
  - destruct (Hline line Hnb Hs) as [-> ->]. rewrite (pieces_split _ _ _ Hp).
    cbn [length Nat.ltb Nat.leb part nth].
    rewrite <- unescaped_unescape_url, (integer_prefix_parseInt _ _ Hz).
    by destruct (unescaped f0).
Qed.

Lemma reads_total raw : ∃ cl, reads stripped raw cl.
Proof.
  destruct (trim raw) as [|c0 line0] eqn:Et.
  { exists Blank. constructor. by apply trim_nil_white. }
  assert (¬ Forall white raw) as Hnb.
  { intros H%trim_nil_white. congruence. }
  pose proof (trim_stripped raw) as Hs.
  pose proof (split_pieces TAB (trim raw)) as Hp.
  destruct (split TAB (trim raw)) as [|f0 [|f1 more]].
  - by destruct Hp.
  - exists Malformed. by eapply reads_one_field.
  - destruct (parseInt f1) as [z|] eqn:Ez.
    + destruct (unescaped f0) as [|u0 u] eqn:Eu.
      * exists Malformed. by eapply reads_empty_url.
      * eexists. eapply reads_record; [done..| |].
        -- by apply parseInt_integer_prefix.
        -- by rewrite Eu.
    + exists Malformed. eapply reads_no_timestamp; [done..|].
      intros z Hz%integer_prefix_parseInt. congruence.
Qed.

Lemma reads_functional raw cl cl' :
  reads stripped raw cl → reads stripped raw cl' → cl = cl'.
Proof.
  intros H H'.
  pose proof (import_line_reads {| store := ∅; imported := 0; errors := 0 |}
                raw cl H) as E.
  rewrite (import_line_reads _ raw cl' H') in E.
  destruct cl as [| |[u z]], cl' as [| |[u' z']]; cbn [tally] in E;
    try reflexivity;
    try (apply (f_equal errors) in E; cbn [errors] in E; discriminate E);
    try (apply (f_equal imported) in E; cbn [imported] in E; discriminate E).
  apply (f_equal store) in E. cbn [store url timestamp] in E.
  pose proof (f_equal (fun m : Store => m !! u) E) as Eu. cbn beta in Eu.
  rewrite lookup_insert_eq in Eu.
  destruct (decide (u' = u)) as [->|Hne].
  - rewrite lookup_insert_eq in Eu. by injection Eu as ->.
  - rewrite lookup_insert_ne in Eu by done. by rewrite lookup_empty in Eu.
Qed.

Lemma import_lines_read (ls : list jsstring) (cs : list line_class)
    (st : @ImportState Store) :
  Forall2 (reads stripped) ls cs →
  fold_left (import_line mem_put) ls st = fold_left tally cs st.
Proof.
  intros H. revert st. induction H as [|raw cl ls cs Hr _ IH]; intros st; [done|].
  cbn [fold_left]. by rewrite (import_line_reads st raw cl Hr), IH.
Qed.

(** C4, as the code has it. Every text is a header line and further
    lines, and every line has one reading once the white space at its
    two ends is removed. The import does to the store and the counters
    what these readings say, line by line: nothing for a blank line,
    an error for a line with fewer than two tab-separated fields, a
    timestamp field that does not parse or a URL field that is empty
    after unescaping, and an upsert counted as imported for every
    other line; the stored timestamps are given for lines holding safe
    integers. On the scenario text two records are imported and one
    error is counted; on the second text the records come from lines
    that need stripping, unescaping and reading a timestamp that
    letters follow. *)
Theorem importHistoryFromTSV_reads_lines :
  (∀ text, ∃ header ls, lines_of text header ls)
  ∧ (∀ raw, ∃ cl, reads stripped raw cl)
  ∧ (∀ raw cl cl', reads stripped raw cl → reads stripped raw cl' → cl = cl')
  ∧ (∀ (d : Store) text header ls cs,
       lines_of text header ls → Forall2 (reads stripped) ls cs →
       let result := importHistoryFromTSV mem_put d text in
       let told :=
         fold_left tally cs {| store := d; imported := 0; errors := 0 |} in
       imported result = imported told
       ∧ errors result = errors told
       ∧ (Forall safe_class cs → store result = store told))
  ∧ importHistoryFromTSV mem_put ∅ scenario_text
    = {| store := {[ lit "https://x/" := 5%Z; lit "https://y/" := 7%Z ]};
         imported := 2; errors := 1 |}
  ∧ importHistoryFromTSV mem_put ∅ messy_text
    = {| store := {[ lit "https://x/a" ++ [TAB] ++ lit "b" := 12%Z;
                     lit "https://z/" := (-3)%Z ]};
         imported := 2; errors := 2 |}.
Proof.
  split.
  { intros text. pose proof (split_pieces LF text) as Hp.
    destruct (split LF text) as [|header ls]; [by destruct Hp|].
    by exists header, ls. }
  split; [apply reads_total|]. split; [apply reads_functional|].
  split.
  { intros d text header ls cs Hl Hr. cbv zeta.
    unfold importHistoryFromTSV. rewrite (pieces_split _ _ _ Hl).
    change (drop 1 (header :: ls)) with ls.
    by rewrite (import_lines_read ls cs _ Hr). }
  split; vm_compute; reflexivity.
Qed.
End TsvSpecFacts.

(** C4, as stated, fails on a line that starts with a tab: taken as
    it stands the line has three tab-separated fields, the first of
    them, the URL field, empty, so that it can only be read as an
    error; the import removes the tab first and stores a record. *)
Lemma import_strips_leading_tab :
  TsvSpec.reads TsvSpec.unchanged TsvSpec.leading_tab_line Tsv.Malformed
  ∧ (∀ cl, TsvSpec.reads TsvSpec.unchanged TsvSpec.leading_tab_line cl →
           cl = Tsv.Malformed)
  ∧ Tsv.importHistoryFromTSV Tsv.mem_put ∅ TsvSpec.leading_tab_text
    = {| Tsv.store := {[ JS.lit "https://x/" := 5%Z ]};
         Tsv.imported := 1; Tsv.errors := 0 |}.
Proof.
  assert (TsvSpec.pieces JS.TAB TsvSpec.leading_tab_line
            [[]; JS.lit "https://x/"; JS.lit "5"]) as Hp.
  { pose proof (split_pieces JS.TAB TsvSpec.leading_tab_line) as H.
    vm_compute in H. exact H. }
  assert (¬ Forall TsvSpec.white TsvSpec.leading_tab_line) as Hnb.
  { intros H. apply Forall_inv_tail, Forall_inv in H. vm_compute in H. discriminate. }
  split; [|split].
  - by eapply (TsvSpec.reads_empty_url _ _ TsvSpec.leading_tab_line).
  - intros cl H.
    destruct H as [raw Hb|raw line f Hnb' Hs Hp'|raw line f0 f1 more Hnb' Hs Hp' Hno
                  |raw line f0 f1 more Hnb' Hs Hp' Hu
                  |raw line f0 f1 more z Hnb' Hs Hp' Hz Hu]; try done.
    unfold TsvSpec.unchanged in Hs. subst line.
    apply pieces_split in Hp'. rewrite (pieces_split _ _ _ Hp) in Hp'.
    injection Hp' as <- <- <-. by destruct Hu.
  - vm_compute. reflexivity.
Qed.

(** ** More on the TSV format *)
Section TsvMore.
Import JS Store Tsv.
Implicit Types (u raw : jsstring) (r : VisitRecord) (rs : list VisitRecord).

Lemma trim_snoc_non_blank s d :
  is_white_space d = false → non_blank (s ++ [d]) = true.
Proof.
  intros Hd. unfold non_blank, trim, trimEnd.
  destruct (trimStart_snoc s d Hd) as [s' ->].
  rewrite rev_unit. cbn [trimStart]. rewrite Hd. cbn [rev].
  by destruct (rev (rev s')).
Qed.

Lemma record_line_non_blank r : non_blank (record_line r) = true.
Proof.
  unfold record_line.
  destruct (number_to_string_snoc (timestamp r)) as (pre & d & -> & Hd).
  rewrite !app_assoc. by apply trim_snoc_non_blank.
Qed.

(** *** Counting *)

Lemma import_line_counts {DB} (put : DB → VisitRecord → option DB) st raw :
  (imported (import_line put st raw) + errors (import_line put st raw)
   = imported st + errors st + (if non_blank raw then 1 else 0))%nat.
Proof.
  rewrite import_line_classify. unfold classify, non_blank.
  destruct (is_empty (trim raw)); cbn; [lia|].
  destruct (_ || _ || _); cbn; [lia|]. destruct (put _ _); cbn; lia.
Qed.

Lemma import_lines_counts {DB} (put : DB → VisitRecord → option DB) lines st :
  (imported (fold_left (import_line put) lines st)
   + errors (fold_left (import_line put) lines st)
   = imported st + errors st + length (filter (fun l => non_blank l = true) lines))%nat.
Proof.
  revert st. induction lines as [|raw lines IH]; intros st; cbn [fold_left].
  - rewrite filter_nil. cbn. lia.
  - rewrite IH, import_line_counts. destruct (non_blank raw) eqn:E.
    + rewrite filter_cons_True by done. cbn. lia.
    + rewrite filter_cons_False by (by rewrite E). lia.
Qed.

(** X3. Whatever the store does, every line after the header that is
    not blank is counted once, as imported or as an error. *)
Theorem importHistoryFromTSV_counts_every_line
    {DB} (put : DB → VisitRecord → option DB) d tsvData :
  (imported (importHistoryFromTSV put d tsvData)
   + errors (importHistoryFromTSV put d tsvData)
   = length (filter (fun l => non_blank l = true) (data_lines tsvData)))%nat.
Proof. unfold importHistoryFromTSV. by rewrite import_lines_counts. Qed.

(** *** What the import leaves in the store *)

Lemma fold_store_put_lookup rs (d : Store) u :
  fold_left store_put rs d !! u
  = match last_for u rs with Some t => Some t | None => d !! u end.
Proof.
  unfold last_for. revert d. induction rs as [|r rs IH]; intros d; [done|].
  cbn [fold_left]. rewrite IH. destruct (decide (url r = u)) as [Hu|Hu].
  - rewrite filter_cons_True by done. rewrite last_cons.
    destruct (last (filter (fun r => url r = u) rs)); [done|].
    cbn. unfold store_put. by rewrite Hu, lookup_insert_eq.
  - rewrite filter_cons_False by done.
    destruct (last (filter (fun r => url r = u) rs)); [done|].
    cbn. unfold store_put. by rewrite lookup_insert_ne.
Qed.

Lemma import_lines_mem lines (st : ImportState) :
  store (fold_left (import_line mem_put) lines st)
  = fold_left store_put
      (omap (fun raw => match classify raw with Valid r => Some r | _ => None end)
            lines)
      (store st)
  ∧ imported (fold_left (import_line mem_put) lines st)
    = (imported st
       + length (omap (fun raw => match classify raw with
                                  | Valid r => Some r | _ => None end) lines))%nat.
Proof.
  revert st. induction lines as [|raw lines IH]; intros st; cbn [fold_left omap].
  - split; [done|]. cbn. lia.
  - destruct (IH (import_line mem_put st raw)) as [-> ->].
    rewrite import_line_classify. cbn [list_omap].
    destruct (classify raw); cbn; split; (done || lia).
Qed.

Lemma import_mem_store (d : Store) tsvData u :
  store (importHistoryFromTSV mem_put d tsvData) !! u
  = match last_for u (valid_records tsvData) with
    | Some t => Some t
    | None => d !! u
    end.
Proof.
  unfold importHistoryFromTSV, valid_records, data_lines.
  destruct (import_lines_mem (drop 1 (split LF tsvData))
              {| store := d; imported := 0; errors := 0 |}) as [-> _].
  apply fold_store_put_lookup.
Qed.

Lemma import_mem_imported (d : Store) tsvData :
  imported (importHistoryFromTSV mem_put d tsvData)
  = length (valid_records tsvData).
Proof.
  unfold importHistoryFromTSV, valid_records, data_lines.
  by destruct (import_lines_mem (drop 1 (split LF tsvData))
                 {| store := d; imported := 0; errors := 0 |}) as [_ ->].
Qed.

(** X4. With a store that takes every write, the import is an upsert of
    the lines that pass the checks, in line order: [imported] is their
    number; for a URL whose lines hold safe integers, the last of them
    gives the timestamp; a URL on no such line keeps the record it had,
    or stays absent. A text without a line feed has no line after the
    header, so nothing is read from it. *)
Theorem importHistoryFromTSV_last_line_wins (d : Store) tsvData :
  imported (importHistoryFromTSV mem_put d tsvData)
  = length (valid_records tsvData)
  ∧ (∀ u, (∀ r, r ∈ valid_records tsvData → url r = u →
                safe_integer (timestamp r)) →
          store (importHistoryFromTSV mem_put d tsvData) !! u
          = match last_for u (valid_records tsvData) with
            | Some t => Some t
            | None => d !! u
            end)
  ∧ (LF ∉ tsvData →
     importHistoryFromTSV mem_put d tsvData
     = {| store := d; imported := 0; errors := 0 |}).
Proof.
  split; [apply import_mem_imported|]. split; [intros u _; apply import_mem_store|].
  intros H. unfold importHistoryFromTSV. by rewrite split_no_sep.
Qed.

(** X5. Importing a text a second time, into the store the first import
    left, changes no record and gives the same counts. *)
Theorem importHistoryFromTSV_twice (d : Store) tsvData :
  let once := importHistoryFromTSV mem_put d tsvData in
  importHistoryFromTSV mem_put (store once) tsvData = once.
Proof.
  cbv zeta.
  set (once := importHistoryFromTSV mem_put d tsvData).
  set (twice := importHistoryFromTSV mem_put (store once) tsvData).
  pose proof (import_mem_imported d tsvData) as Hi1.
  pose proof (import_mem_imported (store once) tsvData) as Hi2.
  fold once in Hi1. fold twice in Hi2.
  pose proof (import_lines_counts mem_put (data_lines tsvData)
                {| store := d; imported := 0; errors := 0 |}) as Hc1.
  pose proof (import_lines_counts mem_put (data_lines tsvData)
                {| store := store once; imported := 0; errors := 0 |}) as Hc2.
  change (fold_left (import_line mem_put) (data_lines tsvData)
            {| store := d; imported := 0; errors := 0 |}) with once in Hc1.
  change (fold_left (import_line mem_put) (data_lines tsvData)
            {| store := store once; imported := 0; errors := 0 |}) with twice in Hc2.
  assert (store twice = store once) as Hs.
  { apply map_eq. intros u. unfold twice. rewrite import_mem_store.
    unfold once. rewrite import_mem_store.
    by destruct (last_for u (valid_records tsvData)). }
  destruct once as [s1 i1 e1], twice as [s2 i2 e2]. cbn in *.
  f_equal; [done|lia|lia].
Qed.

Lemma importHistoryFromTSV_last_line_wins_witness :
  importHistoryFromTSV mem_put ∅ (lit "url")
  = {| store := ∅; imported := 0; errors := 0 |}.
Proof.
  apply (importHistoryFromTSV_last_line_wins ∅ (lit "url")).
  vm_compute. intros H. repeat (apply elem_of_cons in H as [H|H]; [discriminate|]).
  by apply elem_of_nil in H.
Defined.

(** *** The shape of an exported text *)

Lemma filter_non_blank_record_lines l :
  filter (fun raw => non_blank raw = true) (map record_line l ++ [[]])
  = map record_line l.
Proof.
  rewrite filter_app, filter_cons_False by (by intros ?).
  rewrite filter_nil, app_nil_r.
  induction l as [|r l IH]; [done|]. cbn [map].
  rewrite filter_cons_True by apply record_line_non_blank. by rewrite IH.
Qed.

(** X1. The exported text is the header line, one line per record in
    the order given, and an empty last line, and a record's line splits
    on the tab into exactly two fields, the escaped URL and the digits
    of the timestamp; this for records whose timestamps are safe
    integers. Whatever the records, importing the exported text, into
    any store, accounts for every record: imported plus errors is the
    number of records. *)
Theorem exportHistoryToTSV_one_line_per_record allUrls :
  (Forall (fun r => safe_integer (timestamp r)) allUrls →
   split LF (exportHistoryToTSV allUrls)
   = (lit "url" ++ [TAB] ++ lit "timestamp") :: map record_line allUrls ++ [[]]
   ∧ ∀ r, r ∈ allUrls →
          split TAB (record_line r)
          = [escape_url (url r); number_to_string (timestamp r)])
  ∧ (∀ DB (put : DB → VisitRecord → option DB) d,
        (imported (importHistoryFromTSV put d (exportHistoryToTSV allUrls))
         + errors (importHistoryFromTSV put d (exportHistoryToTSV allUrls))
         = length allUrls)%nat).
Proof.
  assert (split LF (exportHistoryToTSV allUrls)
          = (lit "url" ++ [TAB] ++ lit "timestamp")
              :: map record_line allUrls ++ [[]]) as Hsplit.
  { rewrite exportHistoryToTSV_lines.
    change TSV_HEADER with ((lit "url" ++ [TAB] ++ lit "timestamp") ++ [LF]).
    rewrite <- app_assoc. cbn [app].
    rewrite split_app_sep.
    - by rewrite split_record_lines.
    - vm_compute. intros H.
      repeat (apply elem_of_cons in H as [H|H]; [discriminate|]).
      by apply elem_of_nil in H. }
  split.
  { intros _. split; [done|]. intros r _. apply record_line_split. }
  intros DB put d. unfold importHistoryFromTSV.
  rewrite import_lines_counts, Hsplit.
  change (drop 1 ((lit "url" ++ [TAB] ++ lit "timestamp")
                    :: map record_line allUrls ++ [[]]))
    with (map record_line allUrls ++ [[]]).
  by rewrite filter_non_blank_record_lines, length_map.
Qed.
End TsvMore.

(** ** The escaping, exactly *)
Section EscapeExact.
Import JS Store Tsv.
Implicit Types (u s : jsstring) (a b c d x X : N).

Lemma no_pair_cons2 a b c d s :
  no_pair a b (c :: d :: s)
  = negb ((c =? a) && (d =? b)) && no_pair a b (d :: s).
Proof. reflexivity. Qed.

Lemma replace_pair_length a b X s :
  (length (replace_pair a b X s) ≤ length s)%nat
  ∧ (no_pair a b s = false → length (replace_pair a b X s) < length s)%nat.
Proof.
  induction s as [|c|c d s [IH1 _] [IH2 IH2']] using list_pair_ind;
    [by split; cbn; [lia|]..|].
  rewrite replace_pair_cons2, no_pair_cons2.
  destruct ((c =? a) && (d =? b)) eqn:E; cbn [negb andb].
  - change (length (c :: d :: s)) with (S (S (length s))).
    change (length (X :: replace_pair a b X s))
      with (S (length (replace_pair a b X s))).
    split; [lia|]. intros _. lia.
  - change (length (c :: d :: s)) with (S (length (d :: s))).
    change (length (c :: replace_pair a b X (d :: s)))
      with (S (length (replace_pair a b X (d :: s)))).
    split; [lia|]. intros H. specialize (IH2' H). lia.
Qed.

Lemma replace_pair_no_pair a b X s :
  no_pair a b s = true → replace_pair a b X s = s.
Proof.
  induction s as [|c|c d s _ IH] using list_pair_ind; [done..|].
  rewrite replace_pair_cons2, no_pair_cons2. intros [Hm Hs]%andb_true_iff.
  apply negb_true_iff in Hm. rewrite Hm. by rewrite IH.
Qed.

(** One pass of the unescaping over an escaped string acts on the
    string itself: it undoes the escape of its own character, and it
    also rewrites every pair the string already held. *)
Lemma replace_pair_escape_with_any X x table u :
  x ≠ BACKSLASH → BACKSLASH ∉ ((X, x) :: table).*1 → x ∉ ((X, x) :: table).*1 →
  X ∉ table.*1 →
  Forall (fun e => e ≠ x ∧ e ≠ BACKSLASH) table.*2 →
  replace_pair BACKSLASH x X (escape_with ((X, x) :: table) u)
  = escape_with table (replace_pair BACKSLASH x X u).
Proof.
  intros Hx HB Hxk HX Htable. rewrite Forall_forall in Htable.
  assert (∀ c, c ≠ X → escape_char ((X, x) :: table) c = escape_char table c) as Hne.
  { intros c Hc. cbn. by destruct (N.eqb_spec c X). }
  assert (escape_char ((X, x) :: table) X = [BACKSLASH; x]) as HeX.
  { cbn. by rewrite N.eqb_refl. }
  assert (∀ c rest, c ≠ X →
            (c ≠ BACKSLASH ∨ head rest ≠ Some x) →
            replace_pair BACKSLASH x X (escape_char table c ++ rest)
            = escape_char table c ++ replace_pair BACKSLASH x X rest) as Hskip.
  { intros c rest Hc Hhead.
    destruct (escape_char_shape table c) as [E|(e & He & E)]; rewrite E; cbn [app].
    - by rewrite replace_pair_skip.
    - destruct (Htable _ He) as [Hex HeB].
      rewrite replace_pair_skip by (right; cbn; congruence).
      rewrite replace_pair_skip by by left. done. }
  assert (∀ d rest, d ≠ x → head (escape_char ((X, x) :: table) d ++ rest) ≠ Some x)
    as Hhead.
  { intros d rest Hd. destruct (decide (d = X)) as [->|HdX].
    - rewrite HeX. cbn. congruence.
    - rewrite Hne by done.
      destruct (escape_char_shape table d) as [E|(e & _ & E)]; rewrite E; cbn; congruence. }
  induction u as [|c|c d u IH1 IH2] using list_pair_ind.
  - done.
  - cbn [escape_with replace_pair]. rewrite !app_nil_r.
    destruct (decide (c = X)) as [->|Hc].
    + rewrite HeX. cbn [replace_pair]. rewrite !N.eqb_refl. cbn.
      by rewrite (escape_char_not_key _ _ HX).
    + rewrite Hne by done. rewrite <- (app_nil_r (escape_char table c)) at 1.
      rewrite Hskip; [by rewrite app_nil_r|done|by right].
  - destruct (decide (c = BACKSLASH ∧ d = x)) as [[-> ->]|Hpair].
    + cbn [replace_pair]. rewrite !N.eqb_refl. cbn [andb escape_with].
      rewrite (escape_char_not_key _ _ HB), (escape_char_not_key _ _ Hxk).
      cbn [app]. rewrite replace_pair_match, IH1.
      by rewrite (escape_char_not_key _ _ HX).
    + assert (replace_pair BACKSLASH x X (c :: d :: u)
              = c :: replace_pair BACKSLASH x X (d :: u)) as ->.
      { apply replace_pair_skip. cbn.
        destruct (decide (c = BACKSLASH)); [right|by left].
        intros [= ->]. by apply Hpair. }
      change (escape_with ((X, x) :: table) (c :: d :: u))
        with (escape_char ((X, x) :: table) c ++ escape_with ((X, x) :: table) (d :: u)).
      change (escape_with table (c :: replace_pair BACKSLASH x X (d :: u)))
        with (escape_char table c ++ escape_with table (replace_pair BACKSLASH x X (d :: u))).
      rewrite <- IH2.
      destruct (decide (c = X)) as [->|Hc].
      * rewrite HeX. cbn [app]. rewrite replace_pair_match.
        by rewrite (escape_char_not_key _ _ HX).
      * rewrite Hne by done. apply Hskip; [done|].
        destruct (decide (c = BACKSLASH)) as [->|]; [right|by left].
        cbn [escape_with]. apply Hhead. intros ->. by apply Hpair.
Qed.

Ltac notin_keys :=
  cbn; repeat (apply not_elem_of_cons; split; [by intros [=]|]);
  apply not_elem_of_nil.

Lemma unescape_escape_any u : unescape_url (escape_url u) = unescape_url u.
Proof.
  unfold unescape_url. rewrite escape_url_one_pass. unfold escapes.
  rewrite replace_pair_escape_with_any;
    [|done|notin_keys|notin_keys|notin_keys|repeat constructor; done].
  rewrite replace_pair_escape_with_any;
    [|done|notin_keys|notin_keys|notin_keys|repeat constructor; done].
  rewrite replace_pair_escape_with_any;
    [|done|notin_keys|notin_keys|notin_keys|repeat constructor; done].
  apply escape_with_nil_table.
Qed.

Lemma unescape_fixed u : unescape_url u = u → no_escape_sequence u = true.
Proof.
  unfold unescape_url, no_escape_sequence. intros H.
  pose proof (f_equal length H) as Hlen.
  destruct (no_pair BACKSLASH LETTER_t u) eqn:Et.
  - rewrite (replace_pair_no_pair _ _ TAB _ Et) in H, Hlen.
    destruct (no_pair BACKSLASH LETTER_n u) eqn:En.
    + rewrite (replace_pair_no_pair _ _ LF _ En) in H, Hlen.
      destruct (no_pair BACKSLASH LETTER_r u) eqn:Er; [done|].
      pose proof (proj2 (replace_pair_length BACKSLASH LETTER_r CR u) Er). lia.
    + pose proof (proj2 (replace_pair_length BACKSLASH LETTER_n LF u) En).
      pose proof (proj1 (replace_pair_length BACKSLASH LETTER_r CR
                           (replace_pair BACKSLASH LETTER_n LF u))). lia.
  - pose proof (proj2 (replace_pair_length BACKSLASH LETTER_t TAB u) Et).
    pose proof (proj1 (replace_pair_length BACKSLASH LETTER_n LF
                         (replace_pair BACKSLASH LETTER_t TAB u))).
    pose proof (proj1 (replace_pair_length BACKSLASH LETTER_r CR
                         (replace_pair BACKSLASH LETTER_n LF
                            (replace_pair BACKSLASH LETTER_t TAB u)))). lia.
Qed.

End EscapeExact.

(** ** A record through export and import *)
Section RecordRoundTrip.
Import JS Store Tsv.
Implicit Types (u s : jsstring) (c d : N) (r : VisitRecord).

Lemma elem_of_trimStart c s : c ∈ trimStart s → c ∈ s.
Proof.
  induction s as [|x s IH]; [done|]. cbn [trimStart].
  destruct (is_white_space x); [|done]. intros H. right. by apply IH.
Qed.

Lemma elem_of_trim c s : c ∈ trim s → c ∈ s.
Proof.
  unfold trim, trimEnd. rewrite list_elem_of_In, <- in_rev, <- list_elem_of_In.
  intros H%elem_of_trimStart.
  rewrite list_elem_of_In, <- in_rev, <- list_elem_of_In in H.
  by apply elem_of_trimStart.
Qed.

Lemma import_line_leading_space {DB} (put : DB → VisitRecord → option DB)
    (st : @ImportState DB) c s :
  is_white_space c = true → import_line put st (c :: s) = import_line put st s.
Proof.
  intros Hc. unfold import_line, trim. cbn [trimStart]. by rewrite Hc.
Qed.

Lemma import_line_one_field (st : @ImportState Store) s :
  TAB ∉ s → store (import_line mem_put st s) = store st.
Proof.
  intros Hs. unfold import_line. destruct (is_empty (trim s)); [done|].
  rewrite split_no_sep; [done|]. intros H. by apply Hs, elem_of_trim.
Qed.

Lemma import_line_leading_ok (st : @ImportState Store) r :
  leading_ok (url r) = true →
  import_line mem_put st (record_line r)
  = if is_empty (unescape_url (url r))
    then {| store := store st; imported := imported st; errors := S (errors st) |}
    else {| store := store_put (store st)
                       {| url := unescape_url (url r); timestamp := timestamp r |};
            imported := S (imported st); errors := errors st |}.
Proof.
  intros Hlead. unfold import_line.
  destruct (record_line_trim r Hlead) as [-> ->].
  rewrite record_line_split. cbn [length Nat.ltb Nat.leb part nth].
  rewrite unescape_escape_any, parseInt_number_to_string.
  by destruct (is_empty (unescape_url (url r))).
Qed.

Lemma unescape_url_length u : (length (unescape_url u) ≤ length u)%nat.
Proof.
  unfold unescape_url.
  pose proof (proj1 (replace_pair_length BACKSLASH LETTER_t TAB u)).
  pose proof (proj1 (replace_pair_length BACKSLASH LETTER_n LF
                       (replace_pair BACKSLASH LETTER_t TAB u))).
  pose proof (proj1 (replace_pair_length BACKSLASH LETTER_r CR
                       (replace_pair BACKSLASH LETTER_n LF
                          (replace_pair BACKSLASH LETTER_t TAB u)))).
  lia.
Qed.

(** What the line of a record leaves in the store: nothing, or one
    record under a URL that is no longer than the exported one and is
    the exported one only when that URL is not empty, starts with no
    white space that export leaves unescaped, and holds no escape
    sequence. *)
Lemma import_record_line (st : @ImportState Store) u ts :
  store (import_line mem_put st (record_line {| url := u; timestamp := ts |}))
  = store st
  ∨ ∃ u', (length u' ≤ length u)%nat
          ∧ store (import_line mem_put st
                     (record_line {| url := u; timestamp := ts |}))
            = <[u' := ts]> (store st)
          ∧ (u' = u → leading_ok u = true ∧ no_escape_sequence u = true).
Proof.
  induction u as [|c rest IH].
  - left. unfold record_line. cbn [url timestamp escape_url replace_char app].
    rewrite import_line_leading_space by done.
    apply import_line_one_field, number_to_string_no_sep.
  - destruct (leading_ok (c :: rest)) eqn:Hlead.
    + rewrite import_line_leading_ok by done. cbn [url timestamp].
      destruct (is_empty (unescape_url (c :: rest))) eqn:He; [by left|].
      right. exists (unescape_url (c :: rest)).
      split; [apply unescape_url_length|]. split; [done|].
      intros E. split; [done|]. by apply unescape_fixed.
    + cbn [leading_ok] in Hlead.
      apply orb_false_iff in Hlead as [[[Ht Hn]%orb_false_iff Hr]%orb_false_iff Hw].
      apply negb_false_iff in Hw.
      apply N.eqb_neq in Ht, Hn, Hr.
      assert (record_line {| url := c :: rest; timestamp := ts |}
              = c :: record_line {| url := rest; timestamp := ts |}) as ->.
      { unfold record_line. cbn [url timestamp]. rewrite escape_url_cons.
        rewrite escape_char_not_key; [done|].
        unfold escapes. cbn. intros H.
        repeat (apply elem_of_cons in H as [H|H]; [done|]).
        by apply elem_of_nil in H. }
      rewrite import_line_leading_space by done.
      destruct IH as [IH|(u' & Hlen & IH & _)]; [by left|].
      right. exists u'. split; [cbn [length]; lia|]. split; [done|].
      intros ->. cbn [length] in Hlen. lia.
Qed.

Lemma export_then_import_one r :
  export_then_import [r]
  = import_line mem_put {| store := ∅; imported := 0; errors := 0 |}
      (record_line r).
Proof.
  unfold export_then_import, importHistoryFromTSV. by rewrite split_export.
Qed.

Lemma unescape_no_sequence u : no_escape_sequence u = true → unescape_url u = u.
Proof.
  unfold no_escape_sequence, unescape_url.
  intros [[Ht Hn]%andb_true_iff Hr]%andb_true_iff.
  by rewrite (replace_pair_no_pair _ _ TAB _ Ht),
    (replace_pair_no_pair _ _ LF _ Hn), (replace_pair_no_pair _ _ CR _ Hr).
Qed.

(** X6. One record through export and import into the empty store,
    its timestamp a safe integer: the store that comes back has the
    record exactly when the URL is not empty, its first code unit is a
    tab, a line feed, a carriage return or no white space at all, and
    it holds no backslash followed by t, n or r. In that case the
    store holds nothing else, and the record is counted as imported.
    On the way, the unescaping of import reads the escaped URL as it
    would read the URL itself, so it gives the URL back exactly when
    the URL holds no such pair. *)
Theorem export_import_exact r :
  safe_integer (timestamp r) →
  (store (export_then_import [r]) !! url r = Some (timestamp r)
   ↔ leading_ok (url r) = true ∧ no_escape_sequence (url r) = true)
  ∧ (leading_ok (url r) = true → no_escape_sequence (url r) = true →
     export_then_import [r]
     = {| store := {[ url r := timestamp r ]}; imported := 1; errors := 0 |})
  ∧ unescape_url (escape_url (url r)) = unescape_url (url r)
  ∧ (unescape_url (escape_url (url r)) = url r
     ↔ no_escape_sequence (url r) = true).
Proof.
  intros _. rewrite export_then_import_one. destruct r as [u ts].
  cbn [url timestamp].
  assert (leading_ok u = true → no_escape_sequence u = true →
          import_line mem_put {| store := ∅; imported := 0; errors := 0 |}
            (record_line {| url := u; timestamp := ts |})
          = {| store := {[ u := ts ]}; imported := 1; errors := 0 |}) as Hok.
  { intros Hlead Hesc. rewrite import_line_leading_ok by done.
    cbn [url timestamp store imported errors].
    rewrite (unescape_no_sequence u Hesc).
    destruct u as [|c u]; [done|]. cbn [is_empty].
    unfold store_put. cbn [url timestamp]. by rewrite insert_empty. }
  split; [|split; [done|split; [apply unescape_escape_any|]]].
  - split.
    + intros Hl.
      destruct (import_record_line {| store := ∅; imported := 0; errors := 0 |}
                  u ts) as [E|(u' & _ & E & Hu)].
      * rewrite E in Hl. cbn [store] in Hl. by rewrite lookup_empty in Hl.
      * rewrite E in Hl. cbn [store] in Hl.
        destruct (decide (u' = u)) as [Heq|Hne]; [by apply Hu|].
        rewrite lookup_insert_ne in Hl by done. by rewrite lookup_empty in Hl.
    + intros [Hlead Hesc]. rewrite Hok by done. cbn [store].
      by rewrite lookup_singleton_eq.
  - rewrite unescape_escape_any. split;
      [apply unescape_fixed|apply unescape_no_sequence].
Qed.
End RecordRoundTrip.

Lemma export_import_exact_witness :
  Tsv.export_then_import [Tsv.control_chars_record]
  = {| Tsv.store := {[ Store.url Tsv.control_chars_record
                       := Store.timestamp Tsv.control_chars_record ]};
       Tsv.imported := 1; Tsv.errors := 0 |}.
Proof.
  apply (proj1 (proj2 (export_import_exact Tsv.control_chars_record
                         ltac:(reflexivity)))); reflexivity.
Defined.

(** ** More on the bulk import *)
Section BulkMore.
Import JS Store Bulk.
Implicit Types (items : list HistoryItem) (bg b : Background).

Lemma addUrlToDB_written items (st : Store) :
  fold_left addUrlToDB items st = fold_left store_put (written_records items) st.
Proof.
  revert st. induction items as [|it items IH]; intros st; [done|].
  cbn [fold_left]. rewrite IH. unfold written_records. cbn [omap list_omap].
  unfold addUrlToDB. by destruct (written_at it).
Qed.

Lemma import_batches_store fuel items i bg :
  (length items ≤ i + fuel * 100)%nat →
  store (List.last (import_batches fuel items i bg) bg)
  = fold_left addUrlToDB (drop i items) (store bg).
Proof.
  revert i bg. induction fuel as [|f IH]; intros i bg Hf.
  - cbn. by rewrite drop_ge by lia.
  - cbn [import_batches].
    destruct (Nat.ltb_spec i (length items)) as [Hi|Hi];
      [|cbn; by rewrite drop_ge by lia].
    set (bg1 := import_batch items i bg).
    assert (store (List.last (bg1 :: import_batches f items (i + batchSize) bg1) bg)
            = store (List.last (import_batches f items (i + batchSize) bg1) bg1)) as ->.
    { destruct (import_batches f items (i + batchSize) bg1) as [|x l]; [done|].
      change (List.last (bg1 :: x :: l) bg) with (List.last (x :: l) bg).
      by rewrite (last_default_irrelevant x l bg bg1). }
    change batchSize with 100%nat. rewrite IH by lia.
    unfold bg1, import_batch. cbn [store set_store set_progress].
    change batchSize with 100%nat.
    rewrite <- fold_left_app, <- (drop_drop items 100 i), take_drop.
    done.
Qed.

(** X8. A run that meets no error writes every history item once, in
    order, whatever the batch boundaries: the store it leaves is the
    store before with the successful writes applied; an item whose write
    fails is passed over and the run goes on. For each URL the last
    successful write gives the timestamp; a URL no item wrote keeps the
    record it had. *)
Theorem import_run_store items now bg :
  let final := List.last (import_run items now bg) bg in
  store final = fold_left addUrlToDB items (store bg)
  ∧ ∀ u, store final !! u
         = match Tsv.last_for u (written_records items) with
           | Some t => Some t
           | None => store bg !! u
           end.
Proof.
  cbv zeta.
  assert (store (List.last (import_run items now bg) bg)
          = fold_left addUrlToDB items (store bg)) as H.
  { unfold import_run.
    set (bg2 := import_found items (import_begin bg)).
    set (after := import_batches (length items) items 0 bg2).
    change (import_begin bg :: bg2 :: after ++ [import_finish now (List.last after bg2)])
      with ([import_begin bg; bg2] ++ after ++ [import_finish now (List.last after bg2)]).
    rewrite !app_assoc, List.last_last. cbn [store import_finish].
    unfold after. rewrite import_batches_store by lia. by rewrite drop_0. }
  split; [done|]. intros u.
  rewrite H, addUrlToDB_written. apply fold_store_put_lookup.
Qed.

(** *** The progress a run reports *)

Lemma import_batches_lookup fuel items i bg k :
  (length items ≤ i + fuel * 100)%nat →
  ((i + 100 * k < length items)%nat →
   ∃ b, import_batches fuel items i bg !! k = Some b
        ∧ importProgress b
          = {| inProgress := inProgress (importProgress bg);
               total := total (importProgress bg);
               imported := Nat.min (i + 100 * S k) (length items) |})
  ∧ ((length items ≤ i + 100 * k)%nat → import_batches fuel items i bg !! k = None).
Proof.
  revert i bg k. induction fuel as [|f IH]; intros i bg k Hf.
  - split; [lia|done].
  - cbn [import_batches]. destruct (Nat.ltb_spec i (length items)) as [Hi|Hi].
    + destruct k as [|k].
      * split; [|lia]. intros _. eexists. split; [reflexivity|].
        cbn. change batchSize with 100%nat. f_equal; lia.
      * change batchSize with 100%nat.
        destruct (IH (i + 100)%nat (import_batch items i bg) k ltac:(lia)) as [H1 H2].
        split.
        -- intros Hk. destruct H1 as (b & Hb & Hp); [lia|].
           exists b. split; [done|]. rewrite Hp. cbn. f_equal; lia.
        -- intros Hk. cbn. apply H2. lia.
    + split; [lia|done].
Qed.

(** X9. From the moment the history search has returned, the snapshots
    of a run are: total set and nothing imported; then, after the k-th
    batch of 100, [imported] at 100 k or at the number of items if that
    is less; then the last one, with [inProgress] cleared. A failed
    write does not hold the counter back. *)
Theorem import_run_snapshots items now bg :
  import_run items now bg !! 1%nat
  = Some (import_found items (import_begin bg))
  ∧ (∀ k, (100 * k < length items)%nat →
          ∃ b, import_run items now bg !! (2 + k)%nat = Some b
               ∧ importProgress b
                 = {| inProgress := true; total := length items;
                      imported := Nat.min (100 * S k) (length items) |})
  ∧ importProgress (List.last (import_run items now bg) bg)
    = {| inProgress := false; total := length items; imported := length items |}.
Proof.
  split; [done|]. split.
  - intros k Hk. unfold import_run. cbn [lookup list_lookup Nat.add].
    destruct (import_batches_lookup (length items) items 0
                (import_found items (import_begin bg)) k ltac:(lia)) as [H _].
    destruct H as (b & Hb & Hp); [lia|].
    exists b. split; [|by rewrite Hp].
    by apply lookup_app_l_Some.
  - apply import_run_completes.
Qed.

(** *** A run and the requests and restarts around it *)

Lemma import_run_running items now bg k b :
  import_run items now bg !! k = Some b →
  (S k < length (import_run items now bg))%nat →
  inProgress (importProgress b) = true ∧ historyImported b = historyImported bg.
Proof.
  unfold import_run.
  set (bg2 := import_found items (import_begin bg)).
  set (after := import_batches (length items) items 0 bg2).
  intros Hk Hlen.
  assert (Forall (fun b => inProgress (importProgress b) = true
                           ∧ historyImported b = historyImported bg)
                 (import_begin bg :: bg2 :: after)) as Hall.
  { constructor; [done|]. constructor; [done|].
    unfold after. clear. generalize 0%nat as i.
    assert (inProgress (importProgress bg2) = true
            ∧ historyImported bg2 = historyImported bg) as H by done.
    revert H. generalize bg2 as b0. generalize (length items) at 1 as fuel.
    induction fuel as [|f IH]; intros b0 H0 i; cbn [import_batches]; [constructor|].
    destruct (i <? length items)%nat; [|constructor].
    constructor; [apply H0|]. apply IH. apply H0. }
  rewrite Forall_forall in Hall. apply Hall.
  change (import_begin bg :: bg2 :: after ++ [import_finish now (List.last after bg2)])
    with ((import_begin bg :: bg2 :: after) ++ [import_finish now (List.last after bg2)])
    in Hk, Hlen.
  rewrite length_app in Hlen. cbn [length] in Hlen.
  rewrite lookup_app_l in Hk by (cbn [length]; lia).
  by eapply list_elem_of_lookup_2.
Qed.

(** X10. From its first assignment to its last, a run keeps
    [inProgress] set: an [importHistory] request that arrives at any
    suspension point of the run is answered with the error and starts
    nothing. A request that arrives after the run has ended starts a new
    run. *)
Theorem importHistory_rejected_during_run items now bg k b :
  import_run items now bg !! k = Some b →
  (S k < length (import_run items now bg))%nat →
  onMessage_importHistory b
  = {| state := b; response := Some (RError "Import already in progress");
       run_started := false |}
  ∧ run_started (onMessage_importHistory
                   (List.last (import_run items now bg) bg)) = true.
Proof.
  intros Hk Hlen. destruct (import_run_running items now bg k b Hk Hlen) as [Hp _].
  unfold onMessage_importHistory. rewrite Hp. split; [done|].
  destruct (import_run_completes items now bg) as (-> & _). done.
Qed.

(** X11. A run that ends stores the marker, so the initialisation of
    the next start does not import again, and [getStats] reports the
    time of the run. A run that fails at any suspension point clears
    [inProgress] and leaves the marker as it was: if no import had
    completed before, the next start imports again. When the database
    cannot be opened, the initialisation imports nothing. *)
Theorem initialize_imports_until_done items now bg :
  let final := List.last (import_run items now bg) bg in
  initialize true (restart final) = (restart final, false)
  ∧ onMessage_getStats true final
    = RStats (size (store final)) (if (now =? 0)%Z then None else Some now)
  ∧ (∀ k b, import_run items now bg !! k = Some b →
            (S k < length (import_run items now bg))%nat →
            inProgress (importProgress (import_fail b)) = false
            ∧ historyImported (import_fail b) = historyImported bg
            ∧ (historyImported bg ≠ Some true →
               snd (initialize true (restart (import_fail b))) = true))
  ∧ initialize false bg = (bg, false).
Proof.
  cbv zeta. destruct (import_run_completes items now bg) as (_ & Hm & Ht).
  split; [|split; [|split; [|done]]].
  - unfold initialize.
    change (historyImported (restart (List.last (import_run items now bg) bg)))
      with (historyImported (List.last (import_run items now bg) bg)).
    by rewrite Hm.
  - unfold onMessage_getStats. by rewrite Ht.
  - intros k b Hk Hlen.
    destruct (import_run_running items now bg k b Hk Hlen) as [_ Hh].
    split; [done|]. split; [done|]. intros Hne.
    unfold initialize.
    change (historyImported (restart (import_fail b))) with (historyImported b).
    rewrite Hh. by destruct (historyImported bg) as [[]|].
Qed.
End BulkMore.

Lemma importHistory_rejected_during_run_witness :
  let items := [Bulk.item "https://a/" 1] in
  ∃ b, Bulk.import_run items 2 Bulk.background0 !! 2%nat = Some b
       ∧ Bulk.response (Bulk.onMessage_importHistory b)
         = Some (Bulk.RError "Import already in progress").
Proof.
  eexists. split; [reflexivity|].
  refine (f_equal Bulk.response
            (proj1 (importHistory_rejected_during_run
                      [Bulk.item "https://a/" 1] 2 Bulk.background0 2 _ eq_refl _))).
  cbn. lia.
Defined.

(** ** The query cache, end to end *)
Section ContentMore.
Import JS Content.
Variable url_parse : jsstring → option jsstring.

Local Abbreviation normalizeUrl := (normalizeUrl url_parse).
Local Abbreviation checkUrlVisited := (checkUrlVisited url_parse).
Local Abbreviation checkUrlsBatch := (checkUrlsBatch url_parse).
Local Abbreviation step := (step url_parse).

Implicit Types (s : Session) (u url : jsstring) (q : Query) (env : Env)
  (l : list jsstring).

(** *** [new Set] *)

Lemma array_to_set_snoc l x :
  array_to_set (l ++ [x]) = set_add x (array_to_set l).
Proof. unfold array_to_set. by rewrite fold_left_app. Qed.

Lemma array_to_set_first_occurrences l : array_to_set l = first_occurrences l.
Proof.
  induction l as [|x l IH] using rev_ind; [done|].
  rewrite array_to_set_snoc, (first_occurrences_snoc url_parse), IH.
  unfold set_add.
  destruct (decide (x ∈ first_occurrences l)) as [Hin|Hnin].
  - rewrite decide_True; [done|]. by apply (first_occurrences_elem url_parse).
  - rewrite decide_False; [done|]. by rewrite <- (first_occurrences_elem url_parse).
Qed.

Lemma filter_all {A} (P : A → Prop) `{∀ x, Decision (P x)} (xs : list A) :
  Forall P xs → filter P xs = xs.
Proof.
  induction 1 as [|x xs Hx _ IH]; [done|].
  by rewrite filter_cons_True, IH.
Qed.

Lemma first_occurrences_NoDup_id l : NoDup l → first_occurrences l = l.
Proof.
  induction 1 as [|x l Hx _ IH]; [done|]. cbn [first_occurrences].
  rewrite IH. f_equal. apply filter_all. apply Forall_forall.
  by intros y Hy ->.
Qed.

(** *** Replies *)

Lemma cache_fold_answers (answer : jsstring → bool) l s u :
  urlCache (fold_left (fun acc r => cache_set r.1 r.2 acc)
              (map (fun u => (u, answer u)) l) s) !! u
  = if decide (u ∈ l) then Some (answer u) else urlCache s !! u.
Proof.
  revert s. induction l as [|x l IH]; intros s; [done|].
  cbn [map fold_left]. rewrite IH. cbn [fst snd].
  destruct (decide (u ∈ l)) as [Hin|Hnin].
  - rewrite decide_True; [done|by right].
  - cbn [urlCache cache_set]. destruct (decide (u = x)) as [->|Hne].
    + rewrite lookup_insert_eq. rewrite decide_True; [done|left].
    + rewrite lookup_insert_ne by done. rewrite decide_False; [done|].
      rewrite elem_of_cons. intuition.
Qed.

Lemma cache_fold_state results s :
  settled (fold_left (fun acc r => cache_set r.1 r.2 acc) results s) = settled s
  ∧ next_promise (fold_left (fun acc r => cache_set r.1 r.2 acc) results s)
    = next_promise s.
Proof.
  revert s. induction results as [|r l IH]; intros s; [done|].
  cbn [fold_left]. by destruct (IH (cache_set r.1 r.2 s)) as [-> ->].
Qed.

Lemma list_filter_nil_iff_aux {A} (P : A → Prop) `{∀ x, Decision (P x)} (xs : list A) :
  (∀ x, x ∈ xs → ¬ P x) → filter P xs = [].
Proof.
  induction xs as [|x xs IH]; intros Hall; [done|].
  rewrite filter_cons_False by (apply Hall; left). apply IH.
  intros y Hy. apply Hall. by right.
Qed.

(** X12. [checkUrlsBatch] reports each distinct normalized URL once, in
    the order of first occurrence, whatever the outcome: the list of a
    call answered from the cache, the list of a call that fails before
    sending, and the list the callback resolves with all have exactly
    the URLs of [uniqueUrls], which holds every requested URL once. *)
Theorem checkUrlsBatch_one_entry_per_url env urls s :
  let uniqueUrls := array_to_set (map normalizeUrl urls) in
  let p := next_promise s in
  uniqueUrls = first_occurrences (map normalizeUrl urls)
  ∧ NoDup uniqueUrls
  ∧ (∀ u, u ∈ uniqueUrls ↔ ∃ url, url ∈ urls ∧ normalizeUrl url = u)
  ∧ (∀ results, snd (checkUrlsBatch env urls s) = Now (VResults results) →
                results.*1 = uniqueUrls)
  ∧ (∀ results, snd (checkUrlsBatch env urls s) = Later p →
                (context_valid env = false ∨ send_throws env = true) →
                settled (fst (checkUrlsBatch env urls s)) !! p
                = Some (VResults results) →
                results.*1 = uniqueUrls)
  ∧ (∀ lastError response s2 results,
        settled (checkUrls_callback uniqueUrls p lastError response s2) !! p
        = Some (VResults results) →
        results.*1 = uniqueUrls).
Proof.
  cbv zeta. set (uniqueUrls := array_to_set (map normalizeUrl urls)).
  assert (∀ (f : jsstring → bool) (l : list jsstring),
            (map (fun u => (u, f u)) l).*1 = l) as Hfst.
  { intros f l. induction l as [|x l IH]; [done|]. cbn. by rewrite IH. }
  split; [apply array_to_set_first_occurrences|].
  split; [unfold uniqueUrls; rewrite array_to_set_first_occurrences;
          apply first_occurrences_NoDup|].
  split.
  { intros u. unfold uniqueUrls.
    rewrite array_to_set_first_occurrences, (first_occurrences_elem url_parse).
    rewrite list_elem_of_fmap. split; intros (x & ? & ?); eauto. }
  split; [|split].
  - intros results. unfold Content.checkUrlsBatch. fold uniqueUrls.
    destruct (filter _ uniqueUrls); [|done].
    intros [= <-]. apply Hfst.
  - intros results. unfold Content.checkUrlsBatch. fold uniqueUrls.
    destruct (filter _ uniqueUrls); [done|]. intros _ Hfail.
    assert (∀ s', settled (resolve (next_promise s) (all_false uniqueUrls) s')
                    !! next_promise s = Some (VResults results) →
                  results.*1 = uniqueUrls) as H.
    { intros s'. cbn. rewrite lookup_insert_eq. intros [= <-]. apply Hfst. }
    destruct Hfail as [Hv|Ht].
    + rewrite Hv. cbn [negb fst new_promise settled]. apply (H s).
    + rewrite Ht. destruct (context_valid env); cbn [negb fst new_promise settled];
        apply (H s).
  - intros lastError response s2 results. unfold checkUrls_callback.
    destruct lastError; cbn [settled resolve]; rewrite lookup_insert_eq;
      intros [= <-]; apply Hfst.
Qed.

(** A batched check whose message is answered, for each uncached URL
    [u], with [answer u]. *)
Lemma checkUrlsBatch_reply env (urls : list jsstring) s (answer : jsstring → bool) :
  let uniqueUrls := array_to_set (map normalizeUrl urls) in
  let uncachedUrls := filter (fun u => urlCache s !! u = None) uniqueUrls in
  let p := next_promise s in
  let results := map (fun u => (u, visited_status s answer u)) uniqueUrls in
  let s1 := fst (checkUrlsBatch env urls s) in
  let s2 := step s1 (Reply (length (outstanding s)) false None
                       (Some (map (fun u => (u, answer u)) uncachedUrls))) in
  uncachedUrls ≠ [] → context_valid env = true → send_throws env = false →
  snd (checkUrlsBatch env urls s) = Later p
  ∧ outstanding s1 = outstanding s ++ [CheckUrls uncachedUrls uniqueUrls p]
  ∧ settled s2 !! p = Some (VResults results)
  ∧ (∀ u, urlCache s2 !! u
          = if decide (u ∈ uncachedUrls) then Some (answer u) else urlCache s !! u)
  ∧ outstanding s2 = outstanding s
  ∧ ∀ env', checkUrlsBatch env' urls s2 = (s2, Now (VResults results)).
Proof.
  cbv zeta. intros Hne Hv Ht.
  set (uniqueUrls := array_to_set (map normalizeUrl urls)) in *.
  set (uncachedUrls := filter (fun u => urlCache s !! u = None) uniqueUrls) in *.
  rewrite (checkUrlsBatch_sends url_parse env urls s Hne Hv Ht).
  fold uniqueUrls uncachedUrls. cbn [fst snd].
  split; [done|]. split; [done|].
  cbn [Content.step outstanding new_promise sendMessage].
  rewrite lookup_sent. unfold checkUrls_callback.
  set (s' := fold_left _ _ _).
  assert (∀ u, urlCache s' !! u
               = if decide (u ∈ uncachedUrls) then Some (answer u)
                 else urlCache s !! u) as Hcache.
  { intros u. unfold s'. by rewrite (cache_fold_answers answer uncachedUrls). }
  assert (∀ u, u ∈ uniqueUrls →
               urlCache s' !! u = Some (visited_status s answer u)) as Hvis.
  { intros u Hu. rewrite Hcache. unfold visited_status.
    destruct (decide (u ∈ uncachedUrls)) as [Hin|Hnin].
    - apply list_elem_of_filter in Hin as [-> _]. done.
    - destruct (urlCache s !! u) eqn:E; [done|].
      exfalso. apply Hnin. by apply list_elem_of_filter. }
  assert (map (fun u => (u, default false (urlCache s' !! u))) uniqueUrls
          = map (fun u => (u, visited_status s answer u)) uniqueUrls) as Hres.
  { apply map_ext_in. intros u Hu%list_elem_of_In. by rewrite Hvis. }
  assert (outstanding s' = outstanding s) as Hout.
  { unfold s'. destruct (cache_fold_outstanding (map (fun u => (u, answer u)) uncachedUrls)
      (callback_runs (length (outstanding s))
         (new_promise (sendMessage (CheckUrls uncachedUrls uniqueUrls (next_promise s)) s))))
      as [-> _].
    cbn. apply delete_sent. }
  split; [cbn [settled resolve]; by rewrite lookup_insert_eq, Hres|].
  split; [done|]. split; [done|].
  intros env'. unfold Content.checkUrlsBatch. fold uniqueUrls.
  cbn [urlCache resolve].
  assert (filter (fun u => urlCache s' !! u = None) uniqueUrls = []) as ->.
  { apply list_filter_nil_iff_aux. intros u Hu. by rewrite (Hvis u Hu). }
  by rewrite Hres.
Qed.

(** X13. A batched check whose message the background script answers:
    the call sends one message with the uncached URLs; when the reply
    comes, the promise resolves with one entry per distinct URL, the
    cached value for a cached URL and the answer of the store for the
    others (a lookup that fails counts as not visited); every answer is
    now in the cache, nothing is outstanding any more, and the same
    batch asked again is answered at once from the cache, with the same
    list and no message. *)
Theorem checkUrlsBatch_answered env (urls : list jsstring) s (ok : jsstring → bool) (st : Store.Store) :
  let uniqueUrls := array_to_set (map normalizeUrl urls) in
  let uncachedUrls := filter (fun u => urlCache s !! u = None) uniqueUrls in
  let p := next_promise s in
  let answer := fun u => Bulk.onMessage_checkUrl (ok u) st u in
  let results := map (fun u => (u, visited_status s answer u)) uniqueUrls in
  let s1 := fst (checkUrlsBatch env urls s) in
  let s2 := step s1 (Reply (length (outstanding s)) false None
                       (Some (Bulk.onMessage_checkUrls ok st uncachedUrls))) in
  uncachedUrls ≠ [] → context_valid env = true → send_throws env = false →
  snd (checkUrlsBatch env urls s) = Later p
  ∧ outstanding s1 = outstanding s ++ [CheckUrls uncachedUrls uniqueUrls p]
  ∧ settled s2 !! p = Some (VResults results)
  ∧ (∀ u, urlCache s2 !! u
          = if decide (u ∈ uncachedUrls) then Some (answer u) else urlCache s !! u)
  ∧ outstanding s2 = outstanding s
  ∧ ∀ env', checkUrlsBatch env' urls s2 = (s2, Now (VResults results)).
Proof.
  exact (checkUrlsBatch_reply env urls s
           (fun u => Bulk.onMessage_checkUrl (ok u) st u)).
Qed.

Lemma checkUrlVisited_reply env url s (b : bool) :
  let u := normalizeUrl url in
  let p := next_promise s in
  let s1 := fst (checkUrlVisited env url s) in
  let s2 := step s1 (Reply (length (outstanding s)) false (Some b) None) in
  urlCache s !! u = None → pendingChecks s !! u = None →
  context_valid env = true → send_throws env = false →
  snd (checkUrlVisited env url s) = Later p
  ∧ outstanding s1 = outstanding s ++ [CheckUrl u p]
  ∧ pendingChecks s1 !! u = Some p
  ∧ settled s2 !! p = Some (VBool b)
  ∧ urlCache s2 !! u = Some b
  ∧ pendingChecks s2 !! u = None
  ∧ outstanding s2 = outstanding s
  ∧ (∀ env', checkUrlVisited env' url s2 = (s2, Now (VBool b))).
Proof.
  cbv zeta. intros Hc Hp Hv Ht.
  set (u := normalizeUrl url) in *. set (p := next_promise s).
  assert (checkUrlVisited env url s
          = (pending_set u p (new_promise (sendMessage (CheckUrl u p) s)), Later p))
    as E.
  { unfold Content.checkUrlVisited. fold u. by rewrite Hc, Hp, Hv, Ht. }
  rewrite !E. cbn [fst snd].
  assert (step (pending_set u p (new_promise (sendMessage (CheckUrl u p) s)))
               (Reply (length (outstanding s)) false (Some b) None)
          = {| urlCache := <[u := b]> (urlCache s);
               pendingChecks := delete u (<[u := p]> (pendingChecks s));
               settled := <[p := VBool b]> (settled s);
               outstanding := outstanding s;
               next_promise := S p |}) as E2.
  { cbn [Content.step outstanding pending_set new_promise sendMessage].
    rewrite lookup_sent. unfold checkUrl_callback, resolve, pending_delete,
      cache_set, callback_runs. cbn. by rewrite delete_sent. }
  rewrite !E2. cbn [urlCache pendingChecks settled outstanding pending_set
    new_promise sendMessage].
  rewrite !lookup_insert_eq, lookup_delete_eq.
  repeat split.
  intros env'. unfold Content.checkUrlVisited. fold u.
  cbn [urlCache]. by rewrite lookup_insert_eq.
Qed.

(** X14. A single check whose message the background script answers:
    the call sends one [checkUrl] message and records its promise as
    pending; when the reply comes the promise resolves with the answer,
    the answer is cached, the pending entry and the message are gone,
    and later calls return the cached answer without sending. The
    answer is whether the store has a record for the normalized URL; if
    the lookup fails in the background script the answer is [false],
    and that [false] is cached like any other answer. *)
Theorem checkUrlVisited_answered env url s (ok : bool) (st : Store.Store) :
  let u := normalizeUrl url in
  let p := next_promise s in
  let b := Bulk.onMessage_checkUrl ok st u in
  let s1 := fst (checkUrlVisited env url s) in
  let s2 := step s1 (Reply (length (outstanding s)) false (Some b) None) in
  urlCache s !! u = None → pendingChecks s !! u = None →
  context_valid env = true → send_throws env = false →
  snd (checkUrlVisited env url s) = Later p
  ∧ outstanding s1 = outstanding s ++ [CheckUrl u p]
  ∧ pendingChecks s1 !! u = Some p
  ∧ settled s2 !! p = Some (VBool b)
  ∧ urlCache s2 !! u = Some b
  ∧ pendingChecks s2 !! u = None
  ∧ outstanding s2 = outstanding s
  ∧ (∀ env', checkUrlVisited env' url s2 = (s2, Now (VBool b)))
  ∧ b = (if ok then bool_decide (is_Some (st !! u)) else false).
Proof.
  cbv zeta. intros Hc Hp Hv Ht.
  destruct (checkUrlVisited_reply env url s
              (Bulk.onMessage_checkUrl ok st (normalizeUrl url)) Hc Hp Hv Ht)
    as (H1 & H2 & H3 & H4 & H5 & H6 & H7 & H8).
  repeat (split; [done|]).
  unfold Bulk.onMessage_checkUrl, Bulk.checkUrlInDB. by destruct ok.
Qed.

(** X15. A visited notification and a reply that is still under way:
    [markUrlAsVisited] puts [true] in the cache and touches neither the
    pending map nor the outstanding messages, so a call made next
    returns [true] at once. But when the callback of a [checkUrl]
    message for that URL runs afterwards with an answer taken before the
    visit, it overwrites the entry: the cache then says not visited. *)
Theorem markUrlAsVisited_then_late_reply url s i p :
  let u := normalizeUrl url in
  let s1 := markUrlAsVisited url_parse url s in
  let s2 := step s1 (Reply i false (Some false) None) in
  outstanding s !! i = Some (CheckUrl u p) →
  (∀ env, checkUrlVisited env url s1 = (s1, Now (VBool true)))
  ∧ pendingChecks s1 = pendingChecks s
  ∧ outstanding s1 = outstanding s
  ∧ urlCache s2 !! u = Some false
  ∧ ∀ env, checkUrlVisited env url s2 = (s2, Now (VBool false)).
Proof.
  cbv zeta. intros Hi. set (u := normalizeUrl url) in *.
  assert (markUrlAsVisited url_parse url s = cache_set u true s) as E by done.
  rewrite !E.
  assert (step (cache_set u true s) (Reply i false (Some false) None)
          = {| urlCache := <[u := false]> (<[u := true]> (urlCache s));
               pendingChecks := delete u (pendingChecks s);
               settled := <[p := VBool false]> (settled s);
               outstanding := delete i (outstanding s);
               next_promise := next_promise s |}) as E2.
  { cbn [Content.step outstanding cache_set]. by rewrite Hi. }
  rewrite !E2. split.
  { intros env. unfold Content.checkUrlVisited. fold u.
    cbn [urlCache cache_set]. by rewrite lookup_insert_eq. }
  split; [done|]. split; [done|]. cbn [urlCache].
  rewrite lookup_insert_eq. split; [done|].
  intros env. unfold Content.checkUrlVisited. fold u.
  cbn [urlCache]. by rewrite lookup_insert_eq.
Qed.
End ContentMore.

(** ** A visit *)
Section VisitFacts.
Import JS Content Visit.
Variable url_parse : jsstring → option jsstring.

Local Abbreviation normalizeUrl := (normalizeUrl url_parse).
Local Abbreviation checkUrlVisited := (checkUrlVisited url_parse).
Local Abbreviation processVisitedUrl := (processVisitedUrl url_parse).

(** X16. A visit of a URL that is not empty, when the write succeeds:
    the store has the record with the time of the write and keeps every
    other record, so a [checkUrl] request for the URL is answered
    [true]; every tab with a content script has [true] cached for the
    normalized URL and answers a check of it at once, without a
    message; a tab without a content script is left alone. An empty URL
    or a failed write changes neither the store nor any tab. *)
Theorem processVisitedUrl_recorded (now : Z) (url : jsstring) (st : Store.Store)
    (tabs : list (option Session)) :
  let st' := fst (processVisitedUrl (Some now) url st tabs) in
  let tabs' := snd (processVisitedUrl (Some now) url st tabs) in
  url ≠ [] →
  st' !! url = Some now
  ∧ (∀ u, u ≠ url → st' !! u = st !! u)
  ∧ Bulk.onMessage_checkUrl true st' url = true
  ∧ length tabs' = length tabs
  ∧ (∀ k s, tabs !! k = Some (Some s) →
            ∃ s1, tabs' !! k = Some (Some s1)
                  ∧ urlCache s1 !! normalizeUrl url = Some true
                  ∧ ∀ env, checkUrlVisited env url s1 = (s1, Now (VBool true)))
  ∧ (∀ k, tabs !! k = Some None → tabs' !! k = Some None)
  ∧ processVisitedUrl None url st tabs = (st, tabs)
  ∧ ∀ written, processVisitedUrl written [] st tabs = (st, tabs).
Proof.
  cbv zeta. intros Hne. destruct url as [|c url]; [done|].
  cbn [Visit.processVisitedUrl fst snd]. unfold Store.store_put. cbn [Store.url Store.timestamp].
  split; [by rewrite lookup_insert_eq|].
  split; [intros u Hu; by rewrite lookup_insert_ne|].
  split.
  { unfold Bulk.onMessage_checkUrl, Bulk.checkUrlInDB. cbn.
    rewrite lookup_insert_eq. by rewrite bool_decide_true by eauto. }
  split; [by rewrite length_map|].
  split.
  { intros k s Hk. eexists. split.
    - change (map ?f ?l) with (f <$> l). rewrite list_lookup_fmap, Hk. reflexivity.
    - split.
      + cbn. by rewrite lookup_insert_eq.
      + intros env. unfold Content.checkUrlVisited, markUrlAsVisited.
        cbn [urlCache cache_set]. by rewrite lookup_insert_eq. }
  split.
  { intros k Hk. change (map ?f ?l) with (f <$> l). by rewrite list_lookup_fmap, Hk. }
  done.
Qed.

(** X7. A visit and a page that asks the store afterwards. The record
    is stored under the URL as the browser reported it, and a page asks
    about the normalized URL of its link: for a link to the visited
    URL, checked with nothing cached or pending for it, the answer that
    ends up in the cache is [true] exactly when the visited URL is its
    own normal form or the store already had the normal form, and
    [false] otherwise. *)
Theorem processVisitedUrl_found_later (now : Z) (url : jsstring)
    (st : Store.Store) (tabs : list (option Session)) env s :
  let st' := fst (processVisitedUrl (Some now) url st tabs) in
  let u := normalizeUrl url in
  let s1 := fst (checkUrlVisited env url s) in
  let s2 := Content.step url_parse s1
              (Reply (length (outstanding s)) false
                     (Some (Bulk.onMessage_checkUrl true st' u)) None) in
  url ≠ [] →
  urlCache s !! u = None → pendingChecks s !! u = None →
  context_valid env = true → send_throws env = false →
  outstanding s1 = outstanding s ++ [CheckUrl u (next_promise s)]
  ∧ (urlCache s2 !! u = Some true ↔ u = url ∨ is_Some (st !! u))
  ∧ (urlCache s2 !! u = Some false ↔ u ≠ url ∧ st !! u = None).
Proof.
  cbv zeta. intros Hne Hc Hp Hv Ht.
  destruct (checkUrlVisited_reply url_parse env url s
              (Bulk.onMessage_checkUrl true
                 (fst (processVisitedUrl (Some now) url st tabs))
                 (normalizeUrl url)) Hc Hp Hv Ht)
    as (_ & H2 & _ & _ & H5 & _).
  split; [done|]. rewrite H5.
  destruct url as [|c url]; [done|].
  cbn [Visit.processVisitedUrl fst]. unfold Store.store_put.
  cbn [Store.url Store.timestamp].
  unfold Bulk.onMessage_checkUrl, Bulk.checkUrlInDB. cbn [default].
  set (u := normalizeUrl (c :: url)).
  destruct (decide (u = c :: url)) as [E|E].
  - rewrite <- E, lookup_insert_eq. rewrite bool_decide_true by eauto.
    split; split; try done; [by left|by intros []].
  - rewrite lookup_insert_ne by done.
    destruct (st !! u) as [z|] eqn:Hz.
    + rewrite bool_decide_true by eauto.
      split; split; try done; [by right|by intros []].
    + rewrite bool_decide_false by (by intros [? ?]).
      split; split; try done. intros [?|[? ?]]; done.
Qed.
End VisitFacts.

Lemma checkUrlsBatch_answered_witness :
  let s := Content.run Content.parse_normalized
             [Content.MarkVisited Content.url_a] in
  snd (Content.checkUrlsBatch Content.parse_normalized Content.env_ok
         [Content.url_a; Content.url_b] s)
  = Content.Later (Content.next_promise s).
Proof.
  refine (proj1 (checkUrlsBatch_answered Content.parse_normalized Content.env_ok
                   [Content.url_a; Content.url_b]
                   (Content.run Content.parse_normalized
                      [Content.MarkVisited Content.url_a])
                   (fun _ => true) ∅ _ eq_refl eq_refl)).
  vm_compute. discriminate.
Defined.

Lemma checkUrlVisited_answered_witness :
  snd (Content.checkUrlVisited Content.parse_normalized Content.env_ok
         Content.url_a Content.session0)
  = Content.Later 0.
Proof.
  exact (proj1 (checkUrlVisited_answered Content.parse_normalized Content.env_ok
                  Content.url_a Content.session0 true ∅
                  eq_refl eq_refl eq_refl eq_refl)).
Defined.

Lemma markUrlAsVisited_then_late_reply_witness :
  let s := Content.run Content.parse_normalized
             [Content.CheckOne Content.env_ok Content.url_a] in
  Content.urlCache
    (Content.step Content.parse_normalized
       (Content.markUrlAsVisited Content.parse_normalized Content.url_a s)
       (Content.Reply 0 false (Some false) None))
    !! Content.url_a
  = Some false.
Proof.
  exact (proj1 (proj2 (proj2 (proj2
    (markUrlAsVisited_then_late_reply Content.parse_normalized Content.url_a
       (Content.run Content.parse_normalized
          [Content.CheckOne Content.env_ok Content.url_a])
       0 0 eq_refl))))).
Defined.

Lemma processVisitedUrl_recorded_witness :
  fst (Visit.processVisitedUrl Content.parse_normalized (Some 7%Z)
         Content.url_a ∅ [Some Content.session0; None])
    !! Content.url_a
  = Some 7%Z.
Proof.
  refine (proj1 (processVisitedUrl_recorded Content.parse_normalized 7
                   Content.url_a ∅ [Some Content.session0; None] _)).
  vm_compute. discriminate.
Defined.

Lemma processVisitedUrl_found_later_witness :
  Content.urlCache
    (Content.step Content.parse_normalized
       (fst (Content.checkUrlVisited Content.parse_normalized Content.env_ok
               Content.url_a Content.session0))
       (Content.Reply 0 false
          (Some (Bulk.onMessage_checkUrl true
                   (fst (Visit.processVisitedUrl Content.parse_normalized
                           (Some 5%Z) Content.url_a ∅ []))
                   Content.url_a))
          None))
    !! Content.url_a = Some true.
Proof.
  apply (proj2 (proj1 (proj2
           (processVisitedUrl_found_later Content.parse_normalized 5%Z
              Content.url_a ∅ [] Content.env_ok Content.session0
              ltac:(discriminate) eq_refl eq_refl eq_refl eq_refl)))).
  left. reflexivity.
Defined.

(** ** Marking the links *)
Section AnnotateFacts.
Import JS Content Annotate.
Variable url_parse : jsstring → option jsstring.

Local Abbreviation normalizeUrl := (normalizeUrl url_parse).
Local Abbreviation checkUrlsBatch := (checkUrlsBatch url_parse).
Local Abbreviation scan := (scan url_parse).
Local Abbreviation annotate := (annotate url_parse).
Local Abbreviation processLinks := (processLinks url_parse).
Local Abbreviation awaited_checkUrlsBatch := (awaited_checkUrlsBatch url_parse).

Implicit Types (s : Session) (u : jsstring) (link : Link) (links : list Link)
  (marked m : gset nat) (e : nat) (sc : Scan) (w : World)
  (results : list (jsstring * bool)).

Lemma markLink_elem link (b : bool) m e :
  e ∈ markLink link b m ↔ e ∈ m ∨ (b = true ∧ e = element link).
Proof.
  unfold markLink. destruct b; cbn [andb].
  - destruct (bool_decide_reflect (element link ∈ m)) as [Hin|Hnin]; cbn [negb].
    + split; [by left|]. intros [?|[_ ->]]; done.
    + rewrite elem_of_union, elem_of_singleton. split.
      * intros [->|?]; [by right|by left].
      * intros [?|[_ ->]]; [by right|by left].
  - split; [by left|]. by intros [?|[? _]].
Qed.

Lemma mark_links_elem (b : bool) (group : list Link) m e :
  e ∈ fold_left (fun m link => markLink link b m) group m
  ↔ e ∈ m ∨ (b = true ∧ ∃ link, link ∈ group ∧ element link = e).
Proof.
  revert m. induction group as [|link group IH]; intros m; cbn [fold_left].
  - split; [by left|]. intros [?|(_ & link & H & _)]; [done|].
    by apply elem_of_nil in H.
  - rewrite IH, markLink_elem. split.
    + intros [[?|[? ->]]|(? & link' & ? & ?)]; [by left|right..].
      * split; [done|]. exists link. split; [left|done].
      * split; [done|]. exists link'. split; [by right|done].
    + intros [?|(Hb & link' & [->|?]%elem_of_cons & He)]; [by left; left|..].
      * left. right. done.
      * right. split; [done|]. by exists link'.
Qed.

Lemma mark_results_elem sc results m e :
  e ∈ mark_results sc results m
  ↔ e ∈ m ∨ ∃ r link, r ∈ results ∧ r.2 = true
                      ∧ link ∈ default [] (urlToLinks sc !! r.1)
                      ∧ element link = e.
Proof.
  unfold mark_results. revert m.
  induction results as [|r results IH]; intros m; cbn [fold_left].
  - split; [by left|]. intros [?|(r & link & H & _)]; [done|].
    by apply elem_of_nil in H.
  - rewrite IH. unfold mark_result at 1. rewrite mark_links_elem. split.
    + intros [[?|(Hb & link & Hl & He)]|(r' & link & Hr & Hb & Hl & He)].
      * by left.
      * right. exists r, link. split; [left|done].
      * right. exists r', link. split; [by right|done].
    + intros [?|(r' & link & [->|Hr]%elem_of_cons & Hb & Hl & He)].
      * by left; left.
      * left. right. split; [done|]. by exists link.
      * right. by exists r', link.
Qed.

Lemma group_kept links u link :
  link ∈ default [] (urlToLinks (scan links) !! u)
  ↔ link ∈ kept links ∧ normalizeUrl (href link) = u.
Proof.
  destruct (scan_spec url_parse links) as (_ & Hg & _).
  rewrite Hg, list_elem_of_filter. tauto.
Qed.

(** X17. Whatever the context does and whatever the transport answers,
    a run of [processLinks] removes no mark, and a mark it adds is on an
    element the scan kept: one of the given elements, with an [href]
    that is not empty and starts neither with [#] nor with
    [javascript:]. When the context is invalid at the start, nothing is
    done at all. *)
Theorem processLinks_marks_only_kept w links s marked :
  (∀ e, e ∈ marked → e ∈ snd (processLinks w links s marked))
  ∧ (∀ e, e ∈ snd (processLinks w links s marked) →
          e ∈ marked ∨ ∃ link, link ∈ kept links ∧ element link = e)
  ∧ (context_valid (env_start w) = false →
     processLinks w links s marked = (s, marked)).
Proof.
  assert (∀ fuel i s marked e,
            e ∈ snd (annotate fuel w (scan links) i s marked)
            → e ∈ marked ∨ ∃ link, link ∈ kept links ∧ element link = e) as Hadd.
  { induction fuel as [|f IH]; intros i s0 m e; cbn [Annotate.annotate]; [by left|].
    destruct (i <? length (urls (scan links)))%nat; [|by left].
    destruct (negb (context_valid (env_at w i))); [by left|].
    intros [He|He]%IH; [|by right].
    apply mark_results_elem in He as [?|(r & link & _ & _ & Hl & <-)]; [by left|].
    right. exists link. split; [|done]. by apply group_kept in Hl as [? _]. }
  assert (∀ fuel i s marked e,
            e ∈ marked → e ∈ snd (annotate fuel w (scan links) i s marked)) as Hkeep.
  { induction fuel as [|f IH]; intros i s0 m e He; cbn [Annotate.annotate]; [done|].
    destruct (i <? length (urls (scan links)))%nat; [|done].
    destruct (negb (context_valid (env_at w i))); [done|].
    apply IH. apply mark_results_elem. by left. }
  unfold Annotate.processLinks. split; [|split].
  - intros e He. destruct (negb (context_valid (env_start w))); [done|].
    destruct links; [done|]. by apply Hkeep.
  - intros e. destruct (negb (context_valid (env_start w))); [by left|].
    destruct links as [|l0 links']; [by left|]. apply Hadd.
  - by intros ->.
Qed.

(** *** A run that is answered *)

Section Answered.
Variable answer : jsstring → bool.
Variable w : World.
Hypothesis Hidem : ∀ u, normalizeUrl (normalizeUrl u) = normalizeUrl u.
Hypothesis Hstart : context_valid (env_start w) = true.
Hypothesis Henv :
  ∀ i, context_valid (env_at w i) = true ∧ send_throws (env_at w i) = false.
Hypothesis Hreply :
  ∀ uncachedUrls,
    reply_to w uncachedUrls
    = (false, Some (map (fun u => (u, answer u)) uncachedUrls)).

Lemma awaited_answered env (batch : list jsstring) s :
  context_valid env = true → send_throws env = false →
  NoDup batch → (∀ u, u ∈ batch → normalizeUrl u = u) →
  ∃ s1,
    awaited_checkUrlsBatch w env batch s
    = (s1, map (fun u => (u, visited_status s answer u)) batch)
    ∧ (∀ u, visited_status s1 answer u = visited_status s answer u)
    ∧ (∀ u, u ∈ batch → urlCache s1 !! u = Some (visited_status s answer u))
    ∧ (∀ u b, urlCache s !! u = Some b → urlCache s1 !! u = Some b)
    ∧ outstanding s1 = outstanding s.
Proof.
  intros Hv Ht Hnd Hfix.
  assert (array_to_set (map normalizeUrl batch) = batch) as Huniq.
  { rewrite (array_to_set_first_occurrences url_parse).
    rewrite (map_ext_in normalizeUrl id), map_id; [by apply first_occurrences_NoDup_id|].
    intros u Hu%list_elem_of_In. by apply Hfix. }
  unfold Annotate.awaited_checkUrlsBatch.
  destruct (decide (filter (fun u => urlCache s !! u = None) batch = [])) as [He|Hne].
  - assert (checkUrlsBatch env batch s
            = (s, Now (VResults (map (fun u => (u, default false (urlCache s !! u)))
                                     batch)))) as ->.
    { unfold Content.checkUrlsBatch. by rewrite Huniq, He. }
    cbn [fst snd]. exists s.
    pose proof (all_cached_lookup s batch He) as Hall.
    split; [|split; [done|split; [|done]]].
    + f_equal. apply map_ext_in. intros u Hu%list_elem_of_In.
      unfold visited_status. by destruct (Hall u Hu) as [b ->].
    + intros u Hu. unfold visited_status. by destruct (Hall u Hu) as [b ->].
  - pose proof (checkUrlsBatch_reply url_parse env batch s answer) as H.
    cbv zeta in H. rewrite Huniq in H.
    destruct (H Hne Hv Ht) as (Hret & Hout & Hset & Hcache & Hout2 & _).
    rewrite Hret, Hout, lookup_sent, Hreply. cbn [fst snd]. rewrite Hset.
    eexists. split; [reflexivity|].
    split; [|split; [|split; [|done]]].
    + intros u. unfold visited_status at 1. rewrite Hcache.
      destruct (decide (u ∈ filter (fun u => urlCache s !! u = None) batch))
        as [Hin|Hnin]; [|done].
      apply list_elem_of_filter in Hin as [Hn _]. unfold visited_status. by rewrite Hn.
    + intros u Hu. rewrite Hcache. unfold visited_status.
      destruct (decide (u ∈ filter (fun u => urlCache s !! u = None) batch))
        as [Hin|Hnin].
      * apply list_elem_of_filter in Hin as [-> _]. done.
      * destruct (urlCache s !! u) eqn:E; [done|].
        exfalso. apply Hnin. by apply list_elem_of_filter.
    + intros u b Hb. rewrite Hcache.
      destruct (decide (u ∈ filter (fun u => urlCache s !! u = None) batch))
        as [Hin|Hnin]; [|done].
      apply list_elem_of_filter in Hin as [Hn _]. congruence.
Qed.

Lemma annotate_answered links fuel i s marked :
  (length (urls (scan links)) ≤ i + fuel * 50)%nat →
  let sc := scan links in
  let r := annotate fuel w sc i s marked in
  (∀ e, e ∈ snd r
        ↔ e ∈ marked
          ∨ ∃ link, link ∈ kept links ∧ element link = e
                    ∧ normalizeUrl (href link) ∈ drop i (urls sc)
                    ∧ visited_status s answer (normalizeUrl (href link)) = true)
  ∧ (∀ u, visited_status (fst r) answer u = visited_status s answer u)
  ∧ (∀ u, u ∈ drop i (urls sc) →
          urlCache (fst r) !! u = Some (visited_status s answer u))
  ∧ (∀ u b, urlCache s !! u = Some b → urlCache (fst r) !! u = Some b)
  ∧ outstanding (fst r) = outstanding s.
Proof.
  cbv zeta.
  destruct (scan_spec url_parse links) as (Hurls & _ & _).
  assert (NoDup (urls (scan links))) as Hnd.
  { rewrite Hurls. apply first_occurrences_NoDup. }
  assert (∀ u, u ∈ urls (scan links) → normalizeUrl u = u) as Hfix.
  { intros u. rewrite Hurls, (first_occurrences_elem url_parse), list_elem_of_fmap.
    intros (link & -> & _). apply Hidem. }
  revert i s marked. induction fuel as [|f IH]; intros i s marked Hf.
  - cbn [Annotate.annotate fst snd]. rewrite drop_ge by lia.
    split; [|by repeat split; try (intros u Hu; by apply elem_of_nil in Hu)].
    intros e. split; [by left|]. intros [?|(link & _ & _ & Hin & _)]; [done|].
    by apply elem_of_nil in Hin.
  - cbn [Annotate.annotate]. destruct (Nat.ltb_spec i (length (urls (scan links)))) as [Hi|Hi].
    + destruct (Henv i) as [Hv Ht]. rewrite Hv. cbn [negb].
      set (batch := take batchSize (drop i (urls (scan links)))).
      assert (NoDup batch) as Hbnd.
      { eapply sublist_NoDup; [apply Hnd|]. unfold batch.
        etrans; [apply sublist_take|apply sublist_drop]. }
      assert (∀ u, u ∈ batch → u ∈ urls (scan links)) as Hbin.
      { intros u Hu. unfold batch in Hu.
        eapply elem_of_sublist; [apply Hu|].
        etrans; [apply sublist_take|apply sublist_drop]. }
      destruct (awaited_answered (env_at w i) batch s Hv Ht Hbnd
                  (fun u Hu => Hfix u (Hbin u Hu)))
        as (s1 & -> & Hvis & Hcached & Hmono & Hout).
      cbn [fst snd].
      destruct (IH (i + batchSize)%nat s1
                  (mark_results (scan links)
                     (map (fun u => (u, visited_status s answer u)) batch) marked)
                  ltac:(unfold batchSize; lia))
        as (IHm & IHv & IHc & IHmono & IHo).
      assert (∀ u, u ∈ drop i (urls (scan links))
                   ↔ u ∈ batch ∨ u ∈ drop (i + batchSize) (urls (scan links))) as Hsplit.
      { intros u. unfold batch.
        rewrite <- (take_drop batchSize (drop i (urls (scan links)))) at 1.
        by rewrite elem_of_app, drop_drop. }
      split; [|split; [|split; [|split]]].
      * intros e. rewrite IHm, mark_results_elem. split.
        -- intros [[?|(r & link & Hr & Hb & Hl & He)]|(link & Hk & He & Hd & Hb)].
           ++ by left.
           ++ right. apply list_elem_of_fmap in Hr as (u & -> & Hu).
              cbn [fst snd] in *. apply group_kept in Hl as [Hk Hn].
              exists link. rewrite Hn. repeat split; try done.
              apply Hsplit. by left.
           ++ right. exists link. rewrite Hvis in Hb. repeat split; try done.
              apply Hsplit. by right.
        -- intros [?|(link & Hk & He & Hd & Hb)]; [by left; left|].
           apply Hsplit in Hd as [Hd|Hd].
           ++ left. right.
              exists (normalizeUrl (href link), visited_status s answer (normalizeUrl (href link))), link.
              split; [|split; [done|split; [|done]]].
              ** apply list_elem_of_fmap. by exists (normalizeUrl (href link)).
              ** by apply group_kept.
           ++ right. exists link. by rewrite Hvis.
      * intros u. by rewrite IHv, Hvis.
      * intros u [Hu|Hu]%Hsplit.
        -- by apply IHmono, Hcached.
        -- by rewrite (IHc u Hu), Hvis.
      * intros u b Hb. by apply IHmono, Hmono.
      * by rewrite IHo.
    + cbn [fst snd]. rewrite drop_ge by lia.
      split; [|by repeat split; try (intros u Hu; by apply elem_of_nil in Hu)].
      intros e. split; [by left|]. intros [?|(link & _ & _ & Hin & _)]; [done|].
      by apply elem_of_nil in Hin.
Qed.

Lemma processLinks_annotate links s marked :
  processLinks w links s marked
  = annotate (length (urls (scan links))) w (scan links) 0 s marked.
Proof.
  unfold Annotate.processLinks. rewrite Hstart. cbn [negb].
  by destruct links.
Qed.

Lemma kept_urls links link :
  link ∈ kept links → normalizeUrl (href link) ∈ urls (scan links).
Proof.
  intros Hk. destruct (scan_spec url_parse links) as (-> & _ & _).
  apply (first_occurrences_elem url_parse), list_elem_of_fmap. by exists link.
Qed.

(** X18. A run of [processLinks] on its own, with the context valid
    throughout, a normalization that leaves a normalized URL as it is,
    and every message answered, for each URL [u] it asks about, with
    [answer u]: an element carries the mark afterwards exactly when it
    carried it before or the scan kept it and its normalized URL is
    visited, by the cache if the cache had an entry and by the answer
    otherwise. Every element with such a URL is marked, however many
    share it and whichever batch of 50 the URL falls in. Afterwards the
    cache holds the status of the URL of every kept element, keeps the
    entries it had, and no message is outstanding that was not
    before. *)
Theorem processLinks_marks_visited links s marked :
  let r := processLinks w links s marked in
  (∀ e, e ∈ snd r
        ↔ e ∈ marked
          ∨ ∃ link, link ∈ kept links ∧ element link = e
                    ∧ visited_status s answer (normalizeUrl (href link)) = true)
  ∧ (∀ link, link ∈ kept links →
             urlCache (fst r) !! normalizeUrl (href link)
             = Some (visited_status s answer (normalizeUrl (href link))))
  ∧ (∀ u b, urlCache s !! u = Some b → urlCache (fst r) !! u = Some b)
  ∧ outstanding (fst r) = outstanding s.
Proof.
  cbv zeta. rewrite processLinks_annotate.
  destruct (annotate_answered links (length (urls (scan links))) 0 s marked
              ltac:(lia)) as (Hm & _ & Hc & Hmono & Ho).
  rewrite drop_0 in Hm, Hc.
  split; [|split; [|split; [done|done]]].
  - intros e. rewrite Hm. split.
    + intros [?|(link & ? & ? & _ & ?)]; [by left|]. right. by exists link.
    + intros [?|(link & Hk & ? & ?)]; [by left|]. right. exists link.
      repeat split; try done. by apply kept_urls.
  - intros link Hk. by apply Hc, kept_urls.
Qed.


Lemma mark_if_same_elem nu (links : list Link) m e :
  e ∈ fold_left (mark_if_same url_parse nu) links m
  ↔ e ∈ m ∨ ∃ link, link ∈ links ∧ element link = e
                    ∧ normalizeUrl (href link) = nu.
Proof.
  revert m. induction links as [|link links IH]; intros m; cbn [fold_left].
  - split; [by left|]. intros [?|(link & H & _)]; [done|].
    by apply elem_of_nil in H.
  - rewrite IH.
    change (mark_if_same url_parse nu m link)
      with (markLink link (bool_decide (normalizeUrl (href link) = nu)) m).
    rewrite markLink_elem, bool_decide_eq_true. split.
    + intros [[?|[? ->]]|(link' & ? & ? & ?)]; [by left|right..].
      * exists link. split; [left|done].
      * exists link'. split; [by right|done].
    + intros [?|(link' & [->|?]%elem_of_cons & He & Hn)]; [by left; left|..].
      * left. right. done.
      * right. by exists link'.
Qed.

(** X19. A [markUrlAsVisited] message marks every element of the page
    whose normalized [href] is the normalized URL of the message, also
    those the scan of [processLinks] skips, and nothing else. A run of
    [processLinks] after it, on the same elements and under the same
    conditions as above, keeps these marks and adds exactly the marks
    it adds without the message: the elements the scan keeps whose URL
    the cache or the answer gives as visited. *)
Theorem markUrlAsVisited_then_processLinks url links s marked :
  let r1 := Annotate.markUrlAsVisited url_parse url links s marked in
  let r := processLinks w links (fst r1) (snd r1) in
  (∀ e, e ∈ snd r1
        ↔ e ∈ marked
          ∨ ∃ link, link ∈ links ∧ element link = e
                    ∧ normalizeUrl (href link) = normalizeUrl url)
  ∧ (∀ e, e ∈ snd r
          ↔ e ∈ snd r1
            ∨ ∃ link, link ∈ kept links ∧ element link = e
                      ∧ visited_status s answer (normalizeUrl (href link)) = true)
  ∧ urlCache (fst r) !! normalizeUrl url = Some true.
Proof.
  cbv zeta. unfold Annotate.markUrlAsVisited. cbn [fst snd].
  set (s1 := Content.markUrlAsVisited url_parse url s).
  set (m1 := fold_left _ links marked).
  assert (∀ e, e ∈ m1
        ↔ e ∈ marked
          ∨ ∃ link, link ∈ links ∧ element link = e
                    ∧ normalizeUrl (href link) = normalizeUrl url) as Hm1.
  { intros e. apply mark_if_same_elem. }
  rewrite processLinks_annotate.
  destruct (annotate_answered links (length (urls (scan links))) 0 s1 m1
              ltac:(lia)) as (Hm & _ & _ & Hmono & _).
  rewrite drop_0 in Hm.
  assert (∀ u, visited_status s1 answer u
               = if decide (u = normalizeUrl url) then true
                 else visited_status s answer u) as Hvs.
  { intros u. unfold visited_status, s1, Content.markUrlAsVisited.
    cbn [urlCache cache_set]. destruct (decide (u = normalizeUrl url)) as [->|Hne].
    - by rewrite lookup_insert_eq.
    - by rewrite lookup_insert_ne. }
  split; [done|split].
  - intros e. rewrite Hm. split.
    + intros [?|(link & Hk & He & _ & Hv)]; [by left|].
      rewrite Hvs in Hv. destruct (decide _) as [Heq|_].
      * left. apply Hm1. right. exists link. split; [|done].
        unfold kept in Hk. by apply list_elem_of_filter in Hk as [_ ?].
      * right. by exists link.
    + intros [?|(link & Hk & He & Hv)]; [by left|]. right. exists link.
      split; [done|split; [done|split; [by apply kept_urls|]]].
      rewrite Hvs. by destruct (decide _).
  - apply Hmono. unfold s1, Content.markUrlAsVisited. cbn [urlCache cache_set].
    by rewrite lookup_insert_eq.
Qed.
End Answered.
End AnnotateFacts.

Lemma processLinks_marks_visited_witness :
  4%nat ∈ snd (Annotate.processLinks Content.parse_normalized
                 (Annotate.answered_by {[ JS.lit "x" := 1%Z ]})
                 [ {| Content.element := 0; Content.href := JS.lit "x" |};
                   {| Content.element := 1; Content.href := JS.lit "y" |};
                   {| Content.element := 3; Content.href := JS.lit "#f" |};
                   {| Content.element := 4; Content.href := JS.lit "x" |} ]
                 Content.session0 ∅).
Proof.
  apply (proj1 (processLinks_marks_visited Content.parse_normalized
                  (fun u => default false
                              (Bulk.checkUrlInDB true {[ JS.lit "x" := 1%Z ]} u))
                  (Annotate.answered_by {[ JS.lit "x" := 1%Z ]})
                  (fun _ => eq_refl) eq_refl
                  (fun _ => conj eq_refl eq_refl) (fun _ => eq_refl)
                  _ Content.session0 ∅)).
  right. exists {| Content.element := 4; Content.href := JS.lit "x" |}.
  split; [|split; reflexivity].
  do 2 apply list_elem_of_further. apply list_elem_of_here.
Defined.

Lemma markUrlAsVisited_then_processLinks_witness :
  3%nat ∈ snd (Annotate.markUrlAsVisited Content.parse_normalized (JS.lit "#f")
                 [ {| Content.element := 0; Content.href := JS.lit "x" |};
                   {| Content.element := 3; Content.href := JS.lit "#f" |} ]
                 Content.session0 ∅).
Proof.
  apply (proj1 (markUrlAsVisited_then_processLinks Content.parse_normalized
                  (fun u => default false
                              (Bulk.checkUrlInDB true {[ JS.lit "x" := 1%Z ]} u))
                  (Annotate.answered_by {[ JS.lit "x" := 1%Z ]})
                  (fun _ => eq_refl) eq_refl
                  (fun _ => conj eq_refl eq_refl) (fun _ => eq_refl)
                  (JS.lit "#f") _ Content.session0 ∅)).
  right. exists {| Content.element := 3; Content.href := JS.lit "#f" |}.
  split; [|split; reflexivity].
  apply list_elem_of_further, list_elem_of_here.
Defined.

(** ** The mutation observer *)
Section ObserveFacts.
Import JS Content Observe.
Implicit Types (o : Observer) (evs : list Event).

Lemma added_loop_spec nodes has :
  added_loop nodes has = true
  ↔ has = true ∨ ∃ node, node ∈ nodes ∧ brings_link node = true.
Proof.
  induction nodes as [|node rest IH]; cbn [added_loop].
  - split; [by left|]. intros [?|(node & H & _)]; [done|].
    by apply elem_of_nil in H.
  - destruct (brings_link node) eqn:E.
    + split; [|done]. intros _. right. exists node. split; [left|done].
    + rewrite IH. split.
      * intros [?|(n & ? & ?)]; [by left|]. right. exists n. split; [by right|done].
      * intros [?|(n & [->|?]%elem_of_cons & Hn)]; [by left|congruence|].
        right. by exists n.
Qed.

Lemma mutations_loop_spec (mutations : list MutationRecord) has :
  fold_left (fun has mutation =>
               match type mutation with
               | childList => added_loop (addedNodes mutation) has
               | _ => has
               end) mutations has = true
  ↔ has = true
    ∨ ∃ mutation node, mutation ∈ mutations ∧ type mutation = childList
                       ∧ node ∈ addedNodes mutation ∧ brings_link node = true.
Proof.
  revert has. induction mutations as [|m rest IH]; intros has; cbn [fold_left].
  - split; [by left|]. intros [?|(m & n & H & _)]; [done|].
    by apply elem_of_nil in H.
  - rewrite IH. split.
    + intros [H|(m' & n & ? & ? & ? & ?)].
      * destruct (type m) eqn:E; try by left.
        apply added_loop_spec in H as [?|(n & ? & ?)]; [by left|].
        right. exists m, n. repeat split; try done. left.
      * right. exists m', n. repeat split; try done. by right.
    + intros [->|(m' & n & [->|?]%elem_of_cons & Ht & Hn & Hb)].
      * left. destruct (type m); try done. apply added_loop_spec. by left.
      * left. rewrite Ht. apply added_loop_spec. right. by exists n.
      * right. by exists m', n.
Qed.

(** The flag [hasNewLinks] after the two loops: set exactly when some
    [childList] record adds an element node that is an [a] element or
    has one below it. *)
Lemma hasNewLinks_spec (mutations : list MutationRecord) :
  hasNewLinks mutations = true
  ↔ ∃ mutation node, mutation ∈ mutations ∧ type mutation = childList
                     ∧ node ∈ addedNodes mutation
                     ∧ nodeType node = ELEMENT_NODE
                     ∧ (tagName node = lit "A" ∨ querySelector_a node = true).
Proof.
  unfold hasNewLinks. rewrite mutations_loop_spec. split.
  - intros [?|(m & n & ? & ? & ? & Hb)]; [done|]. exists m, n.
    unfold brings_link in Hb. apply andb_true_iff in Hb as [Ht Ha].
    apply N.eqb_eq in Ht. apply orb_true_iff in Ha as [Ha|Ha].
    + apply bool_decide_eq_true in Ha. repeat split; try done. by left.
    + repeat split; try done. by right.
  - intros (m & n & ? & ? & ? & Ht & Ha). right. exists m, n.
    repeat split; try done. unfold brings_link. apply andb_true_iff. split.
    + by apply N.eqb_eq.
    + apply orb_true_iff. destruct Ha as [Ha|Ha]; [left|by right].
      by apply bool_decide_eq_true.
Qed.


Lemma one_timer_length o : one_timer o → (length (timers o) ≤ 1)%nat.
Proof. intros [->|(id & -> & _)]; cbn; lia. Qed.

Lemma clear_current o :
  one_timer o → timers (clearTimeout (timeoutId o) o) = [].
Proof.
  intros [E|(id & E & ->)].
  - destruct (timeoutId o); cbn [clearTimeout timers]; [|done].
    by rewrite E.
  - cbn [clearTimeout timers]. rewrite E.
    by rewrite filter_cons_False by (intros H; by apply H).
Qed.

Lemma clear_fields id o :
  connected (clearTimeout id o) = connected o
  ∧ next_timer (clearTimeout id o) = next_timer o
  ∧ processed (clearTimeout id o) = processed o
  ∧ timeoutId (clearTimeout id o) = timeoutId o.
Proof. by destruct id. Qed.

Lemma clear_waiting id o :
  one_timer o → id ∈ timers o → timers (clearTimeout (Some id) o) = [].
Proof.
  intros [E|(id' & E & _)] Hin; rewrite E in Hin.
  - by apply elem_of_nil in Hin.
  - apply list_elem_of_singleton in Hin as ->. cbn [clearTimeout timers].
    rewrite E. by rewrite filter_cons_False by (intros H; by apply H).
Qed.

(** X20. What one run of the observer callback does, in any state of
    the observer. It sets a timer, the only way it asks for a rescan,
    exactly when the context is valid and some [childList] record of the
    delivery adds an element node that is an [a] element or has one
    below it: leaving the inner loop at the first such node loses
    nothing, and records of other types and nodes that are not elements
    never count. The timer it sets replaces the one
    [observer.timeoutId] named. With the context invalidated it
    disconnects the observer and sets no timer, whatever the delivery
    holds; in every other case the observer is left as it was. *)
Theorem callback_requests_rescan env (mutations : list MutationRecord) o :
  let o' := callback env mutations o in
  let brings :=
    ∃ mutation node, mutation ∈ mutations ∧ type mutation = childList
                     ∧ node ∈ addedNodes mutation
                     ∧ nodeType node = ELEMENT_NODE
                     ∧ (tagName node = lit "A" ∨ querySelector_a node = true) in
  (next_timer o' ≠ next_timer o ↔ context_valid env = true ∧ brings)
  ∧ (context_valid env = true → brings →
     timeoutId o' = Some (next_timer o)
     ∧ timers o'
       = filter (fun j => Some j ≠ timeoutId o) (timers o) ++ [next_timer o]
     ∧ next_timer o' = S (next_timer o)
     ∧ connected o' = connected o ∧ processed o' = processed o)
  ∧ (context_valid env = true → ¬ brings → o' = o)
  ∧ (context_valid env = false → o' = disconnect o).
Proof.
  cbv zeta. unfold callback.
  destruct (context_valid env) eqn:Hv; cbn [negb].
  2:{ split; [|done]. cbn [disconnect next_timer]. split; [done|by intros [? _]]. }
  pose proof (hasNewLinks_spec mutations) as Hspec.
  destruct (hasNewLinks mutations) eqn:Hn.
  - assert (∃ mutation node, mutation ∈ mutations ∧ type mutation = childList
                     ∧ node ∈ addedNodes mutation
                     ∧ nodeType node = ELEMENT_NODE
                     ∧ (tagName node = lit "A" ∨ querySelector_a node = true))
      as Hb by by apply Hspec.
    destruct (clear_fields (timeoutId o) o) as (Hco & Hnt & Hp & _).
    split; [|split; [|split; [|done]]].
    + cbn [setTimeout next_timer]. rewrite Hnt. split; [done|]. intros _. lia.
    + intros _ _. cbn [setTimeout next_timer timeoutId timers connected processed].
      rewrite Hnt, Hco, Hp. repeat split.
      f_equal. destruct (timeoutId o) as [i|]; cbn [clearTimeout timers].
      * apply list_filter_iff. intros j. split; [congruence|].
        intros H ->. by apply H.
      * symmetry. apply filter_all, Forall_forall. by intros j _.
    + intros _ Hnb. by destruct Hnb.
  - assert (¬ ∃ mutation node, mutation ∈ mutations ∧ type mutation = childList
                     ∧ node ∈ addedNodes mutation
                     ∧ nodeType node = ELEMENT_NODE
                     ∧ (tagName node = lit "A" ∨ querySelector_a node = true))
      as Hb.
    { intros H. apply Hspec in H. done. }
    split; [|split; [|split; [done|done]]].
    + split; [done|]. by intros [_ ?].
    + intros _ H. by destruct Hb.
Qed.

Lemma step_one_timer o ev :
  one_timer o →
  one_timer (step o ev)
  ∧ (processed (step o ev) + length (timers (step o ev))
     ≤ processed o + length (timers o) + (if asks_rescan ev then 1 else 0))%nat
  ∧ (processed o ≤ processed (step o ev))%nat.
Proof.
  intros Hinv. pose proof (one_timer_length o Hinv) as Hlen.
  destruct ev as [env ms|env id]; cbn [step asks_rescan].
  - destruct (connected o).
    2:{ split; [done|]. destruct (_ && _); lia. }
    unfold callback. destruct (context_valid env); cbn [negb andb].
    2:{ split; [done|]. cbn [disconnect processed timers]. lia. }
    destruct (hasNewLinks ms).
    2:{ split; [done|]. lia. }
    pose proof (clear_current o Hinv) as Hc.
    destruct (clear_fields (timeoutId o) o) as (_ & Hn & Hp & _).
    cbn [setTimeout processed timers timeoutId]. rewrite Hc, Hp, Hn.
    split; [|cbn; lia]. right. exists (next_timer o).
    cbn [setTimeout timers timeoutId]. by rewrite Hc, Hn.
  - destruct (bool_decide_reflect (id ∈ timers o)) as [Hin|_].
    2:{ split; [done|]. lia. }
    pose proof (clear_waiting id o Hinv Hin) as Hc.
    assert (length (timers o) = 1%nat) as Hl.
    { destruct (timers o); [by apply elem_of_nil in Hin|]. cbn in *. lia. }
    unfold on_timeout. destruct (context_valid env); cbn [negb].
    + cbn [processed timers clearTimeout] in *. rewrite Hc. split; [by left|].
      cbn. lia.
    + rewrite Hc. split; [by left|]. cbn [processed clearTimeout length]. lia.
Qed.

Lemma run_one_timer evs o :
  one_timer o →
  one_timer (run evs o)
  ∧ (processed (run evs o) + length (timers (run evs o))
     ≤ processed o + length (timers o) + length (filter (fun ev => asks_rescan ev = true) evs))%nat
  ∧ (processed o ≤ processed (run evs o))%nat.
Proof.
  revert o. induction evs as [|ev evs IH]; intros o Hinv.
  - cbn. split; [done|]. lia.
  - change (run (ev :: evs) o) with (run evs (step o ev)).
    destruct (step_one_timer o ev Hinv) as (H1 & H2 & H3).
    destruct (IH _ H1) as (IH1 & IH2 & IH3). split; [done|].
    destruct (asks_rescan ev) eqn:E.
    + rewrite filter_cons_True by done. cbn [length]. lia.
    + rewrite filter_cons_False by congruence. lia.
Qed.

(** X21. Whatever is delivered to the observer and whichever timers
    run, in any order: at most one timer waits, and it is the one
    [observer.timeoutId] names; and the rescans made and the timer
    waiting are together no more than the deliveries that brought a
    link while the context was valid. *)
Theorem observer_one_timer evs :
  let o := run evs observer0 in
  (length (timers o) ≤ 1)%nat
  ∧ (∀ id, id ∈ timers o → timeoutId o = Some id)
  ∧ (processed o + length (timers o)
     ≤ length (filter (fun ev => asks_rescan ev = true) evs))%nat.
Proof.
  cbv zeta. destruct (run_one_timer evs observer0 (or_introl eq_refl))
    as (Hinv & Hle & _).
  split; [by apply one_timer_length|split; [|exact Hle]].
  intros id Hin. destruct Hinv as [E|(id' & E & Ht)]; rewrite E in Hin.
  - by apply elem_of_nil in Hin.
  - by apply list_elem_of_singleton in Hin as ->.
Qed.

Lemma burst_timers (batches : list (list MutationRecord)) o :
  one_timer o → connected o = true → batches ≠ [] →
  Forall (fun ms => hasNewLinks ms = true) batches →
  let o' := run (map (Mutations env_ok) batches) o in
  timers o' = [(next_timer o + length batches - 1)%nat]
  ∧ timeoutId o' = Some (next_timer o + length batches - 1)%nat
  ∧ processed o' = processed o ∧ connected o' = true
  ∧ next_timer o' = (next_timer o + length batches)%nat.
Proof.
  cbv zeta. intros Hinv Hc Hne Hall. revert o Hinv Hc.
  induction Hall as [|ms rest Hms Hall IH]; [done|]. intros o Hinv Hc.
  change (run (map (Mutations env_ok) (ms :: rest)) o)
    with (run (map (Mutations env_ok) rest) (step o (Mutations env_ok ms))).
  assert (step o (Mutations env_ok ms)
          = setTimeout (clearTimeout (timeoutId o) o)) as E.
  { cbn [step]. rewrite Hc. unfold callback. cbn [context_valid env_ok negb].
    by rewrite Hms. }
  rewrite E. pose proof (clear_current o Hinv) as Hcl.
  destruct (clear_fields (timeoutId o) o) as (Hco & Hn & Hp & _).
  destruct rest as [|ms' rest'].
  - cbn [map run fold_left setTimeout timers timeoutId processed connected
         next_timer length].
    rewrite Hcl, Hn, Hp, Hco, Hc. cbn [app].
    replace (next_timer o + 1 - 1)%nat with (next_timer o) by lia.
    repeat split; try done. lia.
  - destruct (IH ltac:(done) (setTimeout (clearTimeout (timeoutId o) o)))
      as (H1 & H2 & H3 & H4 & H5).
    + right. exists (next_timer o). cbn [setTimeout timers timeoutId].
      by rewrite Hcl, Hn.
    + cbn [setTimeout connected]. by rewrite Hco.
    + cbn [setTimeout next_timer processed] in *. rewrite Hn in *.
      rewrite Hp in *. rewrite H1, H2, H3, H4, H5.
      cbn [length]. repeat split; try done; try lia; f_equal; try f_equal; lia.
Qed.

(** X22. Debouncing. After any history, with the observer still
    connected, a run of deliveries that each bring a link leaves exactly
    one timer waiting, the one the last delivery set, and makes no
    rescan; when that timer runs with the context valid, one rescan is
    made and no timer waits; with the context gone, none is made. *)
Theorem observer_debounce evs (batches : list (list MutationRecord)) :
  connected (run evs observer0) = true →
  batches ≠ [] →
  Forall (fun ms => hasNewLinks ms = true) batches →
  let o := run evs observer0 in
  let o' := run (map (Mutations env_ok) batches) o in
  let id := (next_timer o + length batches - 1)%nat in
  timers o' = [id]
  ∧ processed o' = processed o
  ∧ processed (step o' (Timer env_ok id)) = S (processed o)
  ∧ timers (step o' (Timer env_ok id)) = []
  ∧ processed (step o' (Timer env_invalidated id)) = processed o.
Proof.
  cbv zeta. intros Hc Hne Hall.
  destruct (run_one_timer evs observer0 (or_introl eq_refl)) as (Hinv & _).
  destruct (burst_timers batches _ Hinv Hc Hne Hall) as (Ht & Hid & Hp & _).
  cbv zeta in Ht, Hid, Hp. split; [done|split; [done|]].
  cbn [step]. rewrite Ht.
  rewrite bool_decide_eq_true_2 by apply list_elem_of_here.
  unfold on_timeout. cbn [context_valid env_ok env_invalidated negb].
  cbn [processed timers clearTimeout]. rewrite Ht, Hp.
  rewrite filter_cons_False by (intros H; by apply H).
  done.
Qed.

(** X23. Once the callback has met an invalid context the observer is
    disconnected, and whatever follows sets no timer: the timer that
    was waiting is not cleared, so at most that one rescan can still
    happen. *)
Theorem observer_disconnected evs mutations evs' :
  let o := step (run evs observer0) (Mutations env_invalidated mutations) in
  let o' := run evs' o in
  connected o' = false
  ∧ (processed o' ≤ processed o + length (timers o))%nat
  ∧ (length (timers o') ≤ length (timers o))%nat.
Proof.
  cbv zeta.
  destruct (run_one_timer evs observer0 (or_introl eq_refl)) as (Hinv & _).
  set (o0 := run evs observer0) in *.
  assert (connected (step o0 (Mutations env_invalidated mutations)) = false
          ∧ one_timer (step o0 (Mutations env_invalidated mutations))) as [Hd Hi].
  { cbn [step]. destruct (connected o0) eqn:E; [|done].
    unfold callback. cbn [context_valid env_invalidated negb]. done. }
  revert Hd Hi. generalize (step o0 (Mutations env_invalidated mutations)).
  clear. intros o Hd Hi. revert o Hd Hi.
  induction evs' as [|ev evs' IH]; intros o Hd Hi.
  - cbn. split; [done|]. lia.
  - change (run (ev :: evs') o) with (run evs' (step o ev)).
    assert (connected (step o ev) = false ∧ one_timer (step o ev)
            ∧ (processed (step o ev) + length (timers (step o ev))
               ≤ processed o + length (timers o))%nat
            ∧ (length (timers (step o ev)) ≤ length (timers o))%nat)
      as (H1 & H2 & H3 & H4).
    { destruct ev as [env ms|env id]; cbn [step].
      - rewrite Hd. split; [done|split; [done|lia]].
      - destruct (bool_decide_reflect (id ∈ timers o)) as [Hin|_].
        2:{ split; [done|split; [done|lia]]. }
        pose proof (clear_waiting id o Hi Hin) as Hc.
        assert (length (timers o) = 1%nat) as Hl.
        { pose proof (one_timer_length o Hi).
          destruct (timers o); [by apply elem_of_nil in Hin|]. cbn in *. lia. }
        unfold on_timeout. destruct (context_valid env); cbn [negb].
        + cbn [processed timers clearTimeout connected] in *. rewrite Hc.
          split; [done|split; [by left|]]. cbn. lia.
        + rewrite Hc. cbn [processed clearTimeout length connected].
          split; [done|split; [by left|lia]]. }
    destruct (IH _ H1 H2) as (I1 & I2 & I3). split; [done|]. lia.
Qed.
End ObserveFacts.

Lemma observer_debounce_witness :
  Observe.timers
    (Observe.run (map (Observe.Mutations Content.env_ok)
                      [Observe.link_added; Observe.link_added; Observe.link_added])
                 (Observe.run [] Observe.observer0))
  = [2%nat].
Proof.
  refine (proj1 (observer_debounce []
                   [Observe.link_added; Observe.link_added; Observe.link_added]
                   eq_refl _ _)).
  - discriminate.
  - repeat constructor.
Defined.

(** ** The custom style *)
Section StyleFacts.
Import JS Content Style.

Lemma inject_trimmed value style :
  injectCustomCss (trim value) style
  = if truthy (trim value) then Some (trim value) else None.
Proof.
  unfold injectCustomCss. rewrite trim_idem, andb_diag.
  destruct (truthy (trim value)); [done|]. by destruct style.
Qed.

(** X24. Saving a style in the popup: every open page that runs the
    content script ends with the style a page loaded afterwards gets,
    whatever style it had before: a style element holding the trimmed
    text, or none when the text is blank. The popup shows the trimmed
    text when it is opened again, also when it is empty, and its
    preview of the untrimmed text has a style element exactly when the
    pages have one. *)
Theorem saveCustomCss_pages_agree value b :
  let b' := saveCustomCss value b in
  let loaded := loadAndApplyCustomCss env_ok (customCss b') None in
  loaded = (if truthy (trim value) then Some (trim value) else None)
  ∧ (∀ i style, tabs b' !! i = Some (Some style) → style = loaded)
  ∧ (∀ i, tabs b' !! i = Some None ↔ tabs b !! i = Some None)
  ∧ loadCustomCss (customCss b') = trim value
  ∧ (∀ preview, is_Some (applyPreviewCss value preview) ↔ is_Some loaded).
Proof.
  cbv zeta. unfold saveCustomCss. cbn [customCss tabs].
  assert (loadAndApplyCustomCss env_ok (Some (trim value)) None
          = if truthy (trim value) then Some (trim value) else None) as E.
  { unfold loadAndApplyCustomCss. cbn [context_valid env_ok negb].
    rewrite inject_trimmed. by destruct (truthy (trim value)). }
  rewrite E. split; [done|split; [|split; [|split; [done|]]]].
  - intros i style. rewrite list_lookup_fmap.
    destruct (tabs b !! i) as [[st|]|]; cbn; try done.
    rewrite inject_trimmed. congruence.
  - intros i. rewrite list_lookup_fmap.
    destruct (tabs b !! i) as [[st|]|]; cbn; split; congruence.
  - intros preview. unfold applyPreviewCss.
    assert (truthy (trim value) = true → truthy value = true) as Hv.
    { destruct value; [|done]. by rewrite trim_nil. }
    destruct (truthy (trim value)).
    + rewrite Hv by done. cbn. split; intros _; by eexists.
    + rewrite andb_false_r. destruct preview; split; intros [? ?]; done.
Qed.

(** X25. Resetting the style, once confirmed: no open page keeps a
    style element, a page loaded afterwards gets none, and the popup
    shows the default text when it is opened again. *)
Theorem resetCustomCss_removes b :
  let b' := resetCustomCss true b in
  (∀ i style, tabs b' !! i = Some (Some style) → style = None)
  ∧ (∀ env style, loadAndApplyCustomCss env (customCss b') style = style)
  ∧ loadCustomCss (customCss b') = DEFAULT_CSS.
Proof.
  cbv zeta. unfold resetCustomCss. cbn [negb customCss tabs].
  split; [|split; [|done]].
  - intros i style. rewrite list_lookup_fmap.
    destruct (tabs b !! i) as [[[st|]|]|]; cbn; congruence.
  - intros env style. unfold loadAndApplyCustomCss.
    by destruct (context_valid env).
Qed.
End StyleFacts.
